(** * MEXAR knowledge lifecycle engine: shallow embedding and checked properties

    The development follows the Python sources of the backend:
    - [Py]: the fragment of Python's [str], [list] and numeric built-ins the
      modelled functions use;
    - [ReasoningEngine] (modules/reasoning_engine.py) with the [Reranker]
      (utils/reranker.py) it calls;
    - [DataValidator] (modules/data_validator.py);
    - [FaithfulnessScorer] (utils/faithfulness.py);
    - [PromptAnalyzer] (modules/prompt_analyzer.py);
    - [SourceAttributor] (utils/source_attribution.py);
    - [Compilation] (modules/knowledge_compiler.py and
      workers/compilation_worker.py);
    - [QuickFaithfulness] (the estimate without LLM calls of
      utils/faithfulness.py), [TextParser] (text files in
      modules/data_validator.py) and [HybridSearcher]
      (utils/hybrid_search.py).

    Modelling conventions.
    - Python [float] values are idealised as exact rationals [Q]; literals are
      written as in the source ([0.35], [0.10], ...). The arithmetic and
      the comparisons are exact; only [round] is sensitive to the
      difference, at decimal ties (see [Py.round_half_even]).
    - Python [str] values are lists of code points; the alphabet is Latin-1
      (code points 0..255), carried by [ascii]. Case conversions that
      leave the alphabet are listed at [Py.lower].
    - External services (the LLM client, the embedding model, the
      cross-encoder, the database engine, the file system) are inputs of the
      functions that call them; an input of type [option _] is [None] when the
      call raises. *)

From Stdlib Require Import String Ascii DecimalString DecimalNat.
From Stdlib Require Import QArith Qminmax ZArith Bool Arith List Lia Lqa.
Import ListNotations.

Set Implicit Arguments.

(* ===================================================================== *)
(** * Python built-ins *)
(* ===================================================================== *)

Module Py.

Definition str := list ascii.

(** A string literal of the source. *)
Definition lit (s : string) : str := list_ascii_of_string s.

Definition code (c : ascii) : N := N_of_ascii c.

Definition str_eq_dec : forall a b : str, {a = b} + {a <> b} :=
  list_eq_dec ascii_dec.

Definition str_eqb (a b : str) : bool :=
  if str_eq_dec a b then true else false.

(** [x in l] for a list of strings. *)
Definition mem (x : str) (l : list str) : bool := existsb (str_eqb x) l.

(** [str.isspace] on one code point below 256: TAB..CR, FS..US, space, NEL
    and the no-break space. The same predicate is what [\s] matches in a
    [re] pattern over [str], and what [str.split()] and [str.strip()] cut. *)
Definition isspace (c : ascii) : bool :=
  let n := code c in
  ((9 <=? n) && (n <=? 13) || (28 <=? n) && (n <=? 32)
   || (n =? 133) || (n =? 160))%N.

(** [str.lower] and [str.upper]. On Latin-1 text [str.lower] works code
    point by code point (the context-sensitive lower case of the Greek
    capital sigma lies outside the alphabet). [str.upper] turns the sharp s
    (223) into [SS]; the capitals of the micro sign (181) and of y with
    diaeresis (255) lie outside Latin-1, and these two code points are
    left unchanged. *)
Definition lower_char (c : ascii) : ascii :=
  let n := code c in
  if ((65 <=? n) && (n <=? 90)
      || (192 <=? n) && (n <=? 222) && negb (n =? 215))%N
  then ascii_of_N (n + 32) else c.

Definition upper_char (c : ascii) : ascii :=
  let n := code c in
  if ((97 <=? n) && (n <=? 122)
      || (224 <=? n) && (n <=? 254) && negb (n =? 247))%N
  then ascii_of_N (n - 32) else c.

Definition upper_chars (c : ascii) : str :=
  if (code c =? 223)%N then lit "SS" else [upper_char c].

Definition lower (s : str) : str := map lower_char s.
Definition upper (s : str) : str := flat_map upper_chars s.

(** [str.title]: a code point that follows a cased one is put in lower
    case, any other one in title case, which is the upper case except for
    the sharp s, whose title case is [Ss]. The cased code points of
    Latin-1 are the letters with the two ordinal indicators (170, 186) and
    the micro sign (181); the multiplication and division signs (215,
    247) are not letters. As in [upper], the micro sign and y with
    diaeresis are left unchanged where their title case lies outside
    Latin-1. *)
Definition is_cased (c : ascii) : bool :=
  let n := code c in
  ((65 <=? n) && (n <=? 90) || (97 <=? n) && (n <=? 122)
   || (n =? 170) || (n =? 181) || (n =? 186)
   || (192 <=? n) && (n <=? 214) || (216 <=? n) && (n <=? 246)
   || (248 <=? n) && (n <=? 255))%N.

Definition title_chars (c : ascii) : str :=
  if (code c =? 223)%N then lit "Ss" else [upper_char c].

Fixpoint title_aux (inside : bool) (s : str) : str :=
  match s with
  | [] => []
  | c :: s' =>
      (if inside then [lower_char c] else title_chars c)
        ++ title_aux (is_cased c) s'
  end.

Definition title (s : str) : str := title_aux false s.

(** [str.lstrip], [str.rstrip], [str.strip] without argument. *)
Fixpoint lstrip (s : str) : str :=
  match s with
  | [] => []
  | c :: s' => if isspace c then lstrip s' else s
  end.

Definition rstrip (s : str) : str := rev (lstrip (rev s)).
Definition strip (s : str) : str := rstrip (lstrip s).

(** [str.split()] without argument: the maximal runs of non-space code
    points. [cur] is the run being read, last code point first. *)
Definition flush (cur : str) (rest : list str) : list str :=
  match cur with
  | [] => rest
  | _ => rev cur :: rest
  end.

Fixpoint split_aux (cur : str) (s : str) : list str :=
  match s with
  | [] => flush cur []
  | c :: s' =>
      if isspace c then flush cur (split_aux [] s')
      else split_aux (c :: cur) s'
  end.

Definition split (s : str) : list str := split_aux [] s.

(** [str.split(sep)] for a one-character separator: empty pieces are kept. *)
Fixpoint split_on_aux (sep : ascii) (cur : str) (s : str) : list str :=
  match s with
  | [] => [rev cur]
  | c :: s' =>
      if Ascii.eqb c sep then rev cur :: split_on_aux sep [] s'
      else split_on_aux sep (c :: cur) s'
  end.

Definition split_on (sep : ascii) (s : str) : list str :=
  split_on_aux sep [] s.

(** [sep.join(parts)]. *)
Fixpoint join (sep : str) (parts : list str) : str :=
  match parts with
  | [] => []
  | [p] => p
  | p :: rest => p ++ sep ++ join sep rest
  end.

(** [s.startswith(p)]. *)
Fixpoint startswith (p s : str) : bool :=
  match p, s with
  | [], _ => true
  | _ :: _, [] => false
  | a :: p', b :: s' => Ascii.eqb a b && startswith p' s'
  end.

(** [s.find(sub)]: the index of the first occurrence, [None] for -1. *)
Fixpoint find (sub s : str) : option nat :=
  if startswith sub s then Some 0%nat
  else match s with
       | [] => None
       | _ :: s' => option_map S (find sub s')
       end.

(** [sub in s]. *)
Definition contains (sub s : str) : bool :=
  match find sub s with Some _ => true | None => false end.

(** [s.replace(old, new, 1)]: the first occurrence only. *)
Fixpoint replace_first (old new s : str) : str :=
  if startswith old s then new ++ skipn (length old) s
  else match s with
       | [] => []
       | c :: s' => c :: replace_first old new s'
       end.

(** [l[:k]] for an [int] [k]: a negative [k] counts from the end. *)
Definition slice_to (A : Type) (l : list A) (k : Z) : list A :=
  if (k <? 0)%Z then firstn (Z.to_nat (Z.of_nat (length l) + k)) l
  else firstn (Z.to_nat k) l.

(** [str(n)] for a natural number. *)
Definition str_of_nat (n : nat) : str :=
  lit (NilEmpty.string_of_uint (Nat.to_uint n)).

(** [re.split(r'(?<=[.!?])\s+', text)]: the text is cut at every maximal run
    of white space that directly follows one of [. ! ?]; the run is dropped.
    The scanner is in state [Text p] while it reads a piece ([p]: the last
    code point read was one of the three marks) and in state [Sep] while it
    skips a separating run. A text ending in a separator yields a last empty
    piece, as [re.split] does. *)
Definition is_end_mark (c : ascii) : bool :=
  Ascii.eqb c "."%char || Ascii.eqb c "!"%char || Ascii.eqb c "?"%char.

Inductive scan_state := Text (after_mark : bool) | Sep.

Fixpoint re_split_aux (st : scan_state) (cur : str) (s : str) : list str :=
  match s with
  | [] => [rev cur]
  | c :: s' =>
      match st with
      | Sep =>
          if isspace c then re_split_aux Sep [] s'
          else re_split_aux (Text (is_end_mark c)) [c] s'
      | Text p =>
          if p && isspace c then rev cur :: re_split_aux Sep [] s'
          else re_split_aux (Text (is_end_mark c)) (c :: cur) s'
      end
  end.

Definition re_split_sentences (text : str) : list str :=
  re_split_aux (Text false) [] text.

(** ** Numbers *)

Local Open Scope Q_scope.

Definition Qltb (a b : Q) : bool := negb (Qle_bool b a).
Definition Qleb (a b : Q) : bool := Qle_bool a b.

(** [min(a, b)] and [max(a, b)] return their first argument unless the
    second is strictly smaller (greater). *)
Definition min (a b : Q) : Q := if Qltb b a then b else a.
Definition max (a b : Q) : Q := if Qltb a b then b else a.

(** Rounding to the nearest integer, ties to the even one. Python's
    [round] is this function of the exact value of its float argument.
    Where the argument is the result of float arithmetic on decimals, the
    float need not be the rational of the model: next to a decimal tie
    (0.0125, 0.795) it lies on one side of the tie, and Python may return
    the other neighbour than the model does. What is proved of a rounded
    value is therefore stated with [PyFacts.is_rounding], which holds of
    either neighbour. *)
Definition round_half_even (x : Q) : Z :=
  let x' := Qred x in
  let n := Qnum x' in
  let d := Zpos (Qden x') in
  let q := (n / d)%Z in
  let r := (n mod d)%Z in
  match (2 * r ?= d)%Z with
  | Lt => q
  | Gt => (q + 1)%Z
  | Eq => if Z.even q then q else (q + 1)%Z
  end.

(** [round(x, ndigits)]. *)
Definition round (x : Q) (ndigits : nat) : Q :=
  let p := Pos.pow 10 (Pos.of_nat ndigits) in
  match ndigits with
  | O => inject_Z (round_half_even x)
  | _ => Qmake (round_half_even (x * inject_Z (Zpos p))) p
  end.

End Py.

(* ===================================================================== *)
(** * utils/reranker.py *)
(* ===================================================================== *)

Module Reranker.
Import Py.
Local Open Scope Q_scope.

Section Rerank.

Variable Chunk : Type.

(** [_get_content(chunk)]. *)
Variable get_content : Chunk -> str.

(** The lazily loaded cross-encoder ([self.model]): [None] when
    [_get_reranker] left it at [False]; otherwise its [predict], which is
    [None] on the inputs where it raises. *)
Definition CrossEncoder := list (str * str) -> option (list Q).
Variable model : option CrossEncoder.

(** [sorted(chunk_scores, key=lambda x: x[1], reverse=True)]: descending
    and stable. *)
Fixpoint insert_desc (x : Chunk * Q) (l : list (Chunk * Q)) :=
  match l with
  | [] => [x]
  | y :: l' => if Qltb (snd x) (snd y) then y :: insert_desc x l' else x :: l
  end.

Definition sorted_desc (l : list (Chunk * Q)) : list (Chunk * Q) :=
  fold_right insert_desc [] l.

(** The placeholder score of the fallback path. *)
Definition placeholder_score : Q := 0.5.

Definition fallback (chunks : list Chunk) (top_k : Z) : list (Chunk * Q) :=
  map (fun chunk => (chunk, placeholder_score)) (slice_to chunks top_k).

Definition rerank (query : str) (chunks : list Chunk) (top_k : Z)
  : list (Chunk * Q) :=
  match chunks with
  | [] => []
  | _ =>
      match model with
      | None => fallback chunks top_k
      | Some predict =>
          let pairs :=
            map (fun chunk => (query, firstn 512 (get_content chunk))) chunks in
          match predict pairs with
          | Some scores =>
              let chunk_scores := combine chunks scores in
              let ranked := sorted_desc chunk_scores in
              slice_to ranked top_k
          | None => fallback chunks top_k
          end
      end
  end.

End Rerank.

End Reranker.

(* ===================================================================== *)
(** * modules/reasoning_engine.py *)
(* ===================================================================== *)

Module ReasoningEngine.
Import Py.
Local Open Scope Q_scope.

Definition DOMAIN_SIMILARITY_THRESHOLD : Q := 0.05.

(** The keys of [agent["prompt_analysis"]] the engine reads; a key that the
    stored dictionary lacks is [None] ([dict.get] then takes its default). *)
Record AnalysisDict := {
  domain : option str;
  sub_domains : option (list str);
  domain_keywords : option (list str)
}.

Definition get (A : Type) (field : option A) (default : A) : A :=
  match field with Some v => v | None => default end.

(** The agent dictionary built by [_load_agent]. It always has a
    ["domain"] key; [agent_domain] is [None] when the stored value is
    [None]. *)
Record AgentData := {
  id : nat;
  name : str;
  system_prompt : str;
  agent_domain : option str;
  domain_signature : list str;
  prompt_analysis : AnalysisDict
}.

(** What [reason] returns; the [explainability] dictionary, which repeats
    these values as formatted text, is left out. *)
Record Response := {
  answer : str;
  confidence : Q;
  in_domain : bool
}.

(** ** [_check_guardrail] *)

Section Guardrail.

(** [_fuzzy_match]: [difflib.SequenceMatcher(None, s1, s2).ratio()]. *)
Variable fuzzy_match : str -> str -> Q.

(** One turn of the loop over [query_words]: what the inner loop over the
    signature adds to [matches]. *)
Fixpoint match_word (word : str) (signature : list str) : Q :=
  match signature with
  | [] => 0
  | kw :: rest =>
      if Qltb 0.75 (fuzzy_match word kw) then 1
      else if contains word kw || contains kw word then 0.5
      else match_word word rest
  end.

Definition count_hits (weight : Q) (terms : list str) (query_lower : str) : Q :=
  fold_left
    (fun bonus term =>
       if contains (lower term) query_lower then bonus + weight else bonus)
    terms 0.

Definition _check_guardrail
  (query : str) (domain_signature : list str) (prompt_analysis : AnalysisDict)
  : bool * Q :=
  let query_lower := lower query in
  (* a set: the sum below does not depend on the order of its elements *)
  let query_words := nodup str_eq_dec (split query_lower) in
  let bonus_matches :=
    (if contains (lower (get (domain prompt_analysis) [])) query_lower
     then 3 else 0)
    + count_hits 2 (get (sub_domains prompt_analysis) []) query_lower
    + count_hits 1.5 (get (domain_keywords prompt_analysis) []) query_lower in
  let signature_lower := map lower domain_signature in
  let matches :=
    fold_left
      (fun m word =>
         if (length word <? 3)%nat then m
         else m + match_word word (firstn 100 signature_lower))
      query_words 0 in
  let max_possible :=
    Nat.max 1 (Nat.min (length query_words) 10) in
  let base_score := matches / inject_Z (Z.of_nat max_possible) in
  let bonus_score := min 0.5 (bonus_matches * 0.1) in
  let score := min 1.0 (base_score + bonus_score) in
  let score := if Qleb 1 bonus_matches then max score 0.2 else score in
  let is_in_domain := Qleb DOMAIN_SIMILARITY_THRESHOLD score in
  (is_in_domain, score).

End Guardrail.

(** ** [_calculate_confidence] *)

Definition norm_rerank (rerank_score : Q) : Q :=
  min 1.0 (max 0 ((rerank_score + 10) / 20)).

Definition norm_similarity (top_similarity : Q) : Q :=
  min 1.0 (top_similarity * 30).

Definition _calculate_confidence
  (top_similarity rerank_score faithfulness : Q) : Q :=
  let norm_rerank := norm_rerank rerank_score in
  let norm_similarity := norm_similarity top_similarity in
  let confidence :=
    norm_similarity * 0.35 + norm_rerank * 0.30 + faithfulness * 0.25 + 0.10 in
  let confidence :=
    if Qltb 0.7 norm_similarity && Qltb 0.8 faithfulness
    then max confidence 0.75
    else if Qltb norm_similarity 0.3 then min confidence 0.45
    else confidence in
  round (min 0.95 (max 0.15 confidence)) 2.

(** ** The canned responses *)

(** [f"{x*100:.0f}"] for a score. *)
Definition percent (x : Q) : str :=
  let n := round_half_even (x * 100) in
  if (n <? 0)%Z then lit "-" ++ str_of_nat (Z.to_nat (- n))
  else str_of_nat (Z.to_nat n).

Definition _create_out_of_domain_response
  (query domain : str) (domain_score : Q) : Response :=
  {| answer :=
       lit "I apologize, but your question appears to be outside my area of expertise.

I am a specialized **" ++ title domain
       ++ lit "** assistant and can only answer questions related to that domain based on my knowledge base.

Your query doesn't seem to match the topics I'm trained on (relevance score: "
       ++ percent domain_score ++ lit "%).

**How I can help:**
- Ask questions related to " ++ domain ++ lit "
- Query information from my knowledge base
- Get explanations about " ++ domain ++ lit "-related topics

Would you like to rephrase your question to focus on " ++ domain ++ lit "?";
     confidence := 0.1;
     in_domain := false |}.

(** [agent.get('domain', 'the domain')] finds the key, so that a domain
    that is [None] is printed as such. *)
Definition _create_no_results_response
  (query : str) (agent : AgentData) : Response :=
  {| answer :=
       lit "I couldn't find relevant information in my knowledge base to answer your question.

This could mean:
- The topic isn't covered in my training data
- Try rephrasing your question with different keywords
- Ask about a more specific aspect of "
       ++ match agent_domain agent with
          | Some domain => domain
          | None => lit "None"
          end;
     confidence := 0.2;
     in_domain := true |}.

(** ** [reason] *)

Section Reason.

Variable Chunk : Type.
Variable get_content : Chunk -> str.
Variable fuzzy_match : str -> str -> Q.

(** [self.searcher]: [None] when the embedding model failed to load;
    otherwise [search(query, agent_id, top_k)]. *)
Variable searcher : option (str -> nat -> Z -> list (Chunk * Q)).
Variable cross_encoder : option Reranker.CrossEncoder.

(** [_generate_answer(query, context, system_prompt, multimodal_context)]. *)
Variable _generate_answer : str -> str -> str -> str -> str.

(** [self.attributor.attribute(answer, top_chunks, _)], read at its
    [answer_with_citations], and [self.faithfulness_scorer.score(answer,
    context)], read at its [score]. [reason] is modelled on the calls that
    return: a call in which the search or the attributor raises produces
    no response. *)
Variable attribute : str -> list Chunk -> str.
Variable faithfulness_score : str -> str -> Q.

Definition head_or_zero (scores : list Q) : Q :=
  match scores with s :: _ => s | [] => 0 end.

(** [full_query]: the query the guardrail and the search see. *)
Definition full_query (query multimodal_context : str) : str :=
  match multimodal_context with
  | [] => query
  | _ => query ++ lit "

[ADDITIONAL CONTEXT]
" ++ multimodal_context
  end.

Definition search_results (agent : AgentData) (full_query : str)
  : list (Chunk * Q) :=
  match searcher with
  | Some search => search full_query (id agent) 20%Z
  | None => []
  end.

Definition reason (agent : AgentData) (query multimodal_context : str)
  : Response :=
  let full_query := full_query query multimodal_context in
  let '(in_domain, domain_score) :=
    _check_guardrail fuzzy_match full_query
      (domain_signature agent) (prompt_analysis agent) in
  if negb in_domain then
    _create_out_of_domain_response query
      (get (domain (prompt_analysis agent)) (lit "unknown")) domain_score
  else
    let search_results := search_results agent full_query in
    match search_results with
    | [] => _create_no_results_response query agent
    | _ =>
        let chunks := map fst search_results in
        let rrf_scores := map snd search_results in
        let reranked :=
          Reranker.rerank get_content cross_encoder full_query chunks 5 in
        let top_chunks := map fst reranked in
        let rerank_scores := map snd reranked in
        let context :=
          join (lit "

---

") (map get_content top_chunks) in
        let answer :=
          _generate_answer query context (system_prompt agent)
            multimodal_context in
        let attribution := attribute answer top_chunks in
        let faithfulness := faithfulness_score answer context in
        let top_similarity := head_or_zero rrf_scores in
        let top_rerank := head_or_zero rerank_scores in
        let confidence :=
          _calculate_confidence top_similarity top_rerank faithfulness in
        {| answer := attribution;
           confidence := confidence;
           in_domain := true |}
    end.

End Reason.

End ReasoningEngine.

(* ===================================================================== *)
(** * modules/data_validator.py *)
(* ===================================================================== *)

Module DataValidator.
Import Py.
Local Open Scope Q_scope.

Definition MIN_ENTRIES : nat := 20.
Definition MIN_CHARACTERS : nat := 2000.

(** One result of [parse_file], as [validate_sufficiency] reads it. A key
    that may be absent is an [option]; [data_present] says that the ["data"]
    entry is not [None], [error] holds the ["error"] entry when there is
    one. *)
Record ParsedSource := {
  file_name : str;
  format : str;
  entries_count : option nat;
  text : option str;
  data_present : bool;
  error : option str
}.

Definition get (A : Type) (field : option A) (default : A) : A :=
  match field with Some v => v | None => default end.

Definition sum (l : list nat) : nat := fold_left Nat.add l 0%nat.

Record FileBreakdown := {
  fb_name : str;
  fb_format : str;
  fb_entries : nat;
  fb_characters : nat
}.

Record Stats := {
  total_files : nat;
  total_entries : nat;
  total_characters : nat;
  structure_score : Q;
  file_breakdown : list FileBreakdown
}.

Record Report := {
  sufficient : bool;
  issues : list str;
  warnings : list str;
  stats : Stats
}.

Definition entries_of (p : ParsedSource) : nat := get (entries_count p) 0%nat.
Definition chars_of (p : ParsedSource) : nat := length (get (text p) []).

Definition has_error (p : ParsedSource) : bool :=
  match error p with Some _ => true | None => false end.

Definition when (b : bool) (item : str) : list str :=
  if b then [item] else [].

Definition validate_sufficiency (parsed_data : list ParsedSource) : Report :=
  let total_entries := sum (map entries_of parsed_data) in
  let total_chars := sum (map chars_of parsed_data) in
  let entries_ok := (MIN_ENTRIES <=? total_entries)%nat in
  let chars_ok := (MIN_CHARACTERS <=? total_chars)%nat in
  let empty_files :=
    map file_name
      (filter (fun p => (entries_of p =? 0)%nat) parsed_data) in
  let error_files := map file_name (filter has_error parsed_data) in
  let issues :=
    when (negb entries_ok && negb chars_ok)
      (lit "Insufficient data: Found " ++ str_of_nat total_entries
       ++ lit " entries and " ++ str_of_nat total_chars
       ++ lit " characters. Need at least " ++ str_of_nat MIN_ENTRIES
       ++ lit " entries OR " ++ str_of_nat MIN_CHARACTERS
       ++ lit " characters.")
    ++ when (negb (length empty_files =? 0)%nat)
         (lit "Empty or unreadable files: " ++ join (lit ", ") empty_files)
    ++ when (negb (length error_files =? 0)%nat)
         (lit "Files with parsing errors: " ++ join (lit ", ") error_files) in
  let structured_count := length (filter data_present parsed_data) in
  let structure_score :=
    match parsed_data with
    | [] => 0
    | _ => inject_Z (Z.of_nat structured_count)
           / inject_Z (Z.of_nat (length parsed_data))
    end in
  let warnings :=
    when (total_entries <? MIN_ENTRIES * 2)%nat
      (lit "Consider adding more entries for better knowledge coverage. Current: "
       ++ str_of_nat total_entries ++ lit ", Recommended: "
       ++ str_of_nat (MIN_ENTRIES * 2) ++ lit "+")
    ++ when (Qltb structure_score 0.5)
         (lit "Most files are unstructured (PDF/TXT). Structured data (CSV/JSON) provides better knowledge extraction.") in
  {| sufficient := (length issues =? 0)%nat;
     issues := issues;
     warnings := warnings;
     stats :=
       {| total_files := length parsed_data;
          total_entries := total_entries;
          total_characters := total_chars;
          structure_score := round structure_score 2;
          file_breakdown :=
            map (fun p =>
                   {| fb_name := file_name p;
                      fb_format := format p;
                      fb_entries := entries_of p;
                      fb_characters := chars_of p |}) parsed_data |} |}.

End DataValidator.

(* ===================================================================== *)
(** * utils/faithfulness.py *)
(* ===================================================================== *)

Module FaithfulnessScorer.
Import Py.
Local Open Scope Q_scope.

(** The dataclass [FaithfulnessResult]; its fields live in a module of
    their own, since the scorer's method is called [score] too. *)
Module Result.
Record FaithfulnessResult := {
  score : Q;
  total_claims : nat;
  supported_claims : nat;
  unsupported_claims : list str
}.
End Result.

(** ** Calls to the LLM

    A computation returns its value together with the calls it made to
    [client.analyze_with_system_prompt], oldest first. *)
Inductive LLMCall :=
| ExtractClaims (answer : str)
| VerifyClaim (claim context : str).

Definition M (A : Type) : Type := A * list LLMCall.

Definition ret (A : Type) (a : A) : M A := (a, []).

Definition bind (A B : Type) (m : M A) (k : A -> M B) : M B :=
  let '(a, calls) := m in
  let '(b, calls') := k a in
  (b, calls ++ calls').

Definition call (A : Type) (c : LLMCall) (reply : A) : M A := (reply, [c]).

Notation "x <- m ;; k" := (bind m (fun x => k))
  (at level 61, m at next level, right associativity).

(** What [json.loads(response)] yields in [_extract_claims]: a list, a
    dictionary read at its ["claims"] and ["statements"] keys, or another
    value. List items are strings. *)
Inductive ClaimsJson :=
| JList (items : list str)
| JDict (claims statements : option (list str))
| JOther.

Section Scorer.

(** The client. [extract_reply answer] is the parsed reply to the extraction
    prompt built from [answer], [None] when the call or the parsing raises;
    [verify_reply claim context] is the reply to the verification prompt,
    [None] when the call raises. *)
Variable extract_reply : str -> option ClaimsJson.
Variable verify_reply : str -> str -> option str.

Definition truthy (c : str) : bool :=
  match c with [] => false | _ => true end.

Definition _fallback_extract_claims (answer : str) : list str :=
  let sentences := re_split_sentences answer in
  firstn 10
    (map strip
       (filter (fun s => (20 <? length (strip s))%nat) sentences)).

Definition _extract_claims (answer : str) : M (list str) :=
  reply <- call (ExtractClaims (firstn 2000 answer))
             (extract_reply (firstn 2000 answer)) ;;
  ret match reply with
      | Some (JList claims) => filter truthy claims
      | Some (JDict claims statements) =>
          filter truthy
            match claims with
            | Some l => l
            | None => match statements with Some l => l | None => [] end
            end
      | Some JOther => []
      | None => _fallback_extract_claims answer
      end.

Definition _is_supported (claim context : str) : M bool :=
  reply <- call (VerifyClaim claim (firstn 4000 context))
             (verify_reply claim (firstn 4000 context)) ;;
  ret match reply with
      | Some response => contains (lit "YES") (upper response)
      | None => true
      end.

(** The loop over the claims: the number of supported claims and the
    unsupported ones, in order. *)
Fixpoint check_claims (claims : list str) (context : str)
  : M (nat * list str) :=
  match claims with
  | [] => ret (0%nat, [])
  | claim :: rest =>
      ok <- _is_supported claim context ;;
      r <- check_claims rest context ;;
      ret (if ok then (S (fst r), snd r) else (fst r, claim :: snd r))
  end.

Definition no_claims : Result.FaithfulnessResult :=
  {| Result.score := 1.0;
     Result.total_claims := 0;
     Result.supported_claims := 0;
     Result.unsupported_claims := [] |}.

Definition score (answer context : str) : M Result.FaithfulnessResult :=
  match answer, context with
  | [], _ | _, [] => ret no_claims
  | _, _ =>
      claims <- _extract_claims answer ;;
      match claims with
      | [] => ret no_claims
      | _ =>
          r <- check_claims claims context ;;
          let supported := fst r in
          let unsupported := snd r in
          let score :=
            inject_Z (Z.of_nat supported)
            / inject_Z (Z.of_nat (length claims)) in
          ret {| Result.score := round score 3;
                 Result.total_claims := length claims;
                 Result.supported_claims := supported;
                 Result.unsupported_claims := firstn 5 unsupported |}
      end
  end.

End Scorer.

End FaithfulnessScorer.

(* ===================================================================== *)
(** * modules/prompt_analyzer.py *)
(* ===================================================================== *)

Module PromptAnalyzer.
Import Py.

(** The analysis dictionary [analyze_prompt] returns. *)
Record Analysis := {
  domain : str;
  sub_domains : list str;
  personality : str;
  constraints : list str;
  suggested_name : str;
  domain_keywords : list str;
  tone : str;
  capabilities : list str
}.

(** The JSON object the LLM answers with: a key that is missing or [null] is
    [None]. *)
Record AnalysisJson := {
  j_domain : option str;
  j_sub_domains : option (list str);
  j_personality : option str;
  j_constraints : option (list str);
  j_suggested_name : option str;
  j_domain_keywords : option (list str);
  j_tone : option str;
  j_capabilities : option (list str)
}.

Definition or_default (A : Type) (field : option A) (default : A) : A :=
  match field with Some v => v | None => default end.

(** A dictionary with string keys, in insertion order. *)
Fixpoint dict_get (A : Type) (key : str) (d : list (str * A)) : option A :=
  match d with
  | [] => None
  | (k, v) :: rest => if str_eqb key k then Some v else dict_get key rest
  end.

Definition lits (l : list string) : list str := map lit l.

Definition domain_defaults : list (str * list str) :=
  [ (lit "medical",
     lits ["health"; "patient"; "doctor"; "treatment"; "diagnosis";
           "symptoms"; "medicine"; "hospital"; "disease"; "therapy";
           "prescription"; "clinic"; "medical"; "healthcare"; "wellness";
           "condition"; "care"; "physician"; "nurse"; "medication"]%string);
    (lit "legal",
     lits ["law"; "court"; "legal"; "attorney"; "lawyer"; "case";
           "contract"; "rights"; "litigation"; "judge"; "verdict";
           "lawsuit"; "compliance"; "regulation"; "statute"; "defendant";
           "plaintiff"; "trial"; "evidence"; "testimony"]%string);
    (lit "cooking",
     lits ["recipe"; "cook"; "ingredient"; "food"; "kitchen"; "meal";
           "dish"; "flavor"; "cuisine"; "bake"; "chef"; "cooking"; "taste";
           "serve"; "prepare"; "dinner"; "lunch"; "breakfast"; "snack";
           "dessert"]%string);
    (lit "technology",
     lits ["software"; "code"; "programming"; "computer"; "system"; "data";
           "network"; "security"; "cloud"; "application"; "development";
           "algorithm"; "database"; "API"; "server"; "hardware"; "digital";
           "technology"; "tech"; "IT"]%string);
    (lit "finance",
     lits ["money"; "investment"; "bank"; "finance"; "budget"; "tax";
           "stock"; "credit"; "loan"; "savings"; "financial"; "accounting";
           "capital"; "asset"; "portfolio"; "market"; "trading";
           "insurance"; "wealth"; "income"]%string) ].

(** The loop over the defaults of one domain. *)
Fixpoint add_defaults (keywords defaults : list str) : list str :=
  match defaults with
  | [] => keywords
  | kw :: rest =>
      add_defaults
        (if negb (mem kw keywords) && (length keywords <? 20)
         then keywords ++ [kw] else keywords)
        rest
  end.

Definition _expand_keywords (existing : list str) (domain : str)
  : list str :=
  let keywords := existing in
  let keywords :=
    match dict_get (lower domain) domain_defaults with
    | Some defaults => add_defaults keywords defaults
    | None => keywords
    end in
  let keywords :=
    if negb (mem (lower domain) (map lower keywords))
    then keywords ++ [domain] else keywords in
  firstn 20 keywords.

Definition _ensure_fields (result : AnalysisJson) : Analysis :=
  let domain := or_default (j_domain result) (lit "general") in
  let domain_keywords := or_default (j_domain_keywords result) [] in
  {| domain := domain;
     sub_domains := or_default (j_sub_domains result) [];
     personality :=
       or_default (j_personality result) (lit "helpful and professional");
     constraints := or_default (j_constraints result) [];
     suggested_name :=
       or_default (j_suggested_name result) (lit "MEXAR Agent");
     domain_keywords :=
       if length domain_keywords <? 10
       then _expand_keywords domain_keywords domain
       else domain_keywords;
     tone := or_default (j_tone result) (lit "professional");
     capabilities := or_default (j_capabilities result) [] |}.

Definition domain_indicators : list (str * list str) :=
  [ (lit "medical",
     lits ["medical"; "doctor"; "patient"; "health"; "hospital";
           "treatment"]%string);
    (lit "legal",
     lits ["legal"; "law"; "attorney"; "court"; "contract";
           "rights"]%string);
    (lit "cooking",
     lits ["cook"; "recipe"; "food"; "chef"; "kitchen";
           "ingredient"]%string);
    (lit "technology",
     lits ["tech"; "software"; "code"; "programming"; "computer"]%string);
    (lit "finance",
     lits ["finance"; "money"; "bank"; "investment"; "budget"]%string) ].

(** The first domain one of whose indicators is a word of the prompt. *)
Fixpoint detect_domain (words : list str) (table : list (str * list str))
  : str :=
  match table with
  | [] => lit "general"
  | (domain, indicators) :: rest =>
      if existsb (fun ind => mem ind words) indicators then domain
      else detect_domain words rest
  end.

Definition _create_fallback_analysis (system_prompt : str) : Analysis :=
  let words := split (lower system_prompt) in
  let detected_domain := detect_domain words domain_indicators in
  {| domain := detected_domain;
     sub_domains := [];
     personality := lit "helpful assistant";
     constraints := lits ["Stay within knowledge base"; "Be accurate"]%string;
     suggested_name :=
       lit "MEXAR " ++ title detected_domain ++ lit " Agent";
     domain_keywords := _expand_keywords [] detected_domain;
     tone := lit "professional";
     capabilities :=
       lits ["Answer questions"; "Provide information"]%string |}.

Section Analyze.

(** The client's answer to the analysis prompt built from the system
    prompt, parsed by [json.loads]; [None] when the call or the parsing
    raises. *)
Variable llm : str -> option AnalysisJson.

Definition analyze_prompt (system_prompt : str) : Analysis :=
  match llm system_prompt with
  | Some result => _ensure_fields result
  | None => _create_fallback_analysis system_prompt
  end.

End Analyze.

End PromptAnalyzer.

(* ===================================================================== *)
(** * utils/source_attribution.py *)
(* ===================================================================== *)

Module SourceAttributor.
Import Py.
Local Open Scope Q_scope.

(** The dataclass [AttributedSentence]. *)
Record AttributedSentence := {
  text : str;
  citation : str;
  source_chunk_id : Z;
  source_preview : str;
  source_file : str;
  similarity : Q
}.

(** One dictionary of the [sources] list; its keys live in a module of
    their own, since two of them are field names of [AttributedSentence]. *)
Module Source.
Record Source := {
  citation : str;
  chunk_id : Z;
  source : str;
  preview : str;
  similarity : Q
}.
End Source.

(** The dataclass [AttributedAnswer]. *)
Record AttributedAnswer := {
  answer_with_citations : str;
  sentences : list AttributedSentence;
  sources : list Source.Source
}.

(** [f"[{citation_num}]"]. *)
Definition cite (citation_num : nat) : str :=
  lit "[" ++ str_of_nat citation_num ++ lit "]".

(** The dictionary [sources_used], chunk id to citation number, in
    insertion order. *)
Definition SourcesUsed := list (Z * nat).

Fixpoint lookup (chunk_id : Z) (d : SourcesUsed) : option nat :=
  match d with
  | [] => None
  | (k, v) :: rest => if (chunk_id =? k)%Z then Some v else lookup chunk_id rest
  end.

(** [sorted(sources_used.items(), key=lambda x: x[1])]: ascending and
    stable. *)
Fixpoint insert_by_num (x : Z * nat) (l : SourcesUsed) : SourcesUsed :=
  match l with
  | [] => [x]
  | y :: l' =>
      if (snd y <? snd x)%nat then y :: insert_by_num x l' else x :: l
  end.

Definition sorted_by_num (d : SourcesUsed) : SourcesUsed :=
  fold_right insert_by_num [] d.

Definition _split_sentences (text : str) : list str :=
  filter (fun s => match s with [] => false | _ => true end)
    (map strip (re_split_sentences text)).

Definition _build_cited_answer
  (answer : str) (attributed : list AttributedSentence) : str :=
  fold_left
    (fun result attr =>
       if contains (text attr) result
       then replace_first (text attr)
              (text attr ++ lit " " ++ citation attr) result
       else result)
    (rev attributed) answer.

Section Attribute.

Variable Chunk : Type.

(** [_get_content], [_get_id] and [_get_source]. *)
Variable _get_content : Chunk -> str.
Variable _get_id : Chunk -> Z.
Variable _get_source : Chunk -> str.

(** The embedding model: [None] when the attributor has none; otherwise
    [embed], from a list of texts to their vectors, [None] on the inputs
    where it raises. [_cosine_similarity] compares two vectors. *)
Variable Emb : Type.
Variable embedding_model : option (list str -> option (list Emb)).
Variable _cosine_similarity : Emb -> Emb -> Q.

(** [_find_best_source] for a non-empty list of chunks, [first] being
    [chunks[0]]. *)
Definition _find_best_source
  (sentence : str) (first : Chunk) (chunks : list Chunk)
  (chunk_embeddings : option (list Emb)) : Chunk * Q :=
  match embedding_model, chunk_embeddings with
  | Some embed, Some ((_ :: _) as embeddings) =>
      match embed [sentence] with
      | Some (sentence_emb :: _) =>
          fold_left
            (fun best ce =>
               let sim := _cosine_similarity sentence_emb (snd ce) in
               if Qltb (snd best) sim then (fst ce, sim) else best)
            (combine chunks embeddings) (first, 0.0)
      | _ => (first, 0.5)
      end
  | _, _ => (first, 0.5)
  end.

(** One turn of the loop over the sentences: the state is [sources_used]
    and [attributed_sentences]. *)
Definition attribute_sentence
  (first : Chunk) (chunks : list Chunk) (chunk_embeddings : option (list Emb))
  (state : SourcesUsed * list AttributedSentence) (sentence : str)
  : SourcesUsed * list AttributedSentence :=
  let '(sources_used, attributed_sentences) := state in
  if (length (split sentence) <? 4)%nat then state
  else
    let '(best_chunk, similarity) :=
      _find_best_source sentence first chunks chunk_embeddings in
    let chunk_id := _get_id best_chunk in
    let sources_used :=
      match lookup chunk_id sources_used with
      | Some _ => sources_used
      | None => sources_used ++ [(chunk_id, S (length sources_used))]
      end in
    let citation_num :=
      match lookup chunk_id sources_used with
      | Some n => n
      | None => O
      end in
    (sources_used,
     attributed_sentences
       ++ [ {| text := sentence;
               citation := cite citation_num;
               source_chunk_id := chunk_id;
               source_preview := firstn 150 (_get_content best_chunk);
               source_file := _get_source best_chunk;
               similarity := similarity |} ]).

(** The display list: one entry per cited chunk, by citation number. *)
Definition build_sources
  (sources_used : SourcesUsed) (attributed : list AttributedSentence)
  : list Source.Source :=
  flat_map
    (fun item =>
       let '(chunk_id, num) := item in
       match List.find (fun a => (source_chunk_id a =? chunk_id)%Z)
               attributed with
       | Some attr =>
           [ {| Source.citation := cite num;
                Source.chunk_id := chunk_id;
                Source.source := source_file attr;
                Source.preview := source_preview attr;
                Source.similarity := round (similarity attr) 3 |} ]
       | None => []
       end)
    (sorted_by_num sources_used).

(** [attribute]; [None] when the call raises, which it does when the chunk
    embeddings are not supplied and computing them fails. *)
Definition attribute
  (answer : str) (chunks : list Chunk) (chunk_embeddings : option (list Emb))
  : option AttributedAnswer :=
  match answer, chunks with
  | [], _ | _, [] =>
      Some {| answer_with_citations := answer;
              sentences := [];
              sources := [] |}
  | _, first :: _ =>
      let sentences := _split_sentences answer in
      let computed :=
        match chunk_embeddings, embedding_model with
        | None, Some embed =>
            match embed (map _get_content chunks) with
            | Some embeddings => Some (Some embeddings)
            | None => None
            end
        | _, _ => Some chunk_embeddings
        end in
      match computed with
      | None => None
      | Some chunk_embeddings =>
          let '(sources_used, attributed_sentences) :=
            fold_left (attribute_sentence first chunks chunk_embeddings)
              sentences ([], []) in
          Some
            {| answer_with_citations :=
                 _build_cited_answer answer attributed_sentences;
               sentences := attributed_sentences;
               sources := build_sources sources_used attributed_sentences |}
      end
  end.

End Attribute.

End SourceAttributor.

(* ===================================================================== *)
(** * modules/knowledge_compiler.py and workers/compilation_worker.py *)
(* ===================================================================== *)

Module Compilation.
Import Py.
Local Open Scope nat_scope.

(** ** The database

    The three tables the compilation touches, with the columns it reads or
    writes. A timestamp is a number; an embedding is the list of its
    components. *)

Module Agent.
Record t := {
  id : nat;
  name : str;
  status : str;
  domain : option str;
  domain_keywords : list str;
  entity_count : option nat;
  chunk_count : option nat
}.
End Agent.

Module Job.
Record t := {
  id : nat;
  agent_id : nat;
  status : str;
  progress : nat;
  current_step : str;
  error_message : option str;
  completed_at : option nat
}.
End Job.

Module Chunk.
Record t := {
  agent_id : nat;
  content : str;
  embedding : list Q;
  source : str
}.
End Chunk.

Record DB := {
  agents : list Agent.t;
  jobs : list Job.t;
  document_chunks : list Chunk.t
}.

(** [db.query(Agent).filter(Agent.id == agent_id).first()] and its like. *)
Definition find_agent (db : DB) (agent_id : nat) : option Agent.t :=
  List.find (fun a => Agent.id a =? agent_id) (agents db).

Definition find_agent_by_name (db : DB) (agent_name : str)
  : option Agent.t :=
  List.find (fun a => str_eqb (Agent.name a) agent_name) (agents db).

Definition find_job (db : DB) (job_id : nat) : option Job.t :=
  List.find (fun j => Job.id j =? job_id) (jobs db).

(** [count(DocumentChunk where agent_id)]. *)
Definition count_chunks (db : DB) (agent_id : nat) : nat :=
  length (filter (fun c => Chunk.agent_id c =? agent_id) (document_chunks db)).

(** Assignments to the attributes of a loaded row; a commit writes the
    assigned attributes only. *)
Inductive AgentUpdate :=
| SetStatus (status : str)
| SetDomain (domain : str)
| SetDomainKeywords (keywords : list str)
| SetEntityCount (n : nat)
| SetChunkCount (n : nat).

Inductive JobUpdate :=
| SetJobStatus (status : str)
| SetProgress (progress : nat)
| SetCurrentStep (step : str)
| SetErrorMessage (message : str)
| SetCompletedAt (time : nat).

Definition assign_agent (a : Agent.t) (u : AgentUpdate) : Agent.t :=
  match u with
  | SetStatus s =>
      {| Agent.id := Agent.id a; Agent.name := Agent.name a;
         Agent.status := s; Agent.domain := Agent.domain a;
         Agent.domain_keywords := Agent.domain_keywords a;
         Agent.entity_count := Agent.entity_count a;
         Agent.chunk_count := Agent.chunk_count a |}
  | SetDomain d =>
      {| Agent.id := Agent.id a; Agent.name := Agent.name a;
         Agent.status := Agent.status a; Agent.domain := Some d;
         Agent.domain_keywords := Agent.domain_keywords a;
         Agent.entity_count := Agent.entity_count a;
         Agent.chunk_count := Agent.chunk_count a |}
  | SetDomainKeywords l =>
      {| Agent.id := Agent.id a; Agent.name := Agent.name a;
         Agent.status := Agent.status a; Agent.domain := Agent.domain a;
         Agent.domain_keywords := l;
         Agent.entity_count := Agent.entity_count a;
         Agent.chunk_count := Agent.chunk_count a |}
  | SetEntityCount n =>
      {| Agent.id := Agent.id a; Agent.name := Agent.name a;
         Agent.status := Agent.status a; Agent.domain := Agent.domain a;
         Agent.domain_keywords := Agent.domain_keywords a;
         Agent.entity_count := Some n;
         Agent.chunk_count := Agent.chunk_count a |}
  | SetChunkCount n =>
      {| Agent.id := Agent.id a; Agent.name := Agent.name a;
         Agent.status := Agent.status a; Agent.domain := Agent.domain a;
         Agent.domain_keywords := Agent.domain_keywords a;
         Agent.entity_count := Agent.entity_count a;
         Agent.chunk_count := Some n |}
  end.

Definition assign_job (j : Job.t) (u : JobUpdate) : Job.t :=
  match u with
  | SetJobStatus s =>
      {| Job.id := Job.id j; Job.agent_id := Job.agent_id j;
         Job.status := s; Job.progress := Job.progress j;
         Job.current_step := Job.current_step j;
         Job.error_message := Job.error_message j;
         Job.completed_at := Job.completed_at j |}
  | SetProgress p =>
      {| Job.id := Job.id j; Job.agent_id := Job.agent_id j;
         Job.status := Job.status j; Job.progress := p;
         Job.current_step := Job.current_step j;
         Job.error_message := Job.error_message j;
         Job.completed_at := Job.completed_at j |}
  | SetCurrentStep s =>
      {| Job.id := Job.id j; Job.agent_id := Job.agent_id j;
         Job.status := Job.status j; Job.progress := Job.progress j;
         Job.current_step := s;
         Job.error_message := Job.error_message j;
         Job.completed_at := Job.completed_at j |}
  | SetErrorMessage m =>
      {| Job.id := Job.id j; Job.agent_id := Job.agent_id j;
         Job.status := Job.status j; Job.progress := Job.progress j;
         Job.current_step := Job.current_step j;
         Job.error_message := Some m;
         Job.completed_at := Job.completed_at j |}
  | SetCompletedAt t =>
      {| Job.id := Job.id j; Job.agent_id := Job.agent_id j;
         Job.status := Job.status j; Job.progress := Job.progress j;
         Job.current_step := Job.current_step j;
         Job.error_message := Job.error_message j;
         Job.completed_at := Some t |}
  end.

(** Writing assignments to the rows with a given id. *)
Definition update_agent (db : DB) (agent_id : nat)
  (updates : list AgentUpdate) : DB :=
  {| agents :=
       map (fun a =>
              if Agent.id a =? agent_id then fold_left assign_agent updates a
              else a) (agents db);
     jobs := jobs db;
     document_chunks := document_chunks db |}.

Definition update_job (db : DB) (job_id : nat) (updates : list JobUpdate)
  : DB :=
  {| agents := agents db;
     jobs :=
       map (fun j =>
              if Job.id j =? job_id then fold_left assign_job updates j
              else j) (jobs db);
     document_chunks := document_chunks db |}.

(** ** What can go wrong

    The operations of a run that can raise, and the environment of a run:
    the clock, the message of the exception each operation raises (if it
    does), the LLM behind the prompt analyzer, and the embedding model of
    the compiler ([None] when it failed to load; otherwise the vector of a
    text, [None] where computing it raises). *)
Inductive Op :=
| OpQuery
| OpProgress (percent : nat)
| OpCreateAnalyzer
| OpCreateCompiler
| OpSaveAgent
| OpVectorQuery
| OpDeleteChunks
| OpInsertChunks
| OpFinalCommit
| OpErrorUpdate.

Record Env := {
  now : nat;
  raises : Op -> option str;
  llm : str -> option PromptAnalyzer.AnalysisJson;
  embedding_model : option (str -> option (list Q))
}.

(** ** [KnowledgeCompiler] *)

(** One item of [parsed_data], as the worker builds it: the keys
    ["source"], ["content"], ["type"] and ["records"]. *)
Record ParsedData := {
  source : str;
  content : str;
  type : str;
  records : list str
}.

Definition rule : str := repeat "="%char 60.

(** The lines [_build_text_context] emits for the ["records"] of a file. *)
Fixpoint record_lines (j : nat) (records : list str) : list str :=
  match records with
  | [] => []
  | record :: rest =>
      match strip record with
      | [] => record_lines (S j) rest
      | _ =>
          (lit "[Line " ++ str_of_nat (S j) ++ lit "] " ++ record)
            :: record_lines (S j) rest
      end
  end.

Definition context_parts (file_data : ParsedData) : list str :=
  [ lit "
" ++ rule;
    lit "SOURCE: " ++ source file_data ++ lit " ("
      ++ upper (type file_data) ++ lit ")";
    rule ++ lit "
" ]
  ++ match content file_data with
     | [] => record_lines 0 (records file_data)
     | text => [text]
     end.

Definition _build_text_context (parsed_data : list ParsedData) : str :=
  let text_context := join (lit "
") (flat_map context_parts parsed_data) in
  let max_chars := 500 * 1000 in
  if max_chars <? length text_context
  then firstn max_chars text_context
       ++ lit "

[CONTEXT TRUNCATED DUE TO SIZE LIMITS]"
  else text_context.

Definition _calculate_stats_total_entries (parsed_data : list ParsedData)
  : nat :=
  fold_left Nat.add (map (fun p => length (records p)) parsed_data) 0.

(** [_chunk_text(text, chunk_size=1000, overlap=100)]. The loop runs with a
    bound on its turns; [length text + 1] turns are enough, since every
    turn moves [start] forward. *)
Fixpoint chunk_loop (turns start : nat) (text : str) : list str :=
  match turns with
  | O => []
  | S turns' =>
      if start <? length text then
        let stop := Nat.min (start + 1000) (length text) in
        let chunk := firstn (stop - start) (skipn start text) in
        if stop =? length text then [chunk]
        else chunk :: chunk_loop turns' (start + (1000 - 100)) text
      else []
  end.

Definition _chunk_text (text : str) : list str :=
  match text with
  | [] => []
  | _ => chunk_loop (S (length text)) 0 text
  end.

(** [list(self.embedding_model.embed(chunks))]. *)
Fixpoint embed_all (embed : str -> option (list Q)) (texts : list str)
  : option (list (list Q)) :=
  match texts with
  | [] => Some []
  | t :: rest =>
      match embed t, embed_all embed rest with
      | Some e, Some es => Some (e :: es)
      | _, _ => None
      end
  end.

Section Run.

Variable env : Env.

(** [_save_to_vector_db]: it works in a session of its own and never
    raises. *)
Definition _save_to_vector_db
  (embed : str -> option (list Q)) (agent_name context : str) (db : DB)
  : DB :=
  match _chunk_text context with
  | [] => db
  | chunks =>
      match embed_all embed chunks with
      | None => db
      | Some embeddings =>
          match raises env OpVectorQuery with
          | Some _ => db
          | None =>
              match find_agent_by_name db agent_name with
              | None => db
              | Some agent =>
                  let kept :=
                    match raises env OpDeleteChunks with
                    | Some _ => document_chunks db
                    | None =>
                        filter
                          (fun c =>
                             negb (Chunk.agent_id c =? Agent.id agent))
                          (document_chunks db)
                    end in
                  match raises env OpInsertChunks with
                  | Some _ => db
                  | None =>
                      let new_chunks :=
                        map (fun ce =>
                               {| Chunk.agent_id := Agent.id agent;
                                  Chunk.content := fst ce;
                                  Chunk.embedding := snd ce;
                                  Chunk.source := lit "context" |})
                          (combine chunks embeddings) in
                      update_agent
                        {| agents := agents db;
                           jobs := jobs db;
                           document_chunks := kept ++ new_chunks |}
                        (Agent.id agent)
                        [SetChunkCount (length new_chunks)]
                  end
              end
          end
      end
  end.

(** [compile], read at the database and at [stats["total_entries"]];
    [None] when it raises. The domain signature and the files it writes
    are left out: the worker reads neither. *)
Definition compile (agent_name : str) (parsed_data : list ParsedData)
  (db : DB) : DB * option nat :=
  let text_context := _build_text_context parsed_data in
  let total_entries := _calculate_stats_total_entries parsed_data in
  match raises env OpSaveAgent with
  | Some _ => (db, None)
  | None =>
      let db :=
        match embedding_model env with
        | Some embed => _save_to_vector_db embed agent_name text_context db
        | None => db
        end in
      (db, Some total_entries)
  end.

(** ** The worker *)

(** One item of [files_data]: its ["content"] and ["filename"] keys. *)
Record FileInfo := {
  file_content : option str;
  filename : option str
}.

Definition parse_file_info (file_info : FileInfo) : ParsedData :=
  let content :=
    match file_content file_info with Some c => c | None => [] end in
  {| source :=
       match filename file_info with
       | Some f => f
       | None => lit "unknown"
       end;
     content := content;
     type := lit "text";
     records :=
       match content with
       | [] => []
       | _ => split_on "010"%char content
       end |}.

Variable agent_id : nat.
Variable job_id : nat.
Variable system_prompt : str.
Variable files_data : list FileInfo.

(** The worker's session: the committed database and the assignments made
    to the loaded [job] and [agent] since the last commit. *)
Record World := {
  db : DB;
  dirty_job : list JobUpdate;
  dirty_agent : list AgentUpdate
}.

(** A step of the worker: it changes the world and either raises, with the
    text of the exception, or returns. *)
Definition W (A : Type) : Type := World -> World * (str + A).

Definition ret (A : Type) (a : A) : W A := fun w => (w, inr a).

Definition bind (A B : Type) (m : W A) (k : A -> W B) : W B :=
  fun w =>
    match m w with
    | (w', inl e) => (w', inl e)
    | (w', inr a) => k a w'
    end.

Notation "x <- m ;; k" := (bind m (fun x => k))
  (at level 61, m at next level, right associativity).
Notation "m ;; k" := (bind m (fun _ => k))
  (at level 61, right associativity).

(** An operation that may raise and has no other effect. *)
Definition attempt (op : Op) : W unit :=
  fun w =>
    match raises env op with
    | Some e => (w, inl e)
    | None => (w, inr tt)
    end.

Definition set_job (updates : list JobUpdate) : W unit :=
  fun w =>
    ({| db := db w;
        dirty_job := dirty_job w ++ updates;
        dirty_agent := dirty_agent w |}, inr tt).

Definition set_agent (updates : list AgentUpdate) : W unit :=
  fun w =>
    ({| db := db w;
        dirty_job := dirty_job w;
        dirty_agent := dirty_agent w ++ updates |}, inr tt).

Definition flushed (w : World) : World :=
  {| db := update_agent (update_job (db w) job_id (dirty_job w))
             agent_id (dirty_agent w);
     dirty_job := [];
     dirty_agent := [] |}.

(** [db.commit()]. *)
Definition commit (op : Op) : W unit :=
  fun w =>
    match raises env op with
    | Some e => (w, inl e)
    | None => (flushed w, inr tt)
    end.

(** [db.rollback()]. *)
Definition rolled_back (w : World) : World :=
  {| db := db w; dirty_job := []; dirty_agent := [] |}.

Definition _update_progress (progress : nat) (step : string) : W unit :=
  set_job [SetProgress progress; SetCurrentStep (lit step)] ;;
  commit (OpProgress progress).

(** [compiler.compile] under the worker's [try]: an exception is logged
    and replaced by empty statistics. *)
Definition compile_and_continue
  (agent_name : str) (parsed_data : list ParsedData) : W (option nat) :=
  fun w =>
    let '(db', result) := compile agent_name parsed_data (db w) in
    ({| db := db';
        dirty_job := dirty_job w;
        dirty_agent := dirty_agent w |}, inr result).

(** The body of the [try] block. *)
Definition try_block : W unit :=
  fun w =>
    (attempt OpQuery ;;
     match find_job (db w) job_id, find_agent (db w) agent_id with
     | Some job, Some agent =>
         _update_progress 10 "Analyzing system prompt" ;;
         attempt OpCreateAnalyzer ;;
         let prompt_analysis :=
           PromptAnalyzer.analyze_prompt (llm env) system_prompt in
         _update_progress 20 "Initializing knowledge compiler" ;;
         attempt OpCreateCompiler ;;
         _update_progress 30 "Compiling knowledge base" ;;
         let parsed_data := map parse_file_info files_data in
         result <- compile_and_continue (Agent.name agent) parsed_data ;;
         _update_progress 80 "Saving to vector store" ;;
         _update_progress 90 "Updating agent metadata" ;;
         set_agent
           [ SetStatus (lit "ready");
             SetDomain (PromptAnalyzer.domain prompt_analysis);
             SetDomainKeywords
               (PromptAnalyzer.domain_keywords prompt_analysis);
             SetEntityCount
               match result with Some n => n | None => 0 end ] ;;
         set_job
           [ SetJobStatus (lit "completed");
             SetProgress 100;
             SetCurrentStep (lit "Compilation complete");
             SetCompletedAt (now env) ] ;;
         commit OpFinalCommit
     | _, _ => ret tt
     end) w.

(** The [except] block: the job and the agent are marked as failed and the
    session is committed; if that raises, the session is rolled back. *)
Definition on_error (e : str) (w : World) : World :=
  match raises env OpErrorUpdate with
  | Some _ => rolled_back w
  | None =>
      flushed
        {| db := db w;
           dirty_job :=
             dirty_job w
             ++ [ SetJobStatus (lit "failed");
                  SetErrorMessage (firstn 500 e);
                  SetCompletedAt (now env) ];
           dirty_agent := dirty_agent w ++ [SetStatus (lit "failed")] |}
  end.

(** [_run_compilation_thread]: the database it leaves behind. *)
Definition _run_compilation_thread (db0 : DB) : DB :=
  let start := {| db := db0; dirty_job := []; dirty_agent := [] |} in
  match try_block start with
  | (w, inr _) => db w
  | (w, inl e) => db (on_error e w)
  end.

End Run.

End Compilation.

(* ===================================================================== *)
(** * utils/faithfulness.py: the estimate without LLM calls *)
(* ===================================================================== *)

Module QuickFaithfulness.
Import Py.
Local Open Scope Q_scope.

(** [FaithfulnessScorer.quick_score]. The set [answer_words] is the list of
    its elements without repetition: only its size and the number of its
    elements found in the context are used. *)
Definition quick_score (answer context : str) : Q :=
  match answer, context with
  | [], _ | _, [] => 0.5
  | _, _ =>
      let answer_words :=
        nodup str_eq_dec
          (map lower
             (filter (fun w => (4 <? length w)%nat) (split answer))) in
      let context_lower := lower context in
      match answer_words with
      | [] => 0.5
      | _ =>
          let found :=
            length
              (filter (fun w => contains w context_lower) answer_words) in
          let overlap :=
            inject_Z (Z.of_nat found)
            / inject_Z (Z.of_nat (length answer_words)) in
          min 1.0 (overlap * 1.5)
      end
  end.

End QuickFaithfulness.

(* ===================================================================== *)
(** * modules/data_validator.py: parsing a text file *)
(* ===================================================================== *)

Module TextParser.
Import Py DataValidator.

(** [_parse_txt], from the text that [f.read()] returned. *)
Definition _parse_txt (text : str) (result : ParsedSource) : ParsedSource :=
  let lines :=
    map strip
      (filter (fun line => match strip line with [] => false | _ => true end)
         (split_on "010"%char text)) in
  {| file_name := file_name result;
     format := format result;
     entries_count := Some (length lines);
     text := Some text;
     data_present := data_present result;
     error := error result |}.

(** [parse_file] on a path with the suffix [.txt], whose last component is
    [name]: [read] is the text of the file, or the message of the exception
    that opening or reading it raised. *)
Definition parse_file_txt (name : str) (read : str + str) : ParsedSource :=
  let result :=
    {| file_name := name;
       format := lit "txt";
       entries_count := Some 0%nat;
       text := Some [];
       data_present := false;
       error := None |} in
  match read with
  | inr text => _parse_txt text result
  | inl e =>
      {| file_name := file_name result;
         format := format result;
         entries_count := entries_count result;
         text := text result;
         data_present := data_present result;
         error := Some e |}
  end.

End TextParser.

(* ===================================================================== *)
(** * utils/hybrid_search.py *)
(* ===================================================================== *)

Module HybridSearcher.
Import Py.
Local Open Scope Q_scope.

Section Search.

Variable Chunk : Type.
Variable Emb : Type.

(** [chunk.id]. *)
Variable chunk_id : Chunk -> Z.

(** The services [search] calls, each [None] where the call raises:
    - [embed query]: [list(self.embedding_model.embed([query]))[0].tolist()];
    - [hybrid_rows embedding query agent_id top_k]: the rows of the SQL
      function [hybrid_search], as pairs of [row.id] and [row.rrf_score];
    - [chunks_with_ids ids]: the chunks whose id is among [ids];
    - [nearest embedding agent_id top_k]: the chunks of the agent by cosine
      distance to the embedding, at most [top_k] of them.
    The fallback search has services of its own, [embed_again] and
    [nearest_again]: a call that raised may go through when it is made
    again. Opening and closing a session are taken not to raise. *)
Variable embed : str -> option Emb.
Variable hybrid_rows : Emb -> str -> nat -> Z -> option (list (Z * Q)).
Variable chunks_with_ids : list Z -> option (list Chunk).
Variable nearest : Emb -> nat -> Z -> option (list Chunk).
Variable embed_again : str -> option Emb.
Variable nearest_again : Emb -> nat -> Z -> option (list Chunk).

(** The loop of [_semantic_only_search] over [enumerate(chunks)], from the
    index [i] on. *)
Fixpoint rank_scores (i : nat) (chunks : list Chunk) : list (Chunk * Q) :=
  match chunks with
  | [] => []
  | chunk :: rest =>
      (chunk, 1.0 / (1 + inject_Z (Z.of_nat i) * 0.1))
        :: rank_scores (S i) rest
  end.

Definition _semantic_only_search
  (nearest : Emb -> nat -> Z -> option (list Chunk))
  (query_embedding : Emb) (agent_id : nat) (top_k : Z)
  : list (Chunk * Q) :=
  match nearest query_embedding agent_id top_k with
  | Some chunks => rank_scores 0 chunks
  | None => []
  end.

Definition _fallback_semantic_search
  (query : str) (agent_id : nat) (top_k : Z) : list (Chunk * Q) :=
  match embed_again query with
  | Some query_embedding =>
      _semantic_only_search nearest_again query_embedding agent_id top_k
  | None => []
  end.

(** [chunk_map.get(id)] for [chunk_map = {c.id: c for c in chunks}]: the
    last chunk with the id. *)
Definition chunk_map_get (chunks : list Chunk) (id : Z) : option Chunk :=
  List.find (fun c => (chunk_id c =? id)%Z) (rev chunks).

Definition search (query : str) (agent_id : nat) (top_k : Z)
  : list (Chunk * Q) :=
  match strip query with
  | [] => []
  | _ =>
      match embed query with
      | None => _fallback_semantic_search query agent_id top_k
      | Some query_embedding =>
          match hybrid_rows query_embedding query agent_id top_k with
          | None => _fallback_semantic_search query agent_id top_k
          | Some [] =>
              _semantic_only_search nearest query_embedding agent_id top_k
          | Some rows =>
              match chunks_with_ids (map fst rows) with
              | None => _fallback_semantic_search query agent_id top_k
              | Some chunks =>
                  flat_map
                    (fun row =>
                       match chunk_map_get chunks (fst row) with
                       | Some chunk => [(chunk, snd row)]
                       | None => []
                       end)
                    rows
              end
          end
      end
  end.

End Search.

End HybridSearcher.
(* ===================================================================== *)
(** * Facts about the built-ins *)
(* ===================================================================== *)

Module PyFacts.
Import Py.
Local Open Scope Q_scope.

Lemma Qltb_true (a b : Q) : Qltb a b = true <-> a < b.
Proof.
  unfold Qltb. rewrite negb_true_iff. split; intro H.
  - apply Qnot_le_lt. intro Hle. apply Qle_bool_iff in Hle. congruence.
  - destruct (Qle_bool b a) eqn:E; trivial.
    apply Qle_bool_iff in E. exfalso. exact (Qlt_not_le _ _ H E).
Qed.

Lemma Qltb_false (a b : Q) : Qltb a b = false <-> b <= a.
Proof.
  unfold Qltb. rewrite negb_false_iff. apply Qle_bool_iff.
Qed.

Lemma Qleb_true (a b : Q) : Qleb a b = true <-> a <= b.
Proof. apply Qle_bool_iff. Qed.

(** [min] and [max] are the meet and the join of the order. *)
Lemma min_spec (a b : Q) :
  (b < a /\ min a b = b) \/ (a <= b /\ min a b = a).
Proof.
  unfold min. destruct (Qltb b a) eqn:E.
  - left. split; trivial. now apply Qltb_true.
  - right. split; trivial. now apply Qltb_false.
Qed.

Lemma max_spec (a b : Q) :
  (a < b /\ max a b = b) \/ (b <= a /\ max a b = a).
Proof.
  unfold max. destruct (Qltb a b) eqn:E.
  - left. split; trivial. now apply Qltb_true.
  - right. split; trivial. now apply Qltb_false.
Qed.

Ltac case_minmax :=
  repeat match goal with
  | |- context [min ?a ?b] =>
      let H := fresh "Hm" in let E := fresh "Em" in
      destruct (min_spec a b) as [[H E]|[H E]]; rewrite E in *
  | |- context [max ?a ?b] =>
      let H := fresh "Hm" in let E := fresh "Em" in
      destruct (max_spec a b) as [[H E]|[H E]]; rewrite E in *
  end.

#[global] Instance min_compat : Proper (Qeq ==> Qeq ==> Qeq) min.
Proof.
  intros a a' Ha b b' Hb.
  destruct (min_spec a b) as [[H E]|[H E]];
    destruct (min_spec a' b') as [[H' E']|[H' E']];
    rewrite E, E'; lra.
Qed.

#[global] Instance max_compat : Proper (Qeq ==> Qeq ==> Qeq) max.
Proof.
  intros a a' Ha b b' Hb.
  destruct (max_spec a b) as [[H E]|[H E]];
    destruct (max_spec a' b') as [[H' E']|[H' E']];
    rewrite E, E'; lra.
Qed.

#[global] Instance Qltb_compat : Proper (Qeq ==> Qeq ==> eq) Qltb.
Proof.
  intros a a' Ha b b' Hb.
  destruct (Qltb a b) eqn:E; symmetry.
  - apply Qltb_true. apply Qltb_true in E. now rewrite <- Ha, <- Hb.
  - apply Qltb_false. apply Qltb_false in E. now rewrite <- Ha, <- Hb.
Qed.

(** Rounding depends on the value only, and is monotone against integers. *)
Lemma round_half_even_compat (x y : Q) :
  x == y -> round_half_even x = round_half_even y.
Proof.
  intro H. unfold round_half_even. now rewrite (Qred_complete _ _ H).
Qed.

Lemma round_half_even_ge (x : Q) (k : Z) :
  inject_Z k <= x -> (k <= round_half_even x)%Z.
Proof.
  intro H. rewrite <- (Qred_correct x) in H.
  unfold round_half_even.
  destruct (Qred x) as [n d]. cbn [Qnum Qden].
  unfold Qle in H. cbn in H.
  assert (Hq : (k <= n / Zpos d)%Z)
    by (apply Z.div_le_lower_bound; lia).
  destruct (2 * (n mod Zpos d) ?= Zpos d)%Z; try lia.
  destruct (Z.even (n / Zpos d)); lia.
Qed.

Lemma round_half_even_le (x : Q) (k : Z) :
  x <= inject_Z k -> (round_half_even x <= k)%Z.
Proof.
  intro H. rewrite <- (Qred_correct x) in H.
  unfold round_half_even.
  destruct (Qred x) as [n d]. cbn [Qnum Qden].
  unfold Qle in H. cbn in H.
  pose proof (Z.div_mod n (Zpos d) ltac:(lia)) as Hdm.
  pose proof (Z.mod_pos_bound n (Zpos d) ltac:(lia)) as Hr.
  assert (Hq : (n / Zpos d <= k)%Z)
    by (apply Z.div_le_upper_bound; lia).
  destruct (2 * (n mod Zpos d) ?= Zpos d)%Z eqn:E.
  - apply Z.compare_eq_iff in E.
    destruct (Z.even (n / Zpos d)); nia.
  - lia.
  - apply Z.compare_gt_iff in E. nia.
Qed.

(** [round(x, 2)] is a number of hundredths, and stays between two bounds
    that are themselves numbers of hundredths. *)
Lemma round2_hundredths (x : Q) :
  round x 2 = Qmake (round_half_even (x * 100)) 100.
Proof. reflexivity. Qed.

Lemma round2_bounds (x : Q) (lo hi : Z) :
  Qmake lo 100 <= x <= Qmake hi 100 ->
  (lo <= round_half_even (x * 100) <= hi)%Z.
Proof.
  intros [Hlo Hhi]. split.
  - apply round_half_even_ge. unfold Qle in *. cbn in *. lia.
  - apply round_half_even_le. unfold Qle in *. cbn in *. lia.
Qed.

(** The nearest integer is at most one half away. *)
Lemma round_half_even_near (x : Q) :
  x - (1 # 2) <= inject_Z (round_half_even x) <= x + (1 # 2).
Proof.
  unfold round_half_even.
  pose proof (Qred_correct x) as Ey. revert Ey.
  generalize (Qred x). intros [n d] Ey. cbn [Qnum Qden].
  rewrite <- Ey. clear Ey.
  pose proof (Z.div_mod n (Zpos d) ltac:(lia)) as Hdm.
  pose proof (Z.mod_pos_bound n (Zpos d) ltac:(lia)) as Hr.
  set (q := (n / Zpos d)%Z) in *. set (r := (n mod Zpos d)%Z) in *.
  clearbody q r. subst n.
  assert (L : forall k : Z,
             (2 * Zpos d * q + 2 * r - Zpos d <= 2 * Zpos d * k)%Z ->
             (Z.pos d * q + r # d) - (1 # 2) <= inject_Z k).
  { intros k Hk. unfold Qle, Qminus, Qplus, Qopp, inject_Z.
    cbn [Qnum Qden]. rewrite ?Pos2Z.inj_mul. nia. }
  assert (U : forall k : Z,
             (2 * Zpos d * k <= 2 * Zpos d * q + 2 * r + Zpos d)%Z ->
             inject_Z k <= (Z.pos d * q + r # d) + (1 # 2)).
  { intros k Hk. unfold Qle, Qminus, Qplus, Qopp, inject_Z.
    cbn [Qnum Qden]. rewrite ?Pos2Z.inj_mul. nia. }
  destruct (Z.compare_spec (2 * r) (Zpos d)) as [C|C|C];
    try destruct (Z.even q);
    (split; [apply L|apply U]); nia.
Qed.

(** [r] is [x] rounded to [ndigits] decimals, in the form that holds of
    floating-point numbers as well: [r] is a whole number of units of
    [10^-ndigits] and lies within half a unit of [x]. At a decimal tie such
    as 0.125 both neighbours are half a unit away, and which of them
    Python's [round] returns depends on the binary float that stands for
    the decimal; [float_margin] covers the error of the floating-point
    operations that computed [x]. *)
Definition float_margin : Q := 1 # 1000000000.

Definition decimal_unit (ndigits : nat) : positive :=
  Pos.pow 10 (Pos.of_nat ndigits).

Definition is_rounding (r x : Q) (ndigits : nat) : Prop :=
  (exists k : Z, r = Qmake k (decimal_unit ndigits))
  /\ x - (1 # (2 * decimal_unit ndigits)) - float_margin <= r
     <= x + (1 # (2 * decimal_unit ndigits)) + float_margin.

Lemma round_is_rounding (x : Q) (ndigits : nat) :
  ndigits <> O -> is_rounding (round x ndigits) x ndigits.
Proof.
  intro Hn. unfold is_rounding, round. fold (decimal_unit ndigits).
  destruct ndigits as [|m]; [congruence|].
  set (p := decimal_unit (S m)).
  split; [now eexists|].
  pose proof (round_half_even_near (x * inject_Z (Zpos p))) as H.
  set (k := round_half_even (x * inject_Z (Zpos p))) in *.
  destruct H as [H1 H2].
  assert (Hp : 0 < inject_Z (Zpos p)) by (unfold Qlt; cbn; lia).
  assert (Ek : k # p == inject_Z k / inject_Z (Zpos p))
    by (rewrite Qmake_Qdiv; reflexivity).
  assert (Eh : 1 # (2 * p) == (1 # 2) / inject_Z (Zpos p)).
  { unfold Qeq, Qdiv, Qinv, Qmult, inject_Z. cbn. lia. }
  assert (Hm : 0 <= float_margin) by (unfold Qle; cbn; lia).
  rewrite Ek, Eh.
  assert (L : x - (1 # 2) / inject_Z (Zpos p)
              <= inject_Z k / inject_Z (Zpos p)).
  { apply Qle_shift_div_l; trivial.
    assert (E : (x - (1 # 2) / inject_Z (Zpos p)) * inject_Z (Zpos p)
                == x * inject_Z (Zpos p) - (1 # 2)) by (field; lra).
    now rewrite E. }
  assert (U : inject_Z k / inject_Z (Zpos p)
              <= x + (1 # 2) / inject_Z (Zpos p)).
  { apply Qle_shift_div_r; trivial.
    assert (E : (x + (1 # 2) / inject_Z (Zpos p)) * inject_Z (Zpos p)
                == x * inject_Z (Zpos p) + (1 # 2)) by (field; lra).
    now rewrite E. }
  split; lra.
Qed.

(** Strings. *)
Lemma startswith_refl (s : str) : startswith s s = true.
Proof.
  induction s as [|c s IH]; cbn; trivial.
  now rewrite Ascii.eqb_refl.
Qed.

Lemma contains_refl (s : str) : contains s s = true.
Proof.
  unfold contains. destruct s; cbn.
  - reflexivity.
  - now rewrite Ascii.eqb_refl, startswith_refl.
Qed.

Lemma startswith_app (p rest : str) : startswith p (p ++ rest) = true.
Proof.
  induction p as [|c p IH]; cbn; trivial.
  now rewrite Ascii.eqb_refl.
Qed.

Lemma startswith_split (p s : str) :
  startswith p s = true -> s = p ++ skipn (length p) s.
Proof.
  revert s. induction p as [|c p IH]; intros [|d s]; cbn; try easy.
  intro H. apply andb_true_iff in H. destruct H as [E H].
  apply Ascii.eqb_eq in E. subst d. f_equal. now apply IH.
Qed.

Lemma find_unfold (sub s : str) :
  find sub s
  = if startswith sub s then Some 0%nat
    else match s with
         | [] => None
         | _ :: s' => option_map S (find sub s')
         end.
Proof. now destruct s. Qed.

(** [sub in s] holds when [s] has [sub] somewhere inside. *)
Lemma contains_inside (pre sub post : str) :
  contains sub (pre ++ sub ++ post) = true.
Proof.
  unfold contains. induction pre as [|c pre IH].
  - cbn [app]. now rewrite find_unfold, startswith_app.
  - cbn [app]. rewrite find_unfold.
    destruct (startswith sub (c :: pre ++ sub ++ post)); trivial.
    destruct (find sub (pre ++ sub ++ post)); [reflexivity|discriminate].
Qed.

(** [replace(old, new, 1)] on a string that has [old] inside: the piece at
    the index [find] returns is exchanged, the rest is kept. *)
Lemma replace_first_at (old new s : str) (i : nat) :
  find old s = Some i ->
  replace_first old new s
  = firstn i s ++ new ++ skipn (i + length old) s.
Proof.
  revert i. induction s as [|c s IH]; intro i; cbn [find replace_first].
  - destruct (startswith old []); [|discriminate].
    intro E. now injection E as <-.
  - destruct (startswith old (c :: s)).
    + intro E. now injection E as <-.
    + destruct (find old s) as [j|]; [|discriminate].
      cbn [option_map]. intro E. injection E as <-.
      cbn [firstn app Nat.add skipn]. f_equal. now apply IH.
Qed.

Lemma find_bound (old s : str) (i : nat) :
  find old s = Some i -> (i + length old <= length s)%nat.
Proof.
  revert i. induction s as [|c s IH]; intro i; cbn [find].
  - destruct (startswith old []) eqn:E; [|discriminate].
    intro H. injection H as <-.
    apply startswith_split in E. destruct old; [cbn; lia|discriminate].
  - destruct (startswith old (c :: s)) eqn:E.
    + intro H. injection H as <-. apply startswith_split in E.
      apply (f_equal (@length ascii)) in E. rewrite length_app in E. lia.
    + destruct (find old s) as [j|]; [|discriminate].
      cbn [option_map]. intro H. injection H as <-.
      specialize (IH j eq_refl). cbn [length]. lia.
Qed.

Lemma replace_first_length (old new s : str) :
  contains old s = true ->
  (length (replace_first old new s) + length old
   = length s + length new)%nat.
Proof.
  unfold contains. destruct (find old s) as [i|] eqn:E; [|discriminate].
  intros _. rewrite (replace_first_at old new s E).
  pose proof (find_bound old s E) as Hb.
  rewrite !length_app, length_firstn, length_skipn. lia.
Qed.

(** Stripping keeps a piece of the string. *)
Lemma lstrip_suffix (s : str) : exists pre, s = pre ++ lstrip s.
Proof.
  induction s as [|c s [pre IH]]; cbn.
  - now exists [].
  - destruct (isspace c).
    + exists (c :: pre). cbn. now f_equal.
    + now exists [].
Qed.

Lemma strip_inside (s : str) : exists pre post, s = pre ++ strip s ++ post.
Proof.
  destruct (lstrip_suffix s) as [pre Hpre].
  destruct (lstrip_suffix (rev (lstrip s))) as [post Hpost].
  exists pre, (rev post). unfold strip, rstrip.
  rewrite Hpre at 1. f_equal.
  rewrite <- rev_app_distr, <- Hpost. now rewrite rev_involutive.
Qed.

(** Every piece [re.split] returns is a piece of the text. *)
Lemma re_split_aux_inside (s : str) :
  forall st cur p,
    In p (re_split_aux st cur s) ->
    exists pre post, rev cur ++ s = pre ++ p ++ post.
Proof.
  induction s as [|c s IH]; intros st cur p; cbn [re_split_aux].
  - intros [<-|[]]. exists [], []. now rewrite !app_nil_r.
  - destruct st as [m|].
    + destruct (m && isspace c).
      * intros [<-|H].
        -- now exists [], (c :: s).
        -- destruct (IH _ _ _ H) as (pre & post & E). cbn in E.
           exists (rev cur ++ c :: pre), post.
           rewrite E, <- app_assoc. reflexivity.
      * intro H. destruct (IH _ _ _ H) as (pre & post & E).
        exists pre, post. rewrite <- E. cbn [rev].
        now rewrite <- app_assoc.
    + destruct (isspace c); intro H;
        destruct (IH _ _ _ H) as (pre & post & E); cbn in E.
      * exists (rev cur ++ c :: pre), post.
        rewrite E, <- app_assoc. reflexivity.
      * exists (rev cur ++ pre), post.
        rewrite <- app_assoc, <- E. reflexivity.
Qed.

Lemma re_split_sentences_inside (text p : str) :
  In p (re_split_sentences text) -> exists pre post, text = pre ++ p ++ post.
Proof.
  intro H. apply re_split_aux_inside in H. exact H.
Qed.

End PyFacts.


(* ===================================================================== *)
(** * The model on concrete inputs *)
(* ===================================================================== *)

Module Examples.
Import Py.
Local Open Scope Q_scope.

Example split_words :
  split (lit "  Romaine is   the base. ")
  = [lit "Romaine"; lit "is"; lit "the"; lit "base."].
Proof. reflexivity. Qed.

Example strip_both_ends : strip (lit "  a  b ") = lit "a  b".
Proof. reflexivity. Qed.

Example split_two_sentences :
  re_split_sentences (lit "It works!  Really? Yes.")
  = [lit "It works!"; lit "Really?"; lit "Yes."].
Proof. reflexivity. Qed.

Example split_keeps_inner_dots :
  re_split_sentences (lit "Version 1.5 is out. ")
  = [lit "Version 1.5 is out."; []].
Proof. reflexivity. Qed.

Example replace_first_only :
  replace_first (lit "ab") (lit "ab [1]") (lit "c ab ab") = lit "c ab [1] ab".
Proof. reflexivity. Qed.

Example slice_negative : slice_to [1; 2; 3; 4]%nat (-1) = [1; 2; 3]%nat.
Proof. reflexivity. Qed.

Example round_half_to_even :
  round 0.125 2 = 0.12 /\ round 0.135 2 = 0.14 /\ round 2.5 0 = 2.
Proof. repeat split. Qed.

Example title_word : title (lit "medical") = lit "Medical".
Proof. reflexivity. Qed.

(** The sharp s (223): [SS] in upper case, unchanged inside a word. *)
Example upper_sharp_s :
  upper (lit "yes" ++ [ascii_of_N 223]) = lit "YESSS".
Proof. reflexivity. Qed.

Example title_sharp_s :
  title (lit "stra" ++ [ascii_of_N 223] ++ lit "e von a" ++ [ascii_of_N 215]
         ++ lit "b")
  = lit "Stra" ++ [ascii_of_N 223] ++ lit "e Von A" ++ [ascii_of_N 215]
    ++ lit "B".
Proof. reflexivity. Qed.

Import ReasoningEngine.

Example confidence_high : _calculate_confidence 0.03 5 0.9 = 0.86.
Proof. reflexivity. Qed.

Example confidence_capped : _calculate_confidence 0.001 10 1 = 0.45.
Proof. reflexivity. Qed.

Example confidence_floored : _calculate_confidence 0.03 (-10) 0.85 = 0.75.
Proof. reflexivity. Qed.

(** A cooking agent and a networking question: no term of the agent occurs
    in the query. *)
Example guardrail_rejects :
  let r :=
    _check_guardrail (fun _ _ => 0)
      (lit "How do I configure a BGP router?")
      [lit "cooking"; lit "recipe"; lit "ingredient"; lit "cook"]
      {| domain := Some (lit "cooking");
         sub_domains := Some [];
         domain_keywords :=
           Some [lit "recipe"; lit "ingredient"; lit "cook"] |} in
  fst r = false /\ snd r == 0.
Proof. vm_compute. split; reflexivity. Qed.

Import Compilation.

Example chunk_text_overlap :
  map (@length ascii) (_chunk_text (repeat "a"%char 2000))
  = [1000; 1000; 200]%nat.
Proof. vm_compute. reflexivity. Qed.

Example text_context_of_one_file :
  _build_text_context
    [parse_file_info {| file_content := Some (lit "salt");
                        filename := Some (lit "a.txt") |}]
  = lit "
============================================================
SOURCE: a.txt (TEXT)
============================================================

salt".
Proof. vm_compute. reflexivity. Qed.

End Examples.

(* ===================================================================== *)
(** * Properties of the reasoning engine *)
(* ===================================================================== *)

Module ConfidenceSpec.
Import Py PyFacts ReasoningEngine.
Local Open Scope Q_scope.

(** The confidence computation in the words of the design document:
    [clamp] keeps a value between two bounds, [raw] is the weighted sum, the
    two post-adjustments floor and cap it, and the result is clamped to
    [0.15, 0.95]; [spec_unrounded] is this value, which the engine then
    rounds to two decimals. *)
Definition clamp (x lo hi : Q) : Q := Qmax lo (Qmin x hi).

Definition spec_unrounded (top_rrf top_rerank faithfulness : Q) : Q :=
  let norm_sim := clamp (top_rrf * 30) 0 1 in
  let norm_rerank := clamp ((top_rerank + 10) / 20) 0 1 in
  let raw :=
    0.35 * norm_sim + 0.30 * norm_rerank + 0.25 * faithfulness + 0.10 in
  let adjusted :=
    if Qltb 0.7 norm_sim && Qltb 0.8 faithfulness then Qmax raw 0.75
    else if Qltb norm_sim 0.3 then Qmin raw 0.45
    else raw in
  clamp adjusted 0.15 0.95.

Lemma min_Qmin (a b : Q) : min a b == Qmin a b.
Proof.
  destruct (min_spec a b) as [[H E]|[H E]]; rewrite E.
  - symmetry. apply Q.min_r. lra.
  - symmetry. apply Q.min_l. lra.
Qed.

Lemma max_Qmax (a b : Q) : max a b == Qmax a b.
Proof.
  destruct (max_spec a b) as [[H E]|[H E]]; rewrite E.
  - symmetry. apply Q.max_r. lra.
  - symmetry. apply Q.max_l. lra.
Qed.

Lemma clamp_bounds (x lo hi : Q) : lo <= hi -> lo <= clamp x lo hi <= hi.
Proof.
  intro H. unfold clamp. split.
  - apply Q.le_max_l.
  - apply Q.max_lub; trivial. apply Q.le_min_r.
Qed.

Lemma norm_similarity_clamp (t : Q) :
  0 <= t -> norm_similarity t == clamp (t * 30) 0 1.
Proof.
  intro H. unfold norm_similarity, clamp.
  rewrite min_Qmin, (Q.min_comm 1.0).
  assert (E : Qmin (t * 30) 1.0 == Qmin (t * 30) 1)
    by (apply Q.min_compat; reflexivity).
  rewrite E. symmetry. apply Q.max_r.
  apply Q.min_glb; lra.
Qed.

Lemma norm_rerank_clamp (r : Q) :
  norm_rerank r == clamp ((r + 10) / 20) 0 1.
Proof.
  unfold norm_rerank, clamp.
  rewrite min_Qmin, max_Qmax.
  generalize ((r + 10) / 20). intro a.
  assert (E : Qmin 1.0 (Qmax 0 a) == Qmin 1 (Qmax 0 a))
    by (apply Q.min_compat; reflexivity).
  rewrite E. clear E.
  destruct (Q.max_spec 0 a) as [[H1 E1]|[H1 E1]];
    destruct (Q.min_spec a 1) as [[H2 E2]|[H2 E2]];
    rewrite ?E1, ?E2;
    repeat match goal with
    | |- context [Qmin ?x ?y] =>
        destruct (Q.min_spec x y) as [[? ->]|[? ->]]
    | |- context [Qmax ?x ?y] =>
        destruct (Q.max_spec x y) as [[? ->]|[? ->]]
    end; lra.
Qed.

Lemma final_clamp (x y : Q) :
  x == y -> min 0.95 (max 0.15 x) == clamp y 0.15 0.95.
Proof.
  intro H. unfold clamp. rewrite min_Qmin, max_Qmax.
  destruct (Q.max_spec 0.15 x) as [[? ->]|[? ->]];
    destruct (Q.min_spec y 0.95) as [[? ->]|[? ->]];
    repeat match goal with
    | |- context [Qmin ?a ?b] =>
        destruct (Q.min_spec a b) as [[? ->]|[? ->]]
    | |- context [Qmax ?a ?b] =>
        destruct (Q.max_spec a b) as [[? ->]|[? ->]]
    end; lra.
Qed.

(** The value before rounding, on both sides. *)
Lemma unrounded_eq (ns ns' nr nr' f : Q) :
  ns == ns' -> nr == nr' ->
  min 0.95 (max 0.15
    (let confidence := ns * 0.35 + nr * 0.30 + f * 0.25 + 0.10 in
     if Qltb 0.7 ns && Qltb 0.8 f then max confidence 0.75
     else if Qltb ns 0.3 then min confidence 0.45 else confidence))
  == clamp
       (let raw := 0.35 * ns' + 0.30 * nr' + 0.25 * f + 0.10 in
        if Qltb 0.7 ns' && Qltb 0.8 f then Qmax raw 0.75
        else if Qltb ns' 0.3 then Qmin raw 0.45 else raw)
       0.15 0.95.
Proof.
  intros Hs Hr. cbv zeta.
  rewrite <- (Qltb_compat (reflexivity 0.7) Hs).
  rewrite <- (Qltb_compat Hs (reflexivity 0.3)).
  assert (E : ns * 0.35 + nr * 0.30 + f * 0.25 + 0.10
              == 0.35 * ns' + 0.30 * nr' + 0.25 * f + 0.10)
    by (rewrite Hs, Hr; ring).
  apply final_clamp.
  destruct (Qltb 0.7 ns && Qltb 0.8 f).
  - rewrite max_Qmax. now apply Q.max_compat.
  - destruct (Qltb ns 0.3); trivial.
    rewrite min_Qmin. now apply Q.min_compat.
Qed.

Lemma is_rounding_compat (r x y : Q) (ndigits : nat) :
  x == y -> is_rounding r x ndigits -> is_rounding r y ndigits.
Proof.
  intros E [Hk [Hlo Hhi]]. split; [exact Hk|]. rewrite <- E. now split.
Qed.

(** On a top fused score that is not negative the result is the value of
    the design document, rounded to two decimals. *)
Lemma _calculate_confidence_rounds (ts rr f : Q) :
  0 <= ts ->
  is_rounding (_calculate_confidence ts rr f) (spec_unrounded ts rr f) 2.
Proof.
  intro H. unfold _calculate_confidence, spec_unrounded.
  eapply is_rounding_compat; [|apply round_is_rounding; discriminate].
  apply (unrounded_eq f (norm_similarity_clamp H) (norm_rerank_clamp rr)).
Qed.

(** The result is a number of hundredths between 15 and 95, whatever the
    three inputs are. *)
Lemma _calculate_confidence_hundredths (ts rr f : Q) :
  exists k : Z,
    _calculate_confidence ts rr f = Qmake k 100 /\ (15 <= k <= 95)%Z.
Proof.
  unfold _calculate_confidence. cbv zeta.
  match goal with |- context [round ?x 2] => set (c := x) end.
  exists (round_half_even (c * 100)). split; [apply round2_hundredths|].
  apply round2_bounds. subst c.
  match goal with |- context [max 0.15 ?x] => generalize x; intro y end.
  case_minmax; split; lra.
Qed.

Lemma _calculate_confidence_range (ts rr f : Q) :
  0.15 <= _calculate_confidence ts rr f <= 0.95.
Proof.
  destruct (_calculate_confidence_hundredths ts rr f) as [k [-> Hk]].
  unfold Qle. cbn. lia.
Qed.

End ConfidenceSpec.

Module EngineProps.
Import Py PyFacts ReasoningEngine ConfidenceSpec.
Local Open Scope Q_scope.

(** ** Confidence *)

Section ReasonCases.

Variable Chunk : Type.
Variable get_content : Chunk -> str.
Variable fuzzy_match : str -> str -> Q.
Variable searcher : option (str -> nat -> Z -> list (Chunk * Q)).
Variable cross_encoder : option Reranker.CrossEncoder.
Variable _generate_answer : str -> str -> str -> str -> str.
Variable attribute : str -> list Chunk -> str.
Variable faithfulness_score : str -> str -> Q.

Let run := reason get_content fuzzy_match searcher cross_encoder
             _generate_answer attribute faithfulness_score.

(** The context handed to the LLM and to the faithfulness scorer: the
    contents of the reranked chunks, separated by a rule. *)
Definition context_of (top_chunks : list Chunk) : str :=
  join (lit "

---

") (map get_content top_chunks).

(** The three exits of [reason], by the outcome of the guardrail and of the
    search. At the third exit the confidence is [_calculate_confidence] of
    the run's own scores: the fused score of the first search result, the
    score of the first reranked chunk, and the faithfulness of the
    generated answer to the context of the reranked chunks. *)
Lemma reason_cases (agent : AgentData) (query multimodal_context : str) :
  let fq := full_query query multimodal_context in
  let g := _check_guardrail fuzzy_match fq
             (domain_signature agent) (prompt_analysis agent) in
  let r := run agent query multimodal_context in
  (fst g = false -> in_domain r = false /\ confidence r = 0.1)
  /\ (fst g = true -> search_results searcher agent fq = [] ->
      in_domain r = true /\ confidence r = 0.2)
  /\ (fst g = true ->
      forall (top : Chunk) (top_rrf : Q) (others : list (Chunk * Q)),
        search_results searcher agent fq = (top, top_rrf) :: others ->
        let reranked :=
          Reranker.rerank get_content cross_encoder fq
            (top :: map fst others) 5 in
        let context := context_of (map fst reranked) in
        let generated :=
          _generate_answer query context (system_prompt agent)
            multimodal_context in
        in_domain r = true
        /\ confidence r
           = _calculate_confidence top_rrf (head_or_zero (map snd reranked))
               (faithfulness_score generated context)).
Proof.
  intros fq g r. subst r. unfold run, reason. fold fq. fold g.
  destruct g as [ind score]. cbn [fst].
  split; [|split].
  - intros ->. cbn [negb]. now split.
  - intros -> E. cbn [negb]. rewrite E. now split.
  - intros -> top top_rrf others E. cbn [negb]. rewrite E.
    cbv zeta. cbn [in_domain confidence map fst snd head_or_zero].
    now split.
Qed.

End ReasonCases.

(** C1. [_calculate_confidence] returns a number of hundredths in
    [0.15, 0.95]; on a top fused score that is not negative (a sum of
    reciprocal ranks) it is the documented value rounded to two decimals:
    0.35 * clamp(top_rrf * 30, 0, 1) + 0.30 * clamp((top_rerank + 10) / 20,
    0, 1) + 0.25 * faithfulness + 0.10, floored at 0.75 when norm_sim > 0.7
    and faithfulness > 0.8, else capped at 0.45 when norm_sim < 0.3, and
    clamped to [0.15, 0.95]. An out-of-domain response has confidence 0.1
    and an empty-retrieval response 0.2. [reason] leaves by one of three
    exits: out of domain with confidence 0.1 when the guardrail rejects
    the query, in domain with confidence 0.2 when the search finds
    nothing, and otherwise in domain with the confidence computed from its
    own scores, which are the fused score of the first search result, the
    score of the first reranked chunk and the faithfulness of the
    generated answer to the context of the reranked chunks. *)
Theorem C1_confidence_contract :
  (forall ts rr f : Q,
     0 <= ts ->
     is_rounding (_calculate_confidence ts rr f) (spec_unrounded ts rr f) 2)
  /\ (forall ts rr f : Q,
        (exists k : Z,
           _calculate_confidence ts rr f = Qmake k 100 /\ (15 <= k <= 95)%Z)
        /\ 0.15 <= _calculate_confidence ts rr f <= 0.95)
  /\ (forall (query domain : str) (domain_score : Q),
        confidence (_create_out_of_domain_response query domain domain_score)
        = 0.1)
  /\ (forall (query : str) (agent : AgentData),
        confidence (_create_no_results_response query agent) = 0.2)
  /\ (forall (Chunk : Type) (get_content : Chunk -> str)
             (fuzzy_match : str -> str -> Q)
             (searcher : option (str -> nat -> Z -> list (Chunk * Q)))
             (cross_encoder : option Reranker.CrossEncoder)
             (_generate_answer : str -> str -> str -> str -> str)
             (attribute : str -> list Chunk -> str)
             (faithfulness_score : str -> str -> Q)
             (agent : AgentData) (query multimodal_context : str),
        let fq := full_query query multimodal_context in
        let g := _check_guardrail fuzzy_match fq
                   (domain_signature agent) (prompt_analysis agent) in
        let r := reason get_content fuzzy_match searcher cross_encoder
                   _generate_answer attribute faithfulness_score
                   agent query multimodal_context in
        (fst g = false -> in_domain r = false /\ confidence r = 0.1)
        /\ (fst g = true -> search_results searcher agent fq = [] ->
            in_domain r = true /\ confidence r = 0.2)
        /\ (fst g = true -> search_results searcher agent fq <> [] ->
            in_domain r = true /\ 0.15 <= confidence r <= 0.95)
        /\ (fst g = true ->
            forall (top : Chunk) (top_rrf : Q) (others : list (Chunk * Q)),
              search_results searcher agent fq = (top, top_rrf) :: others ->
              let reranked :=
                Reranker.rerank get_content cross_encoder fq
                  (top :: map fst others) 5 in
              let top_rerank := head_or_zero (map snd reranked) in
              let context := context_of get_content (map fst reranked) in
              let faithfulness :=
                faithfulness_score
                  (_generate_answer query context (system_prompt agent)
                     multimodal_context) context in
              in_domain r = true
              /\ confidence r
                 = _calculate_confidence top_rrf top_rerank faithfulness
              /\ (0 <= top_rrf ->
                  is_rounding (confidence r)
                    (spec_unrounded top_rrf top_rerank faithfulness) 2))).
Proof.
  split; [exact _calculate_confidence_rounds|].
  split; [intros; split;
          [apply _calculate_confidence_hundredths
          |apply _calculate_confidence_range]|].
  split; [reflexivity|].
  split; [reflexivity|].
  intros Chunk get_content fuzzy_match searcher cross_encoder
    _generate_answer attribute faithfulness_score agent query
    multimodal_context fq g r.
  destruct (reason_cases get_content fuzzy_match searcher cross_encoder
              _generate_answer attribute faithfulness_score agent query
              multimodal_context) as (H1 & H2 & H3).
  fold fq in H1, H2, H3. fold g in H1, H2, H3. fold r in H1, H2, H3.
  split; [exact H1|]. split; [exact H2|]. split.
  - intros Hg Hne.
    destruct (search_results searcher agent fq) as [|[top top_rrf] others]
      eqn:E; [congruence|].
    destruct (H3 Hg top top_rrf others eq_refl) as [Hd Hc].
    split; [exact Hd|]. rewrite Hc. apply _calculate_confidence_range.
  - intros Hg top top_rrf others E reranked top_rerank context faithfulness.
    destruct (H3 Hg top top_rrf others E) as [Hd Hc].
    split; [exact Hd|]. split; [exact Hc|].
    intro Hpos. rewrite Hc. now apply _calculate_confidence_rounds.
Qed.

(** A cooking agent whose search finds two chunks with the fused scores
    0.031 and 0.02; the cross-encoder scores them 1 and 5, so that the
    second chunk comes first, and the answer is faithful at 0.9. The
    confidence is that of 0.031, 5 and 0.9, which is 0.88 (the value
    before rounding is 0.8755). *)
Definition cooking_agent : AgentData :=
  {| id := 7;
     name := lit "chef";
     system_prompt := lit "You are a chef.";
     agent_domain := Some (lit "cooking");
     domain_signature := [lit "salad"; lit "romaine"];
     prompt_analysis :=
       {| domain := Some (lit "cooking");
          sub_domains := None;
          domain_keywords := None |} |}.

Definition cooking_run : Response :=
  reason (fun chunk : str => chunk) (fun _ _ => 0)
    (Some (fun _ _ _ => [(lit "Croutons", 0.031); (lit "Romaine", 0.02)]))
    (Some (fun _ => Some [1; 5]))
    (fun _ _ _ _ => lit "Use romaine lettuce.")
    (fun answer _ => answer) (fun _ _ => 0.9)
    cooking_agent (lit "Which salad for cooking?") [].

Lemma C1_confidence_contract_witness :
  in_domain cooking_run = true
  /\ confidence cooking_run = _calculate_confidence 0.031 5 0.9
  /\ is_rounding (confidence cooking_run) (spec_unrounded 0.031 5 0.9) 2
  /\ confidence cooking_run = 0.88
  /\ spec_unrounded 0.031 5 0.9 == 0.8755.
Proof.
  pose proof
    (proj2 (proj2 (proj2 (proj2 C1_confidence_contract)))
       str (fun chunk : str => chunk) (fun _ _ => 0)
       (Some (fun _ _ _ => [(lit "Croutons", 0.031); (lit "Romaine", 0.02)]))
       (Some (fun _ => Some [1; 5]))
       (fun _ _ _ _ => lit "Use romaine lettuce.")
       (fun answer _ => answer) (fun _ _ => 0.9)
       cooking_agent (lit "Which salad for cooking?") []) as H.
  cbv zeta in H. destruct H as (_ & _ & _ & H).
  specialize (H eq_refl (lit "Croutons") 0.031 [(lit "Romaine", 0.02)]
                eq_refl).
  destruct H as (Hd & Hc & Hr).
  split; [exact Hd|]. split; [exact Hc|].
  split; [apply Hr; unfold Qle; cbn; lia|].
  split; reflexivity.
Defined.

(** ** The reranker's placeholder *)

Lemma slice_to_nonneg (A : Type) (l : list A) (k : Z) :
  (0 <= k)%Z -> slice_to l k = firstn (Z.to_nat k) l.
Proof.
  intro H. unfold slice_to.
  destruct (k <? 0)%Z eqn:E; trivial.
  apply Z.ltb_lt in E. lia.
Qed.

(** C5, as the code has it. Without a cross-encoder [rerank] returns the
    first [top_k] candidates in their input order, each with the constant
    placeholder score 0.5; the confidence computation normalises that score
    like any other, to (0.5 + 10) / 20 = 0.525. *)
Theorem C5_placeholder_rerank
  (Chunk : Type) (get_content : Chunk -> str)
  (query : str) (chunks : list Chunk) (top_k : Z) :
  (0 <= top_k)%Z ->
  let reranked := Reranker.rerank get_content None query chunks top_k in
  reranked
  = map (fun chunk => (chunk, 0.5)) (firstn (Z.to_nat top_k) chunks)
  /\ (forall chunk score,
        In (chunk, score) reranked -> norm_rerank score == 0.525)
  /\ (reranked <> [] -> head_or_zero (map snd reranked) = 0.5).
Proof.
  intros Hk reranked.
  assert (E : reranked
              = map (fun chunk => (chunk, 0.5))
                  (firstn (Z.to_nat top_k) chunks)).
  { subst reranked. unfold Reranker.rerank, Reranker.fallback.
    destruct chunks as [|c cs].
    - now rewrite firstn_nil.
    - now rewrite slice_to_nonneg. }
  split; [exact E|]. rewrite E. split.
  - intros chunk score Hin. apply in_map_iff in Hin.
    destruct Hin as [c [Hc _]]. inversion Hc. reflexivity.
  - destruct (firstn (Z.to_nat top_k) chunks); cbn; congruence.
Qed.

Lemma C5_placeholder_rerank_witness :
  Reranker.rerank (fun chunk : str => chunk) None (lit "q")
    [lit "a"; lit "b"; lit "c"] 2
  = [(lit "a", 0.5); (lit "b", 0.5)].
Proof.
  apply (C5_placeholder_rerank (fun chunk : str => chunk) (lit "q")
           [lit "a"; lit "b"; lit "c"] (top_k := 2)).
  lia.
Defined.

(** The placeholder does not count as a normalised component of 0.5. *)
Lemma C5_counterexample :
  Reranker.rerank (fun chunk : str => chunk) None (lit "q")
    [lit "a"; lit "b"] 5
  = [(lit "a", 0.5); (lit "b", 0.5)]
  /\ norm_rerank 0.5 == 0.525
  /\ ~ norm_rerank 0.5 == 0.5.
Proof.
  split; [reflexivity|]. split; [reflexivity|].
  intro H. discriminate H.
Qed.

(** ** The guardrail *)

Lemma count_hits_nonneg (weight : Q) (terms : list str) (query_lower : str) :
  0 <= weight -> 0 <= count_hits weight terms query_lower.
Proof.
  intro Hw. unfold count_hits.
  assert (G : forall acc, 0 <= acc ->
              0 <= fold_left
                     (fun bonus term =>
                        if contains (lower term) query_lower
                        then bonus + weight else bonus) terms acc).
  { induction terms as [|t ts IH]; intros acc Hacc; cbn; trivial.
    apply IH. destruct (contains (lower t) query_lower); lra. }
  apply G. lra.
Qed.

(** C6. A query that is the agent's domain name is in-domain with a score
    of at least 0.2: the domain occurs in the query, so the bonus is at
    least 3 and the score is floored at 0.2, above the 0.05 threshold. *)
Theorem C6_domain_query_in_domain
  (fuzzy_match : str -> str -> Q) (domain_signature : list str)
  (prompt_analysis : AnalysisDict) (d : str) :
  domain prompt_analysis = Some d ->
  d <> [] ->
  let r := _check_guardrail fuzzy_match d domain_signature prompt_analysis in
  fst r = true /\ 0.2 <= snd r.
Proof.
  intros Hd _. unfold _check_guardrail. cbv zeta. cbn [fst snd].
  rewrite Hd. cbn [get]. rewrite contains_refl.
  set (q := lower d).
  pose proof (count_hits_nonneg (get (sub_domains prompt_analysis) []) q
                (weight := 2) ltac:(lra)) as H2.
  pose proof (count_hits_nonneg (get (domain_keywords prompt_analysis) []) q
                (weight := 1.5) ltac:(lra)) as H3.
  set (bonus := 3 + _ + _) in *.
  assert (Hb : Qleb 1 bonus = true) by (apply Qleb_true; subst bonus; lra).
  rewrite Hb.
  match goal with |- context [max ?s0 0.2] => generalize s0; intro s end.
  assert (Hs : 0.2 <= max s 0.2) by (case_minmax; lra).
  split; trivial.
  apply Qleb_true. unfold DOMAIN_SIMILARITY_THRESHOLD. lra.
Qed.

Lemma C6_domain_query_in_domain_witness :
  fst (_check_guardrail (fun _ _ => 0) (lit "cooking") [lit "recipe"]
         {| domain := Some (lit "cooking");
            sub_domains := Some [lit "baking"];
            domain_keywords := Some [lit "recipe"; lit "cook"] |}) = true
  /\ 0.2 <= snd (_check_guardrail (fun _ _ => 0) (lit "cooking")
                   [lit "recipe"]
                   {| domain := Some (lit "cooking");
                      sub_domains := Some [lit "baking"];
                      domain_keywords := Some [lit "recipe"; lit "cook"] |}).
Proof.
  apply (@C6_domain_query_in_domain (fun _ _ => 0) [lit "recipe"]
           {| domain := Some (lit "cooking");
              sub_domains := Some [lit "baking"];
              domain_keywords := Some [lit "recipe"; lit "cook"] |}
           (lit "cooking")).
  - reflexivity.
  - discriminate.
Defined.

End EngineProps.

(* ===================================================================== *)
(** * Properties of the validator and of the faithfulness scorer *)
(* ===================================================================== *)

Module ValidatorProps.
Import Py DataValidator.
Local Open Scope nat_scope.

Lemma when_length (b : bool) (item : str) :
  length (when b item) = if b then 1 else 0.
Proof. now destruct b. Qed.

Lemma filter_nil_iff (A : Type) (f : A -> bool) (l : list A) :
  filter f l = [] <-> forall x, In x l -> f x = false.
Proof.
  induction l as [|a l IH]; cbn.
  - split; [intros _ x []|trivial].
  - destruct (f a) eqn:E; split.
    + discriminate.
    + intro H. specialize (H a (or_introl eq_refl)). congruence.
    + intros H x [<-|Hx]; trivial. now apply IH.
    + intro H. apply IH. intros x Hx. apply H. now right.
Qed.

Lemma length_zero_map_filter (A B : Type) (g : A -> B) (f : A -> bool)
  (l : list A) :
  (length (map g (filter f l)) =? 0) = true
  <-> forall x, In x l -> f x = false.
Proof.
  rewrite length_map, Nat.eqb_eq, length_zero_iff_nil.
  apply filter_nil_iff.
Qed.

(** The flag, factor by factor. *)
Lemma sufficient_iff (parsed_data : list ParsedSource) :
  sufficient (validate_sufficiency parsed_data) = true
  <-> (20 <= sum (map entries_of parsed_data)
       \/ 2000 <= sum (map chars_of parsed_data))
      /\ (forall p, In p parsed_data -> error p = None)
      /\ (forall p, In p parsed_data -> entries_of p <> 0).
Proof.
  unfold validate_sufficiency. cbn [sufficient].
  rewrite Nat.eqb_eq, !length_app, !when_length.
  set (te := sum (map entries_of parsed_data)).
  set (tc := sum (map chars_of parsed_data)).
  pose proof (length_zero_map_filter file_name
                (fun p => entries_of p =? 0) parsed_data) as Hempty.
  pose proof (length_zero_map_filter file_name has_error parsed_data)
    as Herr.
  unfold MIN_ENTRIES, MIN_CHARACTERS.
  destruct (20 <=? te) eqn:Ee; destruct (2000 <=? tc) eqn:Ec;
    rewrite ?Nat.leb_le, ?Nat.leb_gt in *;
    destruct (length (map file_name
                        (filter (fun p => entries_of p =? 0) parsed_data))
              =? 0) eqn:E1;
    destruct (length (map file_name (filter has_error parsed_data)) =? 0)
      eqn:E2; cbn;
    (split; [intro H; try discriminate H | intros (H1 & H2 & H3)]);
    try (repeat split; try lia;
         [ intros p Hp; destruct Herr as [Herr _];
           specialize (Herr eq_refl p Hp); unfold has_error in Herr;
           now destruct (error p)
         | intros p Hp; destruct Hempty as [Hempty _];
           specialize (Hempty eq_refl p Hp);
           now apply Nat.eqb_neq in Hempty ]);
    try lia; exfalso;
    try (assert (X : false = true);
         [ apply Hempty; intros p Hp; now apply Nat.eqb_neq, H3
         | discriminate X ]);
    try (assert (X : false = true);
         [ apply Herr; intros p Hp; unfold has_error; now rewrite (H2 p Hp)
         | discriminate X ]).
Qed.

(** ** The corpus, counted from the parsed sources *)

(** The entries of a source are its [entries_count], none when the key is
    missing; its characters are those of its [text], none when the key is
    missing. The corpus has the entries and the characters of all its
    sources. *)
Definition source_entries (p : ParsedSource) : nat :=
  match entries_count p with Some n => n | None => 0 end.

Definition source_characters (p : ParsedSource) : nat :=
  match text p with Some t => length t | None => 0 end.

Definition corpus_entries (parsed_data : list ParsedSource) : nat :=
  list_sum (map source_entries parsed_data).

Definition corpus_characters (parsed_data : list ParsedSource) : nat :=
  list_sum (map source_characters parsed_data).

Lemma sum_from (l : list nat) (n : nat) :
  fold_left Nat.add l n = n + list_sum l.
Proof.
  revert n. induction l as [|x l IH]; intro n; cbn [fold_left].
  - cbn. lia.
  - rewrite IH. change (list_sum (x :: l)) with (x + list_sum l). lia.
Qed.

Lemma total_entries_corpus (parsed_data : list ParsedSource) :
  sum (map entries_of parsed_data) = corpus_entries parsed_data.
Proof. unfold sum, corpus_entries. now rewrite sum_from. Qed.

Lemma total_chars_corpus (parsed_data : list ParsedSource) :
  sum (map chars_of parsed_data) = corpus_characters parsed_data.
Proof.
  unfold sum, corpus_characters. rewrite sum_from. cbn. f_equal.
  apply map_ext. intro p. unfold chars_of, source_characters, get.
  now destruct (text p).
Qed.

(** C7. [validate_sufficiency] reports [sufficient = true] exactly when the
    sources together have at least 20 entries or at least 2000 characters
    of text, no source carries a parse error and no source has zero
    entries. So a corpus of exactly 20 entries without errors and without
    empty files is sufficient, and one of 19 entries and fewer than 2000
    characters is not. The totals the report shows are these counts. *)
Theorem C7_sufficiency (parsed_data : list ParsedSource) :
  let report := validate_sufficiency parsed_data in
  (sufficient report = true
   <-> (20 <= corpus_entries parsed_data
        \/ 2000 <= corpus_characters parsed_data)
       /\ (forall p, In p parsed_data -> error p = None)
       /\ (forall p, In p parsed_data -> source_entries p <> 0))
  /\ (corpus_entries parsed_data = 20 ->
      (forall p, In p parsed_data -> error p = None) ->
      (forall p, In p parsed_data -> source_entries p <> 0) ->
      sufficient report = true)
  /\ (corpus_entries parsed_data = 19 ->
      corpus_characters parsed_data < 2000 ->
      sufficient report = false)
  /\ total_entries (stats report) = corpus_entries parsed_data
  /\ total_characters (stats report) = corpus_characters parsed_data.
Proof.
  intro report.
  pose proof (sufficient_iff parsed_data) as H. fold report in H.
  rewrite total_entries_corpus, total_chars_corpus in H.
  change (forall p, In p parsed_data -> entries_of p <> 0)
    with (forall p, In p parsed_data -> source_entries p <> 0) in H.
  split; [exact H|]. split; [|split; [|split]].
  - intros E He Hz. apply H. repeat split; trivial. lia.
  - intros E Hc. destruct (sufficient report); trivial.
    destruct H as [H _]. destruct (H eq_refl) as [[?|?] _]; lia.
  - apply total_entries_corpus.
  - apply total_chars_corpus.
Qed.

(** A file of recipes with a given number of entries and a short text, and
    a file of notes that is one entry of a given number of characters. *)
Definition csv_file (entries : nat) : ParsedSource :=
  {| file_name := lit "recipes.csv";
     format := lit "csv";
     entries_count := Some entries;
     text := Some (lit "Entry 1: name=Caesar Salad");
     data_present := true;
     error := None |}.

Definition txt_file (characters : nat) : ParsedSource :=
  {| file_name := lit "notes.txt";
     format := lit "txt";
     entries_count := Some 1;
     text := Some (repeat "a"%char characters);
     data_present := false;
     error := None |}.

(** 12 and 8 entries suffice, 12 and 7 with 52 characters do not; one entry
    of 2000 characters suffices, one of 1999 does not. *)
Lemma C7_sufficiency_witness :
  sufficient (validate_sufficiency [csv_file 12; csv_file 8]) = true
  /\ sufficient (validate_sufficiency [csv_file 12; csv_file 7]) = false
  /\ sufficient (validate_sufficiency [txt_file 2000]) = true
  /\ sufficient (validate_sufficiency [txt_file 1999]) <> true.
Proof.
  split; [|split; [|split]].
  - apply (proj1 (proj2 (C7_sufficiency [csv_file 12; csv_file 8]))).
    + reflexivity.
    + intros p [<-|[<-|[]]]; reflexivity.
    + intros p [<-|[<-|[]]]; discriminate.
  - apply (proj1 (proj2 (proj2 (C7_sufficiency [csv_file 12; csv_file 7])))).
    + reflexivity.
    + vm_compute. lia.
  - apply (proj2 (proj1 (C7_sufficiency [txt_file 2000]))).
    split; [right|split].
    + unfold corpus_characters, source_characters. cbn [map text txt_file].
      rewrite repeat_length. cbn. lia.
    + intros p [<-|[]]; reflexivity.
    + intros p [<-|[]]; discriminate.
  - intro S.
    apply (proj1 (proj1 (C7_sufficiency [txt_file 1999]))) in S.
    destruct S as [[S|S] _].
    + cbn in S. lia.
    + unfold corpus_characters, source_characters in S.
      cbn [map text txt_file] in S. rewrite repeat_length in S.
      cbn in S. lia.
Defined.

End ValidatorProps.

Module FaithfulnessProps.
Import Py FaithfulnessScorer.
Local Open Scope Q_scope.

(** C10. With an empty answer or an empty context [score] returns score
    1.0, no claims of either kind and no unsupported claim, and makes no
    call to the LLM. *)
Theorem C10_empty_input_is_faithful
  (extract_reply : str -> option ClaimsJson)
  (verify_reply : str -> str -> option str) (answer context : str) :
  answer = [] \/ context = [] ->
  score extract_reply verify_reply answer context
  = ({| Result.score := 1.0;
        Result.total_claims := 0;
        Result.supported_claims := 0;
        Result.unsupported_claims := [] |}, []).
Proof.
  intros [-> | ->]; unfold score.
  - reflexivity.
  - now destruct answer.
Qed.

(** A non-empty answer scored against an empty context, with a client that
    would reject every claim. *)
Lemma C10_empty_input_is_faithful_witness :
  score (fun _ => Some (JList [lit "The moon is made of cheese."]))
    (fun _ _ => Some (lit "NO"))
    (lit "The moon is made of cheese.") []
  = ({| Result.score := 1.0;
        Result.total_claims := 0;
        Result.supported_claims := 0;
        Result.unsupported_claims := [] |}, []).
Proof.
  apply C10_empty_input_is_faithful. right. reflexivity.
Defined.

End FaithfulnessProps.

(* ===================================================================== *)
(** * Properties of the prompt analyzer *)
(* ===================================================================== *)

Module PromptProps.
Import Py PromptAnalyzer.
Local Open Scope nat_scope.

Lemma str_eqb_eq (a b : str) : str_eqb a b = true <-> a = b.
Proof.
  unfold str_eqb. destruct (str_eq_dec a b); split; congruence.
Qed.

Lemma mem_In (x : str) (l : list str) : mem x l = true <-> In x l.
Proof.
  unfold mem. rewrite existsb_exists. split.
  - intros [y [Hy E]]. apply str_eqb_eq in E. now subst.
  - intro H. exists x. split; trivial. now apply str_eqb_eq.
Qed.

Lemma mem_app_single (x y : str) (l : list str) :
  x <> y -> mem x (l ++ [y]) = mem x l.
Proof.
  intro H. unfold mem. rewrite existsb_app. cbn.
  destruct (str_eqb x y) eqn:E.
  - apply str_eqb_eq in E. contradiction.
  - now rewrite !orb_false_r.
Qed.

(** The table's keywords that are not among [keywords]. *)
Definition fresh (keywords defaults : list str) : list str :=
  filter (fun kw => negb (mem kw keywords)) defaults.

Lemma fresh_app_single (keywords defaults : list str) (kw : str) :
  ~ In kw defaults ->
  fresh (keywords ++ [kw]) defaults = fresh keywords defaults.
Proof.
  intro H. unfold fresh. apply filter_ext_in.
  intros x Hx. rewrite mem_app_single; trivial.
  intros ->. contradiction.
Qed.

(** The loop appends the fresh keywords of the table, in table order, until
    the list has 20 entries. *)
Lemma add_defaults_fresh (defaults : list str) :
  NoDup defaults ->
  forall keywords,
    add_defaults keywords defaults
    = keywords ++ firstn (20 - length keywords) (fresh keywords defaults).
Proof.
  induction 1 as [|kw rest Hnotin Hnodup IH]; intro keywords;
    cbn [add_defaults].
  - unfold fresh. cbn [filter]. now rewrite firstn_nil, app_nil_r.
  - rewrite IH.
    assert (Hf : fresh keywords (kw :: rest)
                 = if mem kw keywords then fresh keywords rest
                   else kw :: fresh keywords rest)
      by (unfold fresh; cbn [filter]; now destruct (mem kw keywords)).
    rewrite Hf. destruct (mem kw keywords) eqn:Em; cbn [negb andb]; trivial.
    destruct (length keywords <? 20) eqn:El.
    + apply Nat.ltb_lt in El.
      rewrite fresh_app_single by trivial.
      rewrite length_app. cbn [length].
      replace (20 - length keywords) with (S (20 - (length keywords + 1)))
        by lia.
      cbn [firstn]. now rewrite <- app_assoc.
    + apply Nat.ltb_ge in El.
      replace (20 - length keywords) with 0 by lia. reflexivity.
Qed.

Lemma filter_partition_length (A : Type) (f : A -> bool) (l : list A) :
  length (filter f l) + length (filter (fun x => negb (f x)) l) = length l.
Proof.
  induction l as [|a l IH]; cbn; trivial.
  destruct (f a); cbn; lia.
Qed.

(** A table of 20 distinct keywords has enough fresh ones to fill a list
    up to 20 entries. *)
Lemma fresh_enough (keywords defaults : list str) :
  NoDup defaults -> length defaults = 20 ->
  20 - length keywords <= length (fresh keywords defaults).
Proof.
  intros Hnd Hlen.
  pose proof (filter_partition_length (fun kw => mem kw keywords) defaults)
    as Hp.
  cbv beta in Hp.
  assert (Hin : length (filter (fun kw => mem kw keywords) defaults)
                <= length keywords).
  { apply NoDup_incl_length.
    - now apply NoDup_filter.
    - intros x Hx. apply filter_In in Hx. now apply mem_In. }
  unfold fresh. lia.
Qed.

Lemma defaults_distinct (key : str) (defaults : list str) :
  dict_get key domain_defaults = Some defaults ->
  NoDup defaults /\ length defaults = 20.
Proof.
  unfold domain_defaults. cbn [dict_get].
  repeat (destruct (str_eqb key _);
          [ intro E; injection E as <-; split;
            [ match goal with |- NoDup ?l =>
                replace l with (nodup str_eq_dec l)
                  by (vm_compute; reflexivity);
                apply NoDup_nodup
              end
            | reflexivity ]
          | ]).
  discriminate.
Qed.

(** [_expand_keywords] for a domain of the table: the existing keywords,
    then fresh keywords of the table, 20 entries in all. *)
Lemma expand_table_domain (existing defaults : list str) (domain : str) :
  dict_get (lower domain) domain_defaults = Some defaults ->
  length existing <= 20 ->
  _expand_keywords existing domain
  = existing ++ firstn (20 - length existing) (fresh existing defaults)
  /\ length (_expand_keywords existing domain) = 20.
Proof.
  intros Hd Hlen. unfold _expand_keywords. rewrite Hd.
  destruct (defaults_distinct _ Hd) as [Hnd H20].
  rewrite (add_defaults_fresh Hnd).
  set (padded := existing ++ _).
  assert (Hp : length padded = 20).
  { subst padded. rewrite length_app, length_firstn.
    pose proof (fresh_enough existing Hnd H20). lia. }
  assert (E : firstn 20 (if negb (mem (lower domain) (map lower padded))
                         then padded ++ [domain] else padded) = padded).
  { destruct (negb _).
    - rewrite firstn_app, Hp, Nat.sub_diag, firstn_O, app_nil_r.
      apply firstn_all2. lia.
    - apply firstn_all2. lia. }
  rewrite E. now split.
Qed.

(** [_expand_keywords] for a domain outside the table: the domain is added
    at the end unless it is there already, whatever its case. *)
Lemma expand_other_domain (existing : list str) (domain : str) :
  dict_get (lower domain) domain_defaults = None ->
  length existing < 20 ->
  _expand_keywords existing domain
  = if mem (lower domain) (map lower existing) then existing
    else existing ++ [domain].
Proof.
  intros Hd Hlen. unfold _expand_keywords. rewrite Hd.
  destruct (mem (lower domain) (map lower existing)); cbn [negb].
  - apply firstn_all2. lia.
  - apply firstn_all2. rewrite length_app. cbn. lia.
Qed.

Definition fallback_domains : list str :=
  lits ["medical"; "legal"; "cooking"; "technology"; "finance";
        "general"]%string.

Lemma detect_domain_range (words : list str) :
  In (detect_domain words domain_indicators) fallback_domains.
Proof.
  unfold domain_indicators. cbn [detect_domain].
  repeat match goal with
  | |- context [existsb ?f ?l] => destruct (existsb f l)
  end; vm_compute; tauto.
Qed.

(** On the fallback path the keywords are the table's for the detected
    domain, which name the domain, or the single keyword [general]. *)
Lemma fallback_keywords (system_prompt : str) :
  let a := _create_fallback_analysis system_prompt in
  In (domain a) fallback_domains
  /\ In (domain a) (domain_keywords a)
  /\ domain_keywords a
     = match dict_get (domain a) domain_defaults with
       | Some defaults => defaults
       | None => [domain a]
       end.
Proof.
  cbn zeta. unfold _create_fallback_analysis. cbn [domain domain_keywords].
  pose proof (detect_domain_range (split (lower system_prompt))) as H.
  split; trivial.
  destruct H as [<-|[<-|[<-|[<-|[<-|[<-|[]]]]]]];
    vm_compute; intuition.
Qed.

(** C8, as the code has it. On the validated LLM path a list of 10 or more
    keywords is returned unchanged; a shorter one is kept as a prefix and,
    when the domain in lower case is a key of the built-in table (medical,
    legal, cooking, technology, finance), padded with the table's keywords
    that are not yet present, in table order, to exactly 20 entries; for a
    domain outside the table the domain is appended unless the list has it
    already, whatever its case. On the fallback path the keywords are the
    table's 20 entries of the detected domain, which contain the domain
    name, or the single keyword general. *)
Theorem C8_domain_keywords
  (llm : str -> option AnalysisJson) (system_prompt : str) :
  let a := analyze_prompt llm system_prompt in
  match llm system_prompt with
  | Some result =>
      let keywords := or_default (j_domain_keywords result) [] in
      domain a = or_default (j_domain result) (lit "general")
      /\ (10 <= length keywords -> domain_keywords a = keywords)
      /\ (length keywords < 10 ->
          firstn (length keywords) (domain_keywords a) = keywords
          /\ match dict_get (lower (domain a)) domain_defaults with
             | Some defaults =>
                 domain_keywords a
                 = keywords
                   ++ firstn (20 - length keywords) (fresh keywords defaults)
                 /\ length (domain_keywords a) = 20
             | None =>
                 domain_keywords a
                 = if mem (lower (domain a)) (map lower keywords)
                   then keywords else keywords ++ [domain a]
             end)
  | None =>
      In (domain a) fallback_domains
      /\ In (domain a) (domain_keywords a)
      /\ domain_keywords a
         = match dict_get (domain a) domain_defaults with
           | Some defaults => defaults
           | None => [domain a]
           end
  end.
Proof.
  cbn zeta. unfold analyze_prompt.
  destruct (llm system_prompt) as [result|];
    [|apply fallback_keywords].
  unfold _ensure_fields. cbn [domain domain_keywords].
  set (keywords := or_default (j_domain_keywords result) []).
  set (dom := or_default (j_domain result) (lit "general")).
  split; trivial. split.
  - intro H. apply Nat.ltb_ge in H. now rewrite H.
  - intro H. pose proof H as Hlt. apply Nat.ltb_lt in Hlt. rewrite Hlt.
    destruct (dict_get (lower dom) domain_defaults) as [defaults|] eqn:Hd.
    + destruct (@expand_table_domain keywords defaults dom Hd ltac:(lia))
        as [E L].
      split; [|now split].
      now rewrite E, firstn_app, Nat.sub_diag, firstn_all, firstn_O,
        app_nil_r.
    + rewrite (@expand_other_domain keywords dom Hd ltac:(lia)).
      split; trivial.
      destruct (mem (lower dom) (map lower keywords)).
      * apply firstn_all.
      * now rewrite firstn_app, Nat.sub_diag, firstn_all, firstn_O,
          app_nil_r.
Qed.

(** An LLM answer with two keywords for a domain outside the table. *)
Definition gardening_reply : AnalysisJson :=
  {| j_domain := Some (lit "gardening");
     j_sub_domains := None;
     j_personality := None;
     j_constraints := None;
     j_suggested_name := None;
     j_domain_keywords := Some (lits ["soil"; "plant"]%string);
     j_tone := None;
     j_capabilities := None |}.

Lemma C8_domain_keywords_witness :
  domain_keywords
    (analyze_prompt (fun _ => Some gardening_reply) (lit "You garden."))
  = lits ["soil"; "plant"; "gardening"]%string.
Proof.
  pose proof (C8_domain_keywords (fun _ => Some gardening_reply)
                (lit "You garden.")) as H.
  cbn zeta in H. cbv beta iota in H.
  destruct H as (_ & _ & H).
  destruct (H ltac:(cbn; lia)) as [_ E].
  exact E.
Defined.

(** The fallback analysis of a medical prompt: the domain is [medical], the
    first keyword is [health]. *)
Lemma C8_counterexample :
  let a := analyze_prompt (fun _ => None)
             (lit "You are a medical assistant.") in
  domain a = lit "medical"
  /\ hd_error (domain_keywords a) = Some (lit "health")
  /\ hd_error (domain_keywords a) <> Some (domain a).
Proof.
  vm_compute. repeat split. discriminate.
Qed.

End PromptProps.

(* ===================================================================== *)
(** * Properties of the source attributor *)
(* ===================================================================== *)

Module AttributionProps.
Import Py PyFacts SourceAttributor.
Local Open Scope nat_scope.

(** ** Chunk ids at their first appearance *)

Definition zmem (x : Z) (l : list Z) : bool := existsb (Z.eqb x) l.

(** The ids of [ids] that are not in [seen], each kept where it first
    appears. *)
Fixpoint first_appearances (seen ids : list Z) : list Z :=
  match ids with
  | [] => []
  | i :: rest =>
      if zmem i seen then first_appearances seen rest
      else i :: first_appearances (i :: seen) rest
  end.

Lemma zmem_In (x : Z) (l : list Z) : zmem x l = true <-> In x l.
Proof.
  unfold zmem. rewrite existsb_exists. split.
  - intros [y [Hy E]]. apply Z.eqb_eq in E. now subst.
  - intro H. exists x. split; trivial. apply Z.eqb_refl.
Qed.

Lemma zmem_false (x : Z) (l : list Z) : zmem x l = false <-> ~ In x l.
Proof.
  rewrite <- zmem_In. destruct (zmem x l); split; congruence.
Qed.

Lemma first_appearances_In (ids seen : list Z) (x : Z) :
  In x (first_appearances seen ids) <-> In x ids /\ ~ In x seen.
Proof.
  revert seen. induction ids as [|i rest IH]; intro seen; cbn.
  - tauto.
  - destruct (zmem i seen) eqn:E.
    + apply zmem_In in E. rewrite IH. intuition (subst; tauto).
    + apply zmem_false in E. cbn. rewrite IH. cbn.
      destruct (Z.eq_dec i x); intuition (subst; tauto).
Qed.

Lemma first_appearances_NoDup (ids seen : list Z) :
  NoDup (first_appearances seen ids).
Proof.
  revert seen. induction ids as [|i rest IH]; intro seen; cbn.
  - constructor.
  - destruct (zmem i seen); trivial.
    constructor; trivial.
    rewrite first_appearances_In. cbn. tauto.
Qed.

Lemma zmem_iff (x : Z) (l l' : list Z) :
  (In x l <-> In x l') -> zmem x l = zmem x l'.
Proof.
  intro H. destruct (zmem x l') eqn:E.
  - apply zmem_In. apply zmem_In in E. tauto.
  - apply zmem_false. apply zmem_false in E. tauto.
Qed.

Lemma first_appearances_snoc (ids seen : list Z) (x : Z) :
  first_appearances seen (ids ++ [x])
  = first_appearances seen ids
    ++ (if zmem x (seen ++ ids) then [] else [x]).
Proof.
  revert seen. induction ids as [|i rest IH]; intro seen; cbn.
  - rewrite app_nil_r. now destruct (zmem x seen).
  - destruct (zmem i seen) eqn:E.
    + rewrite IH. f_equal.
      rewrite (zmem_iff x (seen ++ rest) (seen ++ i :: rest)); trivial.
      apply zmem_In in E. rewrite !in_app_iff. cbn.
      intuition (subst; tauto).
    + cbn. rewrite IH. do 2 f_equal.
      rewrite (zmem_iff x ((i :: seen) ++ rest) (seen ++ i :: rest));
        trivial.
      cbn. rewrite !in_app_iff. cbn. tauto.
Qed.

(** ** The dictionary of used sources *)

Lemma lookup_None (k : Z) (d : SourcesUsed) :
  lookup k d = None <-> ~ In k (map fst d).
Proof.
  induction d as [|[k' v] d IH]; cbn.
  - tauto.
  - destruct (Z.eqb_spec k k').
    + split; [discriminate|]. intro H. exfalso. apply H. now left.
    + rewrite IH. intuition congruence.
Qed.

Lemma lookup_Some_In (k : Z) (d : SourcesUsed) (n : nat) :
  lookup k d = Some n -> In (k, n) d.
Proof.
  induction d as [|[k' v] d IH]; cbn; [discriminate|].
  destruct (Z.eqb_spec k k').
  - intro E. injection E as <-. subst. now left.
  - intro E. right. now apply IH.
Qed.

Lemma lookup_app_new (k : Z) (d : SourcesUsed) (n : nat) :
  lookup k d = None -> lookup k (d ++ [(k, n)]) = Some n.
Proof.
  induction d as [|[k' v] d IH]; cbn.
  - now rewrite Z.eqb_refl.
  - destruct (k =? k')%Z; [discriminate|exact IH].
Qed.

(** A list whose numbers are consecutive is sorted already. *)
Lemma sorted_by_num_seq (d : SourcesUsed) :
  forall a, map snd d = seq a (length d) -> sorted_by_num d = d.
Proof.
  induction d as [|[k v] d IH]; intros a H; trivial.
  cbn [map snd length seq] in H. injection H as Hv Hd. subst v.
  unfold sorted_by_num. cbn [fold_right].
  change (fold_right insert_by_num [] d) with (sorted_by_num d).
  rewrite (IH _ Hd).
  destruct d as [|[k' v'] d']; trivial.
  cbn [map snd length seq] in Hd. injection Hd as Hv' _. subst v'.
  cbn [insert_by_num snd].
  destruct (Nat.ltb_spec (S a) a); [lia|reflexivity].
Qed.

(** ** Citation marks *)

Lemma str_of_nat_inj (n m : nat) : str_of_nat n = str_of_nat m -> n = m.
Proof.
  unfold str_of_nat, lit. intro H.
  apply (f_equal string_of_list_ascii) in H.
  rewrite !string_of_list_ascii_of_string in H.
  apply (f_equal NilEmpty.uint_of_string) in H.
  rewrite !NilEmpty.usu in H. injection H as H.
  apply (f_equal Nat.of_uint) in H.
  now rewrite !DecimalNat.Unsigned.of_to in H.
Qed.

Lemma cite_inj (n m : nat) : cite n = cite m -> n = m.
Proof.
  unfold cite. intro H. apply app_inv_head in H.
  apply app_inv_tail in H. now apply str_of_nat_inj.
Qed.

Lemma nth_error_seq_inv (len a i n : nat) :
  nth_error (seq a len) i = Some n -> n = a + i /\ i < len.
Proof.
  revert a i. induction len as [|len IH]; intros a [|i]; cbn;
    try discriminate.
  - intro E. injection E as <-. lia.
  - intro E. apply IH in E. lia.
Qed.

(** ** The loop over the sentences *)

Section Loop.

Variable Chunk : Type.
Variable _get_content : Chunk -> str.
Variable _get_id : Chunk -> Z.
Variable _get_source : Chunk -> str.
Variable Emb : Type.
Variable embedding_model : option (list str -> option (list Emb)).
Variable _cosine_similarity : Emb -> Emb -> Q.
Variable first : Chunk.
Variable chunks : list Chunk.
Variable chunk_embeddings : option (list Emb).

Let step :=
  attribute_sentence _get_content _get_id _get_source embedding_model
    _cosine_similarity first chunks chunk_embeddings.

(** What every turn of the loop keeps: the numbers handed out are 1, 2,
    ... in the order of insertion; the chunks in the dictionary are those
    of the attributed sentences, in the order of their first appearance;
    every attributed sentence carries the number of its chunk. *)
Definition consistent (state : SourcesUsed * list AttributedSentence)
  : Prop :=
  map snd (fst state) = seq 1 (length (fst state))
  /\ map fst (fst state)
     = first_appearances [] (map source_chunk_id (snd state))
  /\ Forall
       (fun a => exists n,
            citation a = cite n /\ In (source_chunk_id a, n) (fst state))
       (snd state).

Lemma step_consistent state sentence :
  consistent state -> consistent (step state sentence).
Proof.
  destruct state as [su attr]. intros (Hnum & Hids & Hall).
  cbn [fst snd] in *.
  unfold step, attribute_sentence.
  destruct (length (split sentence) <? 4); [now repeat split|].
  destruct (_find_best_source _ _ _ _ _ _) as [best sim].
  set (cid := _get_id best).
  assert (Hin : In cid (map fst su) <-> In cid (map source_chunk_id attr)).
  { rewrite Hids, first_appearances_In. cbn. tauto. }
  destruct (lookup cid su) as [n|] eqn:L.
  - rewrite L. unfold consistent. cbn [fst snd].
    split; trivial. split.
    + rewrite map_app. cbn [map source_chunk_id].
      rewrite first_appearances_snoc. cbn [app].
      pose proof (lookup_Some_In _ _ L) as Hp.
      assert (Hc : In cid (map fst su))
        by (apply in_map_iff; now exists (cid, n)).
      apply Hin in Hc. apply zmem_In in Hc. rewrite Hc.
      now rewrite app_nil_r.
    + apply Forall_app. split; trivial.
      constructor; [|constructor]. exists n. cbn. split; trivial.
      now apply lookup_Some_In.
  - rewrite (lookup_app_new cid su (S (length su)) L). unfold consistent. cbn [fst snd].
    split; [|split].
    + rewrite map_app, length_app. cbn [map length snd].
      replace (length su + 1) with (S (length su)) by lia.
      now rewrite seq_S, Hnum.
    + rewrite !map_app. cbn [map fst source_chunk_id].
      rewrite first_appearances_snoc. cbn [app].
      apply lookup_None in L.
      assert (Hc : zmem cid (map source_chunk_id attr) = false)
        by (apply zmem_false; tauto).
      now rewrite Hc, Hids.
    + apply Forall_app. split.
      * eapply Forall_impl; [|exact Hall].
        intros a [m [Hm Hi]]. exists m. split; trivial.
        apply in_or_app. now left.
      * constructor; [|constructor]. exists (S (length su)). cbn.
        split; trivial. apply in_or_app. right. now left.
Qed.

Lemma loop_consistent sentences state :
  consistent state -> consistent (fold_left step sentences state).
Proof.
  revert state. induction sentences as [|s rest IH]; intros state H; cbn.
  - exact H.
  - apply IH. now apply step_consistent.
Qed.

(** Every attributed sentence is one of the sentences of the loop. *)
Lemma step_texts (all : list str) state sentence :
  In sentence all ->
  Forall (fun a => In (text a) all) (snd state) ->
  Forall (fun a => In (text a) all) (snd (step state sentence)).
Proof.
  destruct state as [su attr]. intros Hs H.
  unfold step, attribute_sentence.
  destruct (length (split sentence) <? 4); trivial.
  destruct (_find_best_source _ _ _ _ _ _) as [best sim].
  cbn [snd] in *. apply Forall_app. split; trivial.
  constructor; [exact Hs|constructor].
Qed.

Lemma loop_texts (all sentences : list str) state :
  incl sentences all ->
  Forall (fun a => In (text a) all) (snd state) ->
  Forall (fun a => In (text a) all) (snd (fold_left step sentences state)).
Proof.
  revert state. induction sentences as [|s rest IH]; intros state Hi H; cbn.
  - exact H.
  - apply IH.
    + intros x Hx. apply Hi. now right.
    + apply step_texts; trivial. apply Hi. now left.
Qed.

(** The sentences the loop attributes are those of at least four words,
    in their order, and each of them is attributed to the chunk
    [_find_best_source] returns for it. *)
Definition long_enough (sentence : str) : bool :=
  4 <=? length (split sentence).

Definition follows (sentence : str) (a : AttributedSentence) : Prop :=
  text a = sentence
  /\ source_chunk_id a
     = _get_id
         (fst (_find_best_source embedding_model _cosine_similarity
                 sentence first chunks chunk_embeddings)).

Lemma loop_follows (sentences done : list str) state :
  Forall2 follows done (snd state) ->
  Forall2 follows (done ++ filter long_enough sentences)
    (snd (fold_left step sentences state)).
Proof.
  revert done state.
  induction sentences as [|s rest IH]; intros done state H;
    cbn [fold_left filter].
  - now rewrite app_nil_r.
  - destruct state as [su attr]. unfold long_enough at 1.
    unfold step at 2, attribute_sentence.
    destruct (Nat.ltb_spec (length (split s)) 4) as [Hs|Hs].
    + replace (4 <=? length (split s)) with false
        by (symmetry; apply Nat.leb_gt; lia).
      now apply IH.
    + replace (4 <=? length (split s)) with true
        by (symmetry; apply Nat.leb_le; lia).
      change (done ++ s :: filter long_enough rest)
        with (done ++ [s] ++ filter long_enough rest).
      rewrite app_assoc. apply IH.
      destruct (_find_best_source _ _ _ _ _ _) as [best sim] eqn:B.
      cbn [snd] in *. apply Forall2_app; trivial.
      constructor; [|constructor]. split; cbn; trivial.
      now rewrite B.
Qed.

End Loop.

(** ** The display list *)

Lemma build_sources_pairs
  (sources_used : SourcesUsed) (attributed : list AttributedSentence) :
  map snd sources_used = seq 1 (length sources_used) ->
  (forall k, In k (map fst sources_used) ->
             In k (map source_chunk_id attributed)) ->
  map (fun s => (Source.chunk_id s, Source.citation s))
    (build_sources sources_used attributed)
  = map (fun item => (fst item, cite (snd item))) sources_used.
Proof.
  intros Hnum Hin. unfold build_sources.
  rewrite (sorted_by_num_seq _ _ Hnum). clear Hnum.
  induction sources_used as [|[k n] d IH]; cbn [flat_map map]; trivial.
  destruct (List.find _ attributed) as [a|] eqn:F.
  - cbn. f_equal. apply IH. intros k' Hk'. apply Hin. now right.
  - exfalso.
    assert (Hk : In k (map source_chunk_id attributed))
      by (apply Hin; now left).
    apply in_map_iff in Hk. destruct Hk as [a [Ha Hina]].
    pose proof (find_none _ _ F a Hina) as Hf. cbn in Hf.
    rewrite Ha, Z.eqb_refl in Hf. discriminate.
Qed.


(** ** Inserting the citations *)

Definition insert_citation (result : str) (attr : AttributedSentence) : str :=
  if contains (text attr) result
  then replace_first (text attr) (text attr ++ lit " " ++ citation attr)
         result
  else result.

Lemma _build_cited_answer_fold answer attributed :
  _build_cited_answer answer attributed
  = fold_left insert_citation (rev attributed) answer.
Proof. reflexivity. Qed.

Lemma insert_citation_length result attr :
  length result <= length (insert_citation result attr).
Proof.
  unfold insert_citation.
  destruct (contains (text attr) result) eqn:E; trivial.
  pose proof (replace_first_length (text attr)
                (text attr ++ lit " " ++ citation attr) result E) as H.
  rewrite !length_app in H. lia.
Qed.

Lemma insert_citation_grows result attr :
  contains (text attr) result = true ->
  length result < length (insert_citation result attr).
Proof.
  intro E. unfold insert_citation. rewrite E.
  pose proof (replace_first_length (text attr)
                (text attr ++ lit " " ++ citation attr) result E) as H.
  rewrite !length_app in H. change (length (lit " ")) with 1 in H. lia.
Qed.

Lemma insert_citations_length attributed result :
  length result <= length (fold_left insert_citation attributed result).
Proof.
  revert result. induction attributed as [|a l IH]; intro result; cbn.
  - lia.
  - pose proof (insert_citation_length result a).
    specialize (IH (insert_citation result a)). lia.
Qed.

(** An answer with an attributed sentence gets longer: the citation of the
    last attributed sentence, inserted first, always finds its sentence. *)
Lemma _build_cited_answer_grows answer attributed :
  attributed <> [] ->
  Forall (fun a => contains (text a) answer = true) attributed ->
  length answer < length (_build_cited_answer answer attributed).
Proof.
  intros Hne Hall. rewrite _build_cited_answer_fold.
  destruct (exists_last Hne) as (front & last & ->).
  rewrite rev_app_distr. cbn [rev app fold_left].
  apply Forall_app in Hall. destruct Hall as [_ Hlast].
  inversion Hlast as [|? ? Hc _]. subst.
  pose proof (insert_citation_grows answer last Hc).
  pose proof (insert_citations_length (rev front)
                (insert_citation answer last)).
  lia.
Qed.

Lemma _split_sentences_inside (answer sentence : str) :
  In sentence (_split_sentences answer) -> contains sentence answer = true.
Proof.
  unfold _split_sentences. intro H. apply filter_In in H.
  destruct H as [H _]. apply in_map_iff in H. destruct H as [p [<- Hp]].
  apply re_split_sentences_inside in Hp. destruct Hp as (pre & post & ->).
  destruct (strip_inside p) as (pre' & post' & E).
  remember (strip p) as sp eqn:Esp. clear Esp. subst p.
  replace (pre ++ (pre' ++ sp ++ post') ++ post)
    with ((pre ++ pre') ++ sp ++ (post' ++ post))
    by (now rewrite <- !app_assoc).
  apply contains_inside.
Qed.

(** ** The result of [attribute] *)

Section Attribute.

Variable Chunk : Type.
Variable _get_content : Chunk -> str.
Variable _get_id : Chunk -> Z.
Variable _get_source : Chunk -> str.
Variable Emb : Type.
Variable embedding_model : option (list str -> option (list Emb)).
Variable _cosine_similarity : Emb -> Emb -> Q.

Let run := attribute _get_content _get_id _get_source embedding_model
             _cosine_similarity.

(** [attribute] returns unless it has to compute the chunk embeddings and
    the embedding model raises. *)
Lemma attribute_returns answer chunks chunk_embeddings :
  (chunk_embeddings = None ->
   forall embed, embedding_model = Some embed ->
                 embed (map _get_content chunks) <> None) ->
  exists r, run answer chunks chunk_embeddings = Some r.
Proof.
  intro H. unfold run, attribute.
  destruct answer as [|c answer]; [eauto|].
  destruct chunks as [|first rest]; [eauto|].
  destruct chunk_embeddings as [e|].
  - destruct (fold_left _ _ _). eauto.
  - destruct embedding_model as [embed|].
    + specialize (H eq_refl embed eq_refl).
      destruct (embed _); [|congruence].
      destruct (fold_left _ _ _). eauto.
    + destruct (fold_left _ _ _). eauto.
Qed.

(** The parts of a returned answer. *)
Lemma attribute_parts answer chunks chunk_embeddings r :
  run answer chunks chunk_embeddings = Some r ->
  exists sources_used,
    consistent (sources_used, sentences r)
    /\ sources r = build_sources sources_used (sentences r)
    /\ answer_with_citations r = _build_cited_answer answer (sentences r)
    /\ Forall (fun a => In (text a) (_split_sentences answer))
         (sentences r).
Proof.
  assert (Hempty : consistent ([], [])) by (repeat split; constructor).
  unfold run, attribute.
  destruct answer as [|c answer];
    [intro E; injection E as <-; exists []; repeat split; trivial|].
  destruct chunks as [|first rest];
    [intro E; injection E as <-; exists []; repeat split; trivial|].
  set (chunks := first :: rest). set (ans := c :: answer).
  assert (G : forall embs,
             let st := fold_left
                         (attribute_sentence _get_content _get_id _get_source
                            embedding_model _cosine_similarity first chunks
                            embs)
                         (_split_sentences ans) ([], []) in
             consistent st
             /\ Forall (fun a => In (text a) (_split_sentences ans))
                  (snd st)).
  { intros embs st. split.
    - now apply loop_consistent.
    - apply loop_texts; [apply incl_refl|constructor]. }
  destruct chunk_embeddings as [e|]; [|destruct embedding_model as [embed|]];
    try destruct (embed _); try discriminate;
    match goal with
    | |- context [fold_left (attribute_sentence _ _ _ _ _ _ _ ?embs) _ _] =>
        specialize (G embs)
    end;
    cbv zeta in G; destruct (fold_left _ _ _) as [su attr];
    destruct G as [G1 G2];
    intro E; injection E as <-; exists su; cbn; repeat split; trivial;
    apply G1.
Qed.

(** The embeddings the loop compares a sentence with: the ones supplied,
    or else those the embedding model computes from the contents of the
    chunks. *)
Definition embeddings_used
  (chunks : list Chunk) (chunk_embeddings : option (list Emb))
  : option (list Emb) :=
  match chunk_embeddings, embedding_model with
  | None, Some embed => embed (map _get_content chunks)
  | _, _ => chunk_embeddings
  end.

Lemma attribute_follows answer first rest chunk_embeddings r :
  answer <> [] ->
  run answer (first :: rest) chunk_embeddings = Some r ->
  Forall2
    (follows _get_id embedding_model _cosine_similarity first (first :: rest)
       (embeddings_used (first :: rest) chunk_embeddings))
    (filter long_enough (_split_sentences answer)) (sentences r).
Proof.
  intro Ha. unfold run, attribute, embeddings_used.
  destruct answer as [|c answer]; [congruence|].
  set (chunks := first :: rest). set (ans := c :: answer).
  assert (G : forall embs,
             Forall2
               (follows _get_id embedding_model _cosine_similarity first
                  chunks embs)
               (filter long_enough (_split_sentences ans))
               (snd (fold_left
                       (attribute_sentence _get_content _get_id _get_source
                          embedding_model _cosine_similarity first chunks
                          embs)
                       (_split_sentences ans) ([], [])))).
  { intro embs.
    apply (@loop_follows Chunk _get_content _get_id _get_source Emb
             embedding_model _cosine_similarity first chunks embs
             (_split_sentences ans) [] ([], [])).
    constructor. }
  destruct chunk_embeddings as [e|]; [|destruct embedding_model as [embed|]];
    try destruct (embed _) as [embs|]; try discriminate;
    match goal with
    | |- context [fold_left (attribute_sentence _ _ _ _ _ _ _ ?embs) _ _] =>
        specialize (G embs)
    end;
    destruct (fold_left _ _ _) as [su attr];
    intro E; injection E as <-; exact G.
Qed.

(** C3. A call of [attribute] returns unless the chunk embeddings have to
    be computed and the embedding model raises. In the answer it returns
    for a non-empty answer and non-empty chunks, the attributed sentences
    are the sentences of the answer that have at least four words, in
    their order, each with the chunk [_find_best_source] returns for it.
    The sources carry the citation marks [1], ..., [K] in this order, their
    chunks are the chunks of the attributed sentences in the order of their
    first appearance, no chunk occurs twice, every attributed sentence
    carries the mark of the source that holds its chunk, and two attributed
    sentences carry the same mark exactly when they have the same chunk. *)
Theorem C3_citations_dense answer chunks chunk_embeddings :
  (chunk_embeddings = None ->
   forall embed, embedding_model = Some embed ->
                 embed (map _get_content chunks) <> None) ->
  exists r,
    attribute _get_content _get_id _get_source embedding_model
      _cosine_similarity answer chunks chunk_embeddings = Some r
    /\ (answer <> [] ->
        forall first rest,
          chunks = first :: rest ->
          Forall2
            (fun sentence a =>
               text a = sentence
               /\ source_chunk_id a
                  = _get_id
                      (fst (_find_best_source embedding_model
                              _cosine_similarity sentence first chunks
                              (embeddings_used chunks chunk_embeddings))))
            (filter (fun sentence => 4 <=? length (split sentence))
               (_split_sentences answer))
            (sentences r))
    /\ let K := length (sources r) in
       map Source.citation (sources r) = map cite (seq 1 K)
       /\ map Source.chunk_id (sources r)
          = first_appearances [] (map source_chunk_id (sentences r))
       /\ NoDup (map Source.chunk_id (sources r))
       /\ (forall s, In s (sentences r) ->
             exists n src,
               1 <= n <= K
               /\ citation s = cite n
               /\ nth_error (sources r) (n - 1) = Some src
               /\ Source.chunk_id src = source_chunk_id s)
       /\ (forall s1 s2, In s1 (sentences r) -> In s2 (sentences r) ->
             (source_chunk_id s1 = source_chunk_id s2
              <-> citation s1 = citation s2)).
Proof.
  intro Hret. destruct (attribute_returns answer chunks Hret) as [r Hr].
  exists r. split; [exact Hr|].
  split.
  { intros Ha first rest ->. now apply attribute_follows. }
  destruct (attribute_parts _ _ _ Hr)
    as (su & (Hnum & Hids & Hall) & Hsrc & _ & _).
  cbn [fst snd] in *.
  assert (Hin : forall k, In k (map fst su) ->
                          In k (map source_chunk_id (sentences r))).
  { intros k Hk. rewrite Hids in Hk.
    now apply first_appearances_In in Hk. }
  pose proof (build_sources_pairs su (sentences r) Hnum Hin) as P.
  rewrite <- Hsrc in P.
  assert (Pid : map Source.chunk_id (sources r) = map fst su).
  { apply (f_equal (map fst)) in P. rewrite !map_map in P. exact P. }
  assert (Pcite : map Source.citation (sources r) = map cite (map snd su)).
  { apply (f_equal (map snd)) in P. rewrite !map_map in P.
    now rewrite map_map. }
  assert (PK : length (sources r) = length su).
  { apply (f_equal (@length _)) in Pid. now rewrite !length_map in Pid. }
  assert (Hnd : NoDup (map fst su))
    by (rewrite Hids; apply first_appearances_NoDup).
  (* the position of an entry of the dictionary is its number less one *)
  assert (Hpos : forall k n, In (k, n) su ->
                   1 <= n <= length su /\ nth_error su (n - 1) = Some (k, n)).
  { intros k n Hkn. apply In_nth_error in Hkn. destruct Hkn as [i Hi].
    pose proof (map_nth_error snd _ _ Hi) as Hs. rewrite Hnum in Hs.
    apply nth_error_seq_inv in Hs. cbn [snd] in Hs. destruct Hs as [-> Hlt].
    split; [lia|]. now replace (1 + i - 1) with i by lia. }
  rewrite Forall_forall in Hall.
  cbv zeta. rewrite PK. split; [|split; [|split; [|split]]].
  - now rewrite Pcite, Hnum.
  - now rewrite Pid.
  - now rewrite Pid.
  - intros s Hs.
    destruct (Hall s Hs) as [n [Hc Hkn]].
    destruct (Hpos _ _ Hkn) as [Hn Hnth].
    pose proof (map_nth_error fst _ _ Hnth) as Hf.
    rewrite <- Pid, nth_error_map in Hf. cbn [fst] in Hf.
    destruct (nth_error (sources r) (n - 1)) as [src|] eqn:Hsn;
      [|discriminate].
    injection Hf as Hf. exists n, src. auto.
  - intros s1 s2 H1 H2.
    destruct (Hall s1 H1) as [n1 [Hc1 Hk1]].
    destruct (Hall s2 H2) as [n2 [Hc2 Hk2]].
    destruct (Hpos _ _ Hk1) as [B1 N1]. destruct (Hpos _ _ Hk2) as [B2 N2].
    rewrite Hc1, Hc2. split; intro E.
    + f_equal.
      pose proof (proj1 (NoDup_nth_error (map fst su)) Hnd) as Hinj.
      assert (n1 - 1 = n2 - 1); [|lia].
      apply Hinj.
      * rewrite length_map. lia.
      * rewrite !nth_error_map, N1, N2. cbn. now rewrite E.
    + apply cite_inj in E. subst n2. congruence.
Qed.

(** C4, as the code has it. Citation insertion looks for no citation that
    is already there: the answer [attribute] returns equals the answer it
    was given exactly when no sentence was attributed. So a second
    application to an [answer_with_citations] reproduces it only if it
    attributes no sentence at all; otherwise it inserts citations again.
    With a single attributed sentence the mark is inserted directly after
    the first occurrence of the sentence, the rest of the answer being
    kept. *)
Theorem C4_citation_insertion answer chunks chunk_embeddings r :
  attribute _get_content _get_id _get_source embedding_model
    _cosine_similarity answer chunks chunk_embeddings = Some r ->
  (answer_with_citations r = answer <-> sentences r = [])
  /\ (forall r',
        attribute _get_content _get_id _get_source embedding_model
          _cosine_similarity (answer_with_citations r) chunks
          chunk_embeddings = Some r' ->
        (answer_with_citations r' = answer_with_citations r
         <-> sentences r' = []))
  /\ (forall a i,
        sentences r = [a] -> find (text a) answer = Some i ->
        answer_with_citations r
        = firstn i answer ++ (text a ++ lit " " ++ citation a)
          ++ skipn (i + length (text a)) answer).
Proof.
  assert (G : forall ans res,
             run ans chunks chunk_embeddings = Some res ->
             (answer_with_citations res = ans <-> sentences res = [])).
  { intros ans res Hres.
    destruct (attribute_parts _ _ _ Hres) as (su & _ & _ & Hawc & Htexts).
    rewrite Hawc. split.
    - intro E. destruct (sentences res) as [|a l] eqn:Es; trivial.
      exfalso.
      assert (Hlt : length ans
                    < length (_build_cited_answer ans (a :: l))).
      { apply _build_cited_answer_grows; [discriminate|].
        eapply Forall_impl; [|exact Htexts].
        intros x Hx. now apply _split_sentences_inside. }
      rewrite E in Hlt. lia.
    - intros ->. reflexivity. }
  intro Hr. split; [now apply G|]. split; [intros r' Hr'; now apply G|].
  intros a i Ha Hi.
  destruct (attribute_parts _ _ _ Hr) as (su & _ & _ & Hawc & _).
  rewrite Hawc, Ha. unfold _build_cited_answer. cbn [rev app fold_left].
  assert (Hc : contains (text a) answer = true)
    by (unfold contains; now rewrite Hi).
  rewrite Hc. now apply replace_first_at.
Qed.

End Attribute.

(** ** A worked answer *)

(** Chunks as pairs of an id and a content, an attributor without
    embedding model. *)
Definition demo_attribute (answer : str) (chunks : list (Z * string))
  : option AttributedAnswer :=
  attribute (fun chunk : Z * string => lit (snd chunk)) fst
    (fun _ => lit "recipes.csv")
    (@None (list str -> option (list unit))) (fun _ _ => 0%Q)
    answer chunks None.

Definition salad_answer : str :=
  lit "Romaine lettuce is the base. Parmesan cheese adds the saltiness.".

Definition salad_chunks : list (Z * string) :=
  [(7%Z, "romaine, parmesan"%string); (12%Z, "croutons"%string)].

(** An attributor with an embedding model. The model tells the topic of a
    text by the ingredient it names, and two texts are similar when they
    have the same topic. *)
Definition topic (t : str) : nat :=
  if contains (lit "omaine") t then 1
  else if contains (lit "armesan") t then 2
  else 0.

Definition topic_attribute (answer : str) (chunks : list (Z * string))
  : option AttributedAnswer :=
  attribute (fun chunk : Z * string => lit (snd chunk)) fst
    (fun _ => lit "recipes.csv")
    (Some (fun texts => Some (map topic texts)))
    (fun a b => if a =? b then 1%Q else 0%Q)
    answer chunks None.

Definition pantry_answer : str :=
  lit "Romaine lettuce is the base. Parmesan cheese adds the saltiness. Toss it. Keep the romaine leaves crisp.".

Definition pantry_chunks : list (Z * string) :=
  [(7%Z, "croutons"%string); (12%Z, "romaine lettuce"%string);
   (9%Z, "parmesan cheese"%string)].

(** The three sentences of four words or more cite the second, the third
    and again the second chunk: chunk 12 is [1], chunk 9 is [2], and the
    first chunk, which no sentence resembles, is not cited. *)
Lemma C3_citations_dense_witness :
  exists r,
    topic_attribute pantry_answer pantry_chunks = Some r
    /\ map Source.citation (sources r)
       = map cite (seq 1 (length (sources r)))
    /\ NoDup (map Source.chunk_id (sources r))
    /\ map (fun a => (citation a, source_chunk_id a)) (sentences r)
       = [(lit "[1]", 12%Z); (lit "[2]", 9%Z); (lit "[1]", 12%Z)]
    /\ map (fun src => (Source.citation src, Source.chunk_id src))
         (sources r)
       = [(lit "[1]", 12%Z); (lit "[2]", 9%Z)].
Proof.
  destruct (@C3_citations_dense _ (fun chunk : Z * string => lit (snd chunk))
              fst (fun _ => lit "recipes.csv") nat
              (Some (fun texts => Some (map topic texts)))
              (fun a b => if a =? b then 1%Q else 0%Q)
              pantry_answer pantry_chunks None)
    as (r & Hr & _ & Hc & _ & Hn & _).
  - intros _ embed E. injection E as <-. discriminate.
  - exists r. split; [exact Hr|]. split; [exact Hc|]. split; [exact Hn|].
    change (topic_attribute pantry_answer pantry_chunks = Some r) in Hr.
    vm_compute in Hr. injection Hr as <-. split; reflexivity.
Defined.

Lemma C4_citation_insertion_witness :
  exists r,
    demo_attribute salad_answer salad_chunks = Some r
    /\ (answer_with_citations r = salad_answer <-> sentences r = []).
Proof.
  destruct (demo_attribute salad_answer salad_chunks) as [r|] eqn:E.
  - exists r. split; trivial.
    exact (proj1 (@C4_citation_insertion _
                    (fun chunk : Z * string => lit (snd chunk)) fst
                    (fun _ => lit "recipes.csv") unit None (fun _ _ => 0%Q)
                    salad_answer salad_chunks None r E)).
  - vm_compute in E. discriminate E.
Defined.

(** One sentence, attributed twice: the second application inserts the
    citation again. *)
Lemma C4_counterexample :
  exists r1 r2,
    demo_attribute (lit "Romaine lettuce is the base.") salad_chunks
    = Some r1
    /\ answer_with_citations r1 = lit "Romaine lettuce is the base. [1]"
    /\ demo_attribute (answer_with_citations r1) salad_chunks = Some r2
    /\ answer_with_citations r2
       = lit "Romaine lettuce is the base. [1] [1]"
    /\ answer_with_citations r2 <> answer_with_citations r1.
Proof.
  destruct (demo_attribute (lit "Romaine lettuce is the base.")
              salad_chunks) as [r1|] eqn:E1;
    [|vm_compute in E1; discriminate E1].
  vm_compute in E1. injection E1 as <-.
  eexists. eexists. split; [reflexivity|]. split; [reflexivity|].
  split; [vm_compute; reflexivity|]. split; [reflexivity|].
  cbn [answer_with_citations]. intro H. discriminate H.
Qed.

End AttributionProps.

(* ===================================================================== *)
(** * Properties of the compilation worker *)
(* ===================================================================== *)

Module CompilationProps.
Import Py Compilation.
Local Open Scope nat_scope.

(** ** Rows and assignments *)

Lemma assign_job_id (updates : list JobUpdate) (j : Job.t) :
  Job.id (fold_left assign_job updates j) = Job.id j.
Proof.
  revert j. induction updates as [|u us IH]; intro j; cbn; trivial.
  rewrite IH. now destruct u.
Qed.

Lemma assign_agent_id (updates : list AgentUpdate) (a : Agent.t) :
  Agent.id (fold_left assign_agent updates a) = Agent.id a.
Proof.
  revert a. induction updates as [|u us IH]; intro a; cbn; trivial.
  rewrite IH. now destruct u.
Qed.

Lemma assign_agent_name (updates : list AgentUpdate) (a : Agent.t) :
  Agent.name (fold_left assign_agent updates a) = Agent.name a.
Proof.
  revert a. induction updates as [|u us IH]; intro a; cbn; trivial.
  rewrite IH. now destruct u.
Qed.

Lemma find_job_update_job db id updates :
  find_job (update_job db id updates) id
  = option_map (fold_left assign_job updates) (find_job db id).
Proof.
  unfold find_job, update_job. cbn [jobs].
  induction (jobs db) as [|j l IH]; cbn [map List.find option_map]; trivial.
  destruct (Job.id j =? id) eqn:E.
  - now rewrite assign_job_id, E.
  - now rewrite E.
Qed.

Lemma find_agent_update_agent db id updates :
  find_agent (update_agent db id updates) id
  = option_map (fold_left assign_agent updates) (find_agent db id).
Proof.
  unfold find_agent, update_agent. cbn [agents].
  induction (agents db) as [|a l IH]; cbn [map List.find option_map]; trivial.
  destruct (Agent.id a =? id) eqn:E.
  - now rewrite assign_agent_id, E.
  - now rewrite E.
Qed.

Lemma find_job_update_agent db id updates job_id :
  find_job (update_agent db id updates) job_id = find_job db job_id.
Proof. reflexivity. Qed.

Lemma find_agent_update_job db id updates agent_id :
  find_agent (update_job db id updates) agent_id = find_agent db agent_id.
Proof. reflexivity. Qed.

Lemma update_agent_nil db id : update_agent db id [] = db.
Proof.
  destruct db as [ags js cs]. unfold update_agent. cbn. f_equal.
  rewrite <- (map_id ags) at 2. apply map_ext.
  intro a. now destruct (Agent.id a =? id).
Qed.

(** Assignments to the progress of a job leave its outcome alone. *)
Definition benign (u : JobUpdate) : Prop :=
  match u with
  | SetProgress _ | SetCurrentStep _ => True
  | _ => False
  end.

Lemma benign_outcome (updates : list JobUpdate) (j : Job.t) :
  Forall benign updates ->
  Job.status (fold_left assign_job updates j) = Job.status j
  /\ Job.completed_at (fold_left assign_job updates j) = Job.completed_at j.
Proof.
  intro H. revert j. induction H as [|u us Hu _ IH]; intro j; cbn.
  - now split.
  - destruct (IH (assign_job j u)) as [-> ->].
    destruct u; cbn in *; tauto.
Qed.

(** ** The compiler leaves the jobs alone and deletes no agent *)

Section Compiler.

Variable env : Env.

Lemma _save_to_vector_db_jobs embed agent_name context db :
  jobs (_save_to_vector_db env embed agent_name context db) = jobs db.
Proof.
  unfold _save_to_vector_db.
  repeat match goal with
  | |- context [match ?x with _ => _ end] => destruct x
  end; reflexivity.
Qed.

Lemma _save_to_vector_db_agent embed agent_name context db id a :
  find_agent db id = Some a ->
  exists a', find_agent (_save_to_vector_db env embed agent_name context db)
               id = Some a'.
Proof.
  intro H. unfold _save_to_vector_db.
  destruct (_chunk_text context); [eauto|].
  destruct (embed_all embed _); [|eauto].
  destruct (raises env OpVectorQuery); [eauto|].
  destruct (find_agent_by_name db agent_name) as [found|]; [|eauto].
  destruct (raises env OpInsertChunks); [eauto|].
  unfold find_agent, update_agent. cbn [agents].
  unfold find_agent in H.
  induction (agents db) as [|x others IH]; cbn [map List.find] in *;
    [discriminate|].
  destruct (Agent.id x =? Agent.id found) eqn:E1.
  - rewrite assign_agent_id.
    destruct (Agent.id x =? id); [eauto|now apply IH].
  - destruct (Agent.id x =? id); [eauto|now apply IH].
Qed.

Lemma compile_jobs agent_name parsed_data db :
  jobs (fst (compile env agent_name parsed_data db)) = jobs db.
Proof.
  unfold compile. destruct (raises env OpSaveAgent); trivial.
  destruct (embedding_model env); trivial. cbn [fst].
  apply _save_to_vector_db_jobs.
Qed.

Lemma compile_agent agent_name parsed_data db id a :
  find_agent db id = Some a ->
  exists a', find_agent (fst (compile env agent_name parsed_data db)) id
             = Some a'.
Proof.
  intro H. unfold compile. destruct (raises env OpSaveAgent); [eauto|].
  destruct (embedding_model env); [|eauto]. cbn [fst].
  now apply _save_to_vector_db_agent with (a := a).
Qed.

Lemma compile_find_job agent_name parsed_data db job_id :
  find_job (fst (compile env agent_name parsed_data db)) job_id
  = find_job db job_id.
Proof. unfold find_job. now rewrite compile_jobs. Qed.

(** ** A vector save that commits *)

Lemma _build_text_context_nonempty parsed_data :
  parsed_data <> [] -> _build_text_context parsed_data <> [].
Proof.
  destruct parsed_data as [|p ps]; [congruence|]. intros _.
  unfold _build_text_context. cbv zeta.
  destruct (_ <? _).
  - intro H. apply app_eq_nil in H. destruct H as [_ H]. discriminate H.
  - cbn [flat_map context_parts app join].
    destruct (_ ++ flat_map context_parts ps); discriminate.
Qed.

Lemma _chunk_text_nonempty text : text <> [] -> _chunk_text text <> [].
Proof.
  destruct text as [|c t]; [congruence|]. intros _.
  unfold _chunk_text. cbn [chunk_loop].
  replace (0 <? length (c :: t)) with true by reflexivity.
  destruct (_ =? _); discriminate.
Qed.

(** The bound on the turns of the chunking loop is never reached: more
    turns give the same chunks. *)
Lemma chunk_loop_enough text :
  forall turns turns' start,
    length text - start < turns -> length text - start < turns' ->
    chunk_loop turns start text = chunk_loop turns' start text.
Proof.
  induction turns as [|n IH]; intros [|n'] start H H'; try lia.
  cbn [chunk_loop]. destruct (Nat.ltb_spec start (length text)); trivial.
  cbv zeta. destruct (_ =? _); trivial. f_equal. apply IH; lia.
Qed.

Lemma embed_all_total embed texts :
  (forall text, embed text <> None) ->
  exists embeddings,
    embed_all embed texts = Some embeddings
    /\ length embeddings = length texts.
Proof.
  intro H. induction texts as [|t ts (es & E & L)]; cbn.
  - now exists [].
  - destruct (embed t) as [e|] eqn:Ee; [|now apply H in Ee].
    rewrite E. exists (e :: es). cbn. auto.
Qed.

Lemma filter_none (A : Type) (f : A -> bool) (l : list A) :
  filter f (filter (fun x => negb (f x)) l) = [].
Proof.
  induction l as [|a l IH]; cbn; trivial.
  destruct (f a) eqn:E; cbn; trivial. now rewrite E.
Qed.

Lemma filter_all (A : Type) (f : A -> bool) (l : list A) :
  (forall x, In x l -> f x = true) -> filter f l = l.
Proof.
  intro H. induction l as [|a l IH]; cbn; trivial.
  rewrite (H a (or_introl eq_refl)). f_equal.
  apply IH. intros x Hx. apply H. now right.
Qed.

(** When nothing in the way of the vector save fails, the agent's old
    chunks are replaced by the new ones and [chunk_count] is their
    number. *)
Lemma compile_saved agent_name parsed_data d embed found a :
  embedding_model env = Some embed ->
  (forall text, embed text <> None) ->
  raises env OpSaveAgent = None ->
  raises env OpVectorQuery = None ->
  raises env OpDeleteChunks = None ->
  raises env OpInsertChunks = None ->
  parsed_data <> [] ->
  find_agent_by_name d agent_name = Some found ->
  find_agent d (Agent.id found) = Some a ->
  let d' := fst (compile env agent_name parsed_data d) in
  exists n,
    find_agent d' (Agent.id found)
    = Some (fold_left assign_agent [SetChunkCount n] a)
    /\ count_chunks d' (Agent.id found) = n
    /\ 0 < n.
Proof.
  intros Hm Hembed Hs Hq Hd Hi Hp Hname Hid. cbv zeta.
  unfold compile. rewrite Hs, Hm. cbn [fst].
  unfold _save_to_vector_db.
  pose proof (_chunk_text_nonempty
                (_build_text_context_nonempty Hp)) as Hc.
  destruct (_chunk_text (_build_text_context parsed_data))
    as [|c cs] eqn:Ec; [congruence|].
  destruct (embed_all_total embed (c :: cs) Hembed) as (es & Ee & Le).
  rewrite Ee, Hq, Hname, Hd, Hi.
  set (new_chunks := map _ (combine (c :: cs) es)).
  exists (length new_chunks). split; [|split].
  - rewrite find_agent_update_agent.
    change (find_agent _ (Agent.id found)) with (find_agent d (Agent.id found)).
    now rewrite Hid.
  - unfold count_chunks, update_agent. cbn [document_chunks].
    rewrite filter_app, length_app.
    rewrite (filter_none (fun c => Chunk.agent_id c =? Agent.id found)).
    rewrite filter_all; trivial.
    intros x Hx. subst new_chunks. apply in_map_iff in Hx.
    destruct Hx as [ce [<- _]]. cbn. apply Nat.eqb_refl.
  - subst new_chunks. rewrite length_map, length_combine, Le.
    cbn [length]. lia.
Qed.

End Compiler.

(** ** The worker, path by path *)

(** The operations of the worker itself: an exception of one of them
    reaches the [except] block. Those of [compile] ([OpSaveAgent],
    [OpVectorQuery], [OpDeleteChunks], [OpInsertChunks]) do not. *)
Definition worker_ops : list Op :=
  [ OpQuery; OpProgress 10; OpCreateAnalyzer; OpProgress 20;
    OpCreateCompiler; OpProgress 30; OpProgress 80; OpProgress 90;
    OpFinalCommit ].

Section Worker.

Variable env : Env.
Variable agent_id job_id : nat.
Variable system_prompt : str.
Variable files_data : list FileInfo.
Variable db0 : DB.
Variable job0 : Job.t.
Variable agent0 : Agent.t.
Hypothesis Hjob : find_job db0 job_id = Some job0.
Hypothesis Hagent : find_agent db0 agent_id = Some agent0.

(** The committed job row still has the outcome it started with. *)
Definition untouched (d : DB) : Prop :=
  exists j, find_job d job_id = Some j
            /\ Job.status j = Job.status job0
            /\ Job.completed_at j = Job.completed_at job0.

Definition agent_exists (d : DB) : Prop :=
  exists a, find_agent d agent_id = Some a.

Lemma untouched_start : untouched db0.
Proof. exists job0. auto. Qed.

Lemma untouched_progress d p s :
  untouched d ->
  untouched (update_job d job_id [SetProgress p; SetCurrentStep s]).
Proof.
  intros (j & Hj & Hs & Hc). unfold untouched.
  rewrite find_job_update_job, Hj. cbn [option_map].
  eexists. split; [reflexivity|]. cbn. auto.
Qed.

Lemma untouched_compile d agent_name parsed_data :
  untouched d -> untouched (fst (compile env agent_name parsed_data d)).
Proof.
  intros (j & Hj & Hs & Hc). exists j. now rewrite compile_find_job.
Qed.

Lemma agent_exists_start : agent_exists db0.
Proof. exists agent0. auto. Qed.

Lemma agent_exists_update_job d updates :
  agent_exists d -> agent_exists (update_job d job_id updates).
Proof. exact (fun H => H). Qed.

Lemma agent_exists_compile d agent_name parsed_data :
  agent_exists d ->
  agent_exists (fst (compile env agent_name parsed_data d)).
Proof. intros [a Ha]. now apply compile_agent with (a := a). Qed.

Create HintDb worker.

#[local] Hint Resolve untouched_start untouched_progress untouched_compile
  agent_exists_start agent_exists_update_job agent_exists_compile : worker.

(** The database [compile] starts from and the one it leaves. *)
Definition before_compile : DB :=
  update_job
    (update_job
       (update_job db0 job_id
          [SetProgress 10; SetCurrentStep (lit "Analyzing system prompt")])
       job_id
       [SetProgress 20;
        SetCurrentStep (lit "Initializing knowledge compiler")])
    job_id
    [SetProgress 30; SetCurrentStep (lit "Compiling knowledge base")].

Definition compiled : DB * option nat :=
  compile env (Agent.name agent0) (map parse_file_info files_data)
    before_compile.

Definition ready_updates : list AgentUpdate :=
  let prompt_analysis :=
    PromptAnalyzer.analyze_prompt (llm env) system_prompt in
  [ SetStatus (lit "ready");
    SetDomain (PromptAnalyzer.domain prompt_analysis);
    SetDomainKeywords (PromptAnalyzer.domain_keywords prompt_analysis);
    SetEntityCount match snd compiled with Some n => n | None => 0 end ].

Let start : World := {| db := db0; dirty_job := []; dirty_agent := [] |}.

Ltac simp_world :=
  cbn [db dirty_job dirty_agent app]; rewrite ?update_agent_nil.

Ltac raised op :=
  intros; split;
  [ exists op; split; [cbn; tauto|assumption]
  | split; simp_world; auto 10 with worker ].

(** What the [try] block leaves, on each of its exits. *)
Lemma try_block_outcome :
  match try_block env agent_id job_id system_prompt files_data start with
  | (w, inl e) =>
      (exists op, In op worker_ops /\ raises env op = Some e)
      /\ untouched (db w)
      /\ agent_exists (db w)
  | (w, inr _) =>
      (forall op, In op worker_ops -> raises env op = None)
      /\ (exists j, find_job (db w) job_id = Some j
                    /\ Job.status j = lit "completed"
                    /\ Job.completed_at j = Some (now env))
      /\ document_chunks (db w) = document_chunks (fst compiled)
      /\ find_agent (db w) agent_id
         = option_map (fold_left assign_agent ready_updates)
             (find_agent (fst compiled) agent_id)
      /\ agent_exists (fst compiled)
  end.
Proof.
  unfold try_block. subst start. cbn [db]. rewrite Hjob, Hagent.
  cbv beta iota delta [bind attempt _update_progress commit set_job
                       set_agent compile_and_continue ret flushed].
  simp_world.
  destruct (raises env OpQuery) eqn:E1; [raised OpQuery|].
  destruct (raises env (OpProgress 10)) eqn:E2; [raised (OpProgress 10)|].
  simp_world.
  destruct (raises env OpCreateAnalyzer) eqn:E3; [raised OpCreateAnalyzer|].
  destruct (raises env (OpProgress 20)) eqn:E4; [raised (OpProgress 20)|].
  simp_world.
  destruct (raises env OpCreateCompiler) eqn:E5; [raised OpCreateCompiler|].
  destruct (raises env (OpProgress 30)) eqn:E6; [raised (OpProgress 30)|].
  simp_world.
  fold before_compile.
  rewrite (surjective_pairing
             (compile env (Agent.name agent0)
                (map parse_file_info files_data) before_compile)).
  fold compiled. simp_world.
  assert (U : untouched (fst compiled))
    by (unfold compiled, before_compile; auto 10 with worker).
  assert (A : agent_exists (fst compiled))
    by (unfold compiled, before_compile; auto 10 with worker).
  destruct (raises env (OpProgress 80)) eqn:E7; [raised (OpProgress 80)|].
  simp_world.
  destruct (raises env (OpProgress 90)) eqn:E8; [raised (OpProgress 90)|].
  simp_world.
  destruct (raises env OpFinalCommit) eqn:E9; [raised OpFinalCommit|].
  simp_world.
  split; [|split; [|split; [|split]]].
  - intros op Hin. cbn in Hin.
    repeat destruct Hin as [<-|Hin]; try assumption. contradiction.
  - destruct U as (j & Hj & _).
    rewrite find_job_update_agent, find_job_update_job.
    rewrite !find_job_update_job, Hj. cbn [option_map].
    eexists. split; [reflexivity|]. cbn. auto.
  - reflexivity.
  - now rewrite find_agent_update_agent.
  - exact A.
Qed.

Lemma status_names_differ :
  lit "failed" <> lit "in_progress" /\ lit "completed" <> lit "in_progress"
  /\ lit "completed" <> lit "failed".
Proof. repeat split; intro H; discriminate H. Qed.

(** C9, as the code has it. An exception reaches the [except] block
    exactly when one of the worker's own operations raises; an exception
    inside [compiler.compile] is caught and the run goes on. When the block
    is reached and its own update commits, the job ends failed with the
    first 500 characters of the exception text as error message and with
    [completed_at] set, and the agent ends failed; when that update raises,
    the session is rolled back and the job stays in progress. When no
    exception reaches the block the job ends completed and the agent
    ready. In every case [completed_at] is set exactly when the job is no
    longer in progress. *)
Theorem C9_failed_run :
  Job.status job0 = lit "in_progress" ->
  Job.completed_at job0 = None ->
  let run := try_block env agent_id job_id system_prompt files_data start in
  let final :=
    _run_compilation_thread env agent_id job_id system_prompt files_data db0
  in
  ((exists op e, In op worker_ops /\ raises env op = Some e)
   <-> exists e, snd run = inl e)
  /\ exists job' agent',
       find_job final job_id = Some job'
       /\ find_agent final agent_id = Some agent'
       /\ (Job.completed_at job' <> None
           <-> Job.status job' <> lit "in_progress")
       /\ (forall e,
             snd run = inl e -> raises env OpErrorUpdate = None ->
             Job.status job' = lit "failed"
             /\ Job.error_message job' = Some (firstn 500 e)
             /\ length (firstn 500 e) <= 500
             /\ Job.completed_at job' = Some (now env)
             /\ Agent.status agent' = lit "failed")
       /\ (forall e,
             snd run = inl e -> raises env OpErrorUpdate <> None ->
             Job.status job' = lit "in_progress"
             /\ Job.completed_at job' = None)
       /\ (snd run = inr tt ->
           Job.status job' = lit "completed"
           /\ Job.completed_at job' = Some (now env)
           /\ Agent.status agent' = lit "ready").
Proof.
  intros Hs0 Hc0 run final.
  destruct status_names_differ as (Nf & Nc & _).
  pose proof try_block_outcome as O. fold run in O.
  subst final. unfold _run_compilation_thread. fold start. fold run.
  destruct run as [w [e|[]]]; cbn [snd].
  - (* an exception reached the except block *)
    destruct O as ((op & Hin & Hop) & (j & Hj & Hjs & Hjc) & (a & Ha)).
    split; [split; eauto|].
    unfold on_error. destruct (raises env OpErrorUpdate) eqn:Eh.
    + unfold rolled_back. cbn [db]. exists j, a.
      rewrite Hjs, Hjc, Hs0, Hc0.
      repeat split; try tauto; try congruence.
    + unfold flushed. cbn [db dirty_job dirty_agent].
      rewrite find_job_update_agent, find_job_update_job, Hj.
      rewrite find_agent_update_agent, find_agent_update_job, Ha.
      cbn [option_map]. rewrite !fold_left_app. cbn [fold_left].
      eexists. eexists. split; [reflexivity|]. split; [reflexivity|].
      cbn [fold_left assign_job assign_agent Job.status Job.completed_at
           Job.error_message Agent.status].
      split; [split; congruence|]. split; [|split; [tauto|discriminate]].
      intros e' E _. injection E as <-.
      repeat split. apply firstn_le_length.
  - (* the try block ran to its end *)
    destruct O as (Hnone & (j & Hj & Hjs & Hjc) & _ & Hfa & (a & Ha)).
    split.
    + split; [|intros [e E]; discriminate E].
      intros (op & e & Hin & Hop). rewrite (Hnone op Hin) in Hop.
      discriminate Hop.
    + rewrite Hfa, Ha. cbn [option_map].
      eexists. eexists. split; [exact Hj|]. split; [reflexivity|].
      rewrite Hjs, Hjc. unfold ready_updates. cbn.
      repeat split; try congruence; try discriminate.
Qed.

(** C2, as the code has it. After a run in which none of the worker's own
    operations raises the agent is ready, whether or not chunks were
    stored. If moreover the vector save commits (the embedding model is
    loaded and embeds every chunk, writing the agent files, finding the
    agent by its name, deleting its old chunks and inserting the new ones
    raise nothing, there is at least one file, and the agent found by name
    is this agent), then [chunk_count] is the number of [DocumentChunk]
    rows of the agent, and both are strictly positive. *)
Theorem C2_ready_agent_chunks :
  (forall op, In op worker_ops -> raises env op = None) ->
  let final :=
    _run_compilation_thread env agent_id job_id system_prompt files_data db0
  in
  exists agent',
    find_agent final agent_id = Some agent'
    /\ Agent.status agent' = lit "ready"
    /\ (forall embed found,
          embedding_model env = Some embed ->
          (forall text, embed text <> None) ->
          raises env OpSaveAgent = None ->
          raises env OpVectorQuery = None ->
          raises env OpDeleteChunks = None ->
          raises env OpInsertChunks = None ->
          files_data <> [] ->
          find_agent_by_name db0 (Agent.name agent0) = Some found ->
          Agent.id found = agent_id ->
          exists n,
            Agent.chunk_count agent' = Some n
            /\ count_chunks final agent_id = n
            /\ 0 < n).
Proof.
  intros Hnone final.
  pose proof try_block_outcome as O.
  subst final. unfold _run_compilation_thread. fold start.
  destruct (try_block env agent_id job_id system_prompt files_data start)
    as [w [e|[]]].
  - destruct O as ((op & Hin & Hop) & _). rewrite (Hnone op Hin) in Hop.
    discriminate Hop.
  - destruct O as (_ & _ & Hchunks & Hfa & (a & Ha)).
    rewrite Hfa, Ha. cbn [option_map]. eexists.
    split; [reflexivity|]. split; [reflexivity|].
    intros embed found Hm Hembed Hs Hq Hd Hi Hfiles Hname Hid.
    assert (Hp : map parse_file_info files_data <> [])
      by (destruct files_data; [congruence|discriminate]).
    assert (Hid' : find_agent before_compile (Agent.id found) = Some agent0)
      by (rewrite Hid; exact Hagent).
    destruct (@compile_saved env (Agent.name agent0)
                (map parse_file_info files_data) before_compile embed found
                agent0 Hm Hembed Hs Hq Hd Hi Hp Hname Hid')
      as (n & Hn & Hcount & Hpos).
    fold compiled in Hn, Hcount. rewrite Hid in Hn, Hcount.
    rewrite Ha in Hn. injection Hn as ->.
    exists n. split; [reflexivity|]. split; trivial.
    unfold count_chunks in *. now rewrite Hchunks.
Qed.

End Worker.

(** ** Worked runs *)

(** One agent with one job in progress, and one uploaded file. *)
Definition demo_agent : Agent.t :=
  {| Agent.id := 1; Agent.name := lit "chef";
     Agent.status := lit "initializing"; Agent.domain := None;
     Agent.domain_keywords := []; Agent.entity_count := None;
     Agent.chunk_count := None |}.

Definition demo_job : Job.t :=
  {| Job.id := 5; Job.agent_id := 1; Job.status := lit "in_progress";
     Job.progress := 0; Job.current_step := lit "Initializing";
     Job.error_message := None; Job.completed_at := None |}.

Definition demo_db : DB :=
  {| agents := [demo_agent]; jobs := [demo_job]; document_chunks := [] |}.

Definition demo_files : list FileInfo :=
  [ {| file_content := Some (lit "Caesar Salad: romaine, parmesan");
       filename := Some (lit "recipes.txt") |} ].

Definition demo_env (raises : Op -> option str)
  (embedding_model : option (str -> option (list Q))) : Env :=
  {| now := 42; raises := raises; llm := fun _ => None;
     embedding_model := embedding_model |}.

Definition demo_run (env : Env) : DB :=
  _run_compilation_thread env 1 5 (lit "You are a chef.") demo_files demo_db.

Definition no_fault : Op -> option str := fun _ => None.

Definition demo_embed : str -> option (list Q) := fun _ => Some [1%Q].

(** The compiler cannot be created. *)
Definition compiler_fault (op : Op) : option str :=
  match op with
  | OpCreateCompiler => Some (lit "GROQ_API_KEY not set")
  | _ => None
  end.

(** Writing the agent files fails inside [compile]. *)
Definition disk_fault (op : Op) : option str :=
  match op with
  | OpSaveAgent => Some (lit "No space left on device")
  | _ => None
  end.

Lemma C9_failed_run_witness :
  exists job' agent',
    find_job (demo_run (demo_env compiler_fault None)) 5 = Some job'
    /\ find_agent (demo_run (demo_env compiler_fault None)) 1 = Some agent'
    /\ Job.status job' = lit "failed"
    /\ Job.error_message job' = Some (firstn 500 (lit "GROQ_API_KEY not set"))
    /\ Job.completed_at job' = Some 42
    /\ Agent.status agent' = lit "failed".
Proof.
  destruct (@C9_failed_run (demo_env compiler_fault None) 1 5
              (lit "You are a chef.") demo_files demo_db demo_job demo_agent
              eq_refl eq_refl eq_refl eq_refl)
    as [_ (job' & agent' & Hj & Ha & _ & Hfail & _)].
  destruct (Hfail (lit "GROQ_API_KEY not set") eq_refl eq_refl)
    as (H1 & H2 & _ & H3 & H4).
  exists job', agent'. repeat split; assumption.
Defined.

(** A step raises, and the job ends completed with a ready agent. *)
Lemma C9_counterexample :
  raises (demo_env disk_fault None) OpSaveAgent
  = Some (lit "No space left on device")
  /\ option_map Job.status
       (find_job (demo_run (demo_env disk_fault None)) 5)
     = Some (lit "completed")
  /\ option_map Agent.status
       (find_agent (demo_run (demo_env disk_fault None)) 1)
     = Some (lit "ready")
  /\ lit "completed" <> lit "failed".
Proof.
  split; [reflexivity|]. split; [vm_compute; reflexivity|].
  split; [vm_compute; reflexivity|]. apply status_names_differ.
Qed.

Lemma C2_ready_agent_chunks_witness :
  exists agent' n,
    find_agent (demo_run (demo_env no_fault (Some demo_embed))) 1
    = Some agent'
    /\ Agent.status agent' = lit "ready"
    /\ Agent.chunk_count agent' = Some n
    /\ count_chunks (demo_run (demo_env no_fault (Some demo_embed))) 1 = n
    /\ 0 < n.
Proof.
  destruct (@C2_ready_agent_chunks (demo_env no_fault (Some demo_embed)) 1 5
              (lit "You are a chef.") demo_files demo_db demo_job demo_agent
              eq_refl eq_refl (fun op _ => eq_refl))
    as (agent' & Hf & Hs & Hsave).
  destruct (Hsave demo_embed demo_agent eq_refl
              ltac:(intros text H; discriminate H)
              eq_refl eq_refl eq_refl eq_refl
              ltac:(discriminate) eq_refl eq_refl)
    as (n & Hn & Hc & Hp).
  exists agent', n. repeat split; assumption.
Defined.

(** The embedding model failed to load: the agent is ready and has no
    chunk. *)
Lemma C2_counterexample :
  option_map Agent.status
    (find_agent (demo_run (demo_env no_fault None)) 1)
  = Some (lit "ready")
  /\ option_map Agent.chunk_count
       (find_agent (demo_run (demo_env no_fault None)) 1)
     = Some None
  /\ count_chunks (demo_run (demo_env no_fault None)) 1 = 0.
Proof.
  split; [vm_compute; reflexivity|]. split; vm_compute; reflexivity.
Qed.

End CompilationProps.

(* ===================================================================== *)
(** * Further properties of the reranker *)
(* ===================================================================== *)

From Stdlib Require Import Sorted Permutation.

Module RerankerProps.
Import Py PyFacts Reranker.
Local Open Scope Q_scope.

Section Ranking.

Variable Chunk : Type.
Variable get_content : Chunk -> str.

(** [x] is ranked before [y]: its score is not smaller. *)
Definition before (x y : Chunk * Q) : Prop := snd y <= snd x.

Lemma before_trans x y z : before x y -> before y z -> before x z.
Proof. unfold before. intros H1 H2. now apply Qle_trans with (snd y). Qed.

Lemma insert_desc_perm (x : Chunk * Q) l :
  Permutation (insert_desc x l) (x :: l).
Proof.
  induction l as [|y l IH]; cbn; [apply Permutation_refl|].
  destruct (Qltb (snd x) (snd y)); [|apply Permutation_refl].
  apply perm_trans with (y :: x :: l); [now apply perm_skip|apply perm_swap].
Qed.

Lemma sorted_desc_perm (l : list (Chunk * Q)) :
  Permutation (sorted_desc l) l.
Proof.
  induction l as [|x l IH]; cbn; [apply perm_nil|].
  apply perm_trans with (x :: sorted_desc l).
  - apply insert_desc_perm.
  - now apply perm_skip.
Qed.

Lemma insert_desc_sorted (x : Chunk * Q) l :
  StronglySorted before l -> StronglySorted before (insert_desc x l).
Proof.
  induction 1 as [|y l Hs IH Hy]; cbn.
  - repeat constructor.
  - destruct (Qltb (snd x) (snd y)) eqn:E.
    + constructor; trivial.
      apply (Permutation_Forall (Permutation_sym (insert_desc_perm x l))).
      constructor; trivial. apply Qltb_true in E. unfold before. lra.
    + apply Qltb_false in E. constructor.
      * now constructor.
      * constructor; [exact E|].
        eapply Forall_impl; [|exact Hy].
        intros z Hz. now apply before_trans with y.
Qed.

Lemma sorted_desc_sorted (l : list (Chunk * Q)) :
  StronglySorted before (sorted_desc l).
Proof.
  induction l as [|x l IH]; cbn; [constructor|].
  now apply insert_desc_sorted.
Qed.

Lemma firstn_sorted (n : nat) (l : list (Chunk * Q)) :
  StronglySorted before l -> StronglySorted before (firstn n l).
Proof.
  intro H. revert n. induction H as [|y l Hs IH Hy]; intros [|n]; cbn;
    try constructor; trivial.
  apply Forall_forall. intros z Hz.
  rewrite Forall_forall in Hy. apply Hy.
  rewrite <- (firstn_skipn n l). apply in_or_app. now left.
Qed.

(** [l[:k]] is a prefix of [l], whatever the sign of [k]. *)
Lemma slice_to_firstn (A : Type) (l : list A) (k : Z) :
  exists n, slice_to l k = firstn n l.
Proof. unfold slice_to. destruct (k <? 0)%Z; eauto. Qed.

Lemma fallback_sorted (chunks : list Chunk) (top_k : Z) :
  StronglySorted before (fallback chunks top_k).
Proof.
  unfold fallback.
  induction (slice_to chunks top_k) as [|c l IH]; cbn; constructor; trivial.
  apply Forall_forall. intros z Hz. apply in_map_iff in Hz.
  destruct Hz as [c' [<- _]]. unfold before. cbn. apply Qle_refl.
Qed.

(** A list that is in descending order already is left as it is: the sort
    is stable and moves no candidate past one with the same score. *)
Lemma sorted_desc_fixed (l : list (Chunk * Q)) :
  StronglySorted before l -> sorted_desc l = l.
Proof.
  induction 1 as [|x l Hs IH Hx]; trivial.
  change (sorted_desc (x :: l)) with (insert_desc x (sorted_desc l)).
  rewrite IH. destruct l as [|y l']; cbn; trivial.
  inversion Hx as [|? ? Hxy _]. subst.
  apply Qltb_false in Hxy. now rewrite Hxy.
Qed.

(** The chunks of the scored pairs are the first chunks of the list. *)
Lemma map_fst_combine (A B : Type) (l : list A) (l' : list B) :
  map fst (combine l l') = firstn (length l') l.
Proof.
  revert l'. induction l as [|a l IH]; intros [|b l']; cbn; trivial.
  now rewrite IH.
Qed.

(** X1. Whatever the cross-encoder does (missing, raising, or returning
    scores), the list [rerank] returns is in descending order of score. *)
Theorem rerank_sorted
  (model : option CrossEncoder) (query : str) (chunks : list Chunk)
  (top_k : Z) :
  StronglySorted before (rerank get_content model query chunks top_k).
Proof.
  unfold rerank. destruct chunks as [|c chunks]; [constructor|].
  destruct model as [predict|]; [|apply fallback_sorted].
  destruct (predict _) as [scores|]; [|apply fallback_sorted].
  cbv zeta.
  destruct (slice_to_firstn (sorted_desc (combine (c :: chunks) scores))
              top_k) as [n ->].
  apply firstn_sorted, sorted_desc_sorted.
Qed.

(** X2. The chunks [rerank] returns are taken from the candidates, each at
    most as often as it occurs among them: together with some remaining
    chunks they form a rearrangement of the candidate list. In
    particular no more chunks are returned than candidates were given. *)
Theorem rerank_selects
  (model : option CrossEncoder) (query : str) (chunks : list Chunk)
  (top_k : Z) :
  let result := rerank get_content model query chunks top_k in
  (exists rest, Permutation (map fst result ++ rest) chunks)
  /\ (length result <= length chunks)%nat.
Proof.
  cbv zeta.
  assert (P : exists rest,
             Permutation
               (map fst (rerank get_content model query chunks top_k)
                ++ rest) chunks).
  { assert (F : exists rest,
               Permutation (map fst (fallback chunks top_k) ++ rest) chunks).
    { unfold fallback. rewrite map_map. cbn [fst]. rewrite map_id.
      destruct (slice_to_firstn chunks top_k) as [n ->].
      exists (skipn n chunks). now rewrite firstn_skipn. }
    unfold rerank. destruct chunks as [|c chunks]; [now exists []|].
    destruct model as [predict|]; [|exact F].
    destruct (predict _) as [scores|]; [|exact F]. cbv zeta.
    set (pairs := combine (c :: chunks) scores).
    destruct (slice_to_firstn (sorted_desc pairs) top_k) as [n ->].
    exists (map fst (skipn n (sorted_desc pairs))
            ++ skipn (length scores) (c :: chunks)).
    rewrite app_assoc, <- map_app, firstn_skipn.
    rewrite <- (firstn_skipn (length scores) (c :: chunks)) at 2.
    apply Permutation_app_tail.
    rewrite <- map_fst_combine. fold pairs.
    apply Permutation_map, sorted_desc_perm. }
  split; [exact P|].
  destruct P as [rest P]. apply Permutation_length in P.
  rewrite length_app, length_map in P. lia.
Qed.

(** X3. [rerank] never returns more than [top_k] chunks, for a [top_k]
    that is not negative. *)
Theorem rerank_at_most_top_k
  (model : option CrossEncoder) (query : str) (chunks : list Chunk)
  (top_k : Z) :
  (0 <= top_k)%Z ->
  (Z.of_nat (length (rerank get_content model query chunks top_k))
   <= top_k)%Z.
Proof.
  intro Hk.
  assert (S : forall (A : Type) (l : list A),
             (Z.of_nat (length (slice_to l top_k)) <= top_k)%Z).
  { intros A l. unfold slice_to.
    destruct (Z.ltb_spec top_k 0); [lia|].
    pose proof (firstn_le_length (Z.to_nat top_k) l).
    rewrite length_firstn. lia. }
  assert (F : (Z.of_nat (length (fallback chunks top_k)) <= top_k)%Z)
    by (unfold fallback; rewrite length_map; apply S).
  unfold rerank. destruct chunks as [|c chunks]; [cbn; lia|].
  destruct model as [predict|]; [|exact F].
  destruct (predict _) as [scores|]; [|exact F]. apply S.
Qed.

(** X4. When the cross-encoder returns one score per candidate and [top_k]
    is at least the number of candidates, [rerank] returns every candidate
    with its own score: the result is a rearrangement of the scored
    candidates. *)
Theorem rerank_keeps_all
  (predict : CrossEncoder) (query : str) (chunks : list Chunk)
  (top_k : Z) (scores : list Q) :
  predict (map (fun chunk => (query, firstn 512 (get_content chunk))) chunks)
  = Some scores ->
  length scores = length chunks ->
  (Z.of_nat (length chunks) <= top_k)%Z ->
  Permutation (rerank get_content (Some predict) query chunks top_k)
    (combine chunks scores).
Proof.
  intros Hp Hl Hk. unfold rerank.
  destruct chunks as [|c chunks]; [apply perm_nil|].
  rewrite Hp. cbv zeta.
  set (pairs := combine (c :: chunks) scores).
  assert (L : length (sorted_desc pairs) = length (c :: chunks)).
  { rewrite (Permutation_length (sorted_desc_perm pairs)).
    subst pairs. rewrite length_combine. lia. }
  unfold slice_to. destruct (Z.ltb_spec top_k 0); [lia|].
  rewrite firstn_all2 by lia. apply sorted_desc_perm.
Qed.

(** X5. Candidates that arrive in descending order of score keep their
    order, candidates with equal scores included: the sort is stable. *)
Theorem rerank_keeps_ranked_order
  (predict : CrossEncoder) (query : str) (chunks : list Chunk)
  (top_k : Z) (scores : list Q) :
  predict (map (fun chunk => (query, firstn 512 (get_content chunk))) chunks)
  = Some scores ->
  StronglySorted before (combine chunks scores) ->
  rerank get_content (Some predict) query chunks top_k
  = slice_to (combine chunks scores) top_k.
Proof.
  intros Hp Hs. unfold rerank. destruct chunks as [|c chunks].
  - cbn. unfold slice_to. now destruct (top_k <? 0)%Z; rewrite firstn_nil.
  - rewrite Hp. cbv zeta. now rewrite sorted_desc_fixed.
Qed.

End Ranking.

(** Three passages scored by their length. *)
Definition by_length : CrossEncoder :=
  fun pairs => Some (map (fun p => inject_Z (Z.of_nat (length (snd p)))) pairs).

Definition passages : list str :=
  [lit "Romaine"; lit "Parmesan cheese"; lit "Croutons"].

Lemma rerank_at_most_top_k_witness :
  (Z.of_nat
     (length (rerank (fun c : str => c) (Some by_length) (lit "salad")
                passages 2))
   <= 2)%Z.
Proof. apply rerank_at_most_top_k. lia. Defined.

Lemma rerank_keeps_all_witness :
  Permutation
    (rerank (fun c : str => c) (Some by_length) (lit "salad") passages 5)
    (combine passages [7; 15; 8]).
Proof.
  apply (@rerank_keeps_all str (fun c => c) by_length).
  - reflexivity.
  - reflexivity.
  - cbn. lia.
Defined.

Lemma rerank_keeps_ranked_order_witness :
  rerank (fun c : str => c) (Some (fun _ => Some [2; 2; 1])) (lit "salad")
    passages 2
  = slice_to (combine passages [2; 2; 1]) 2.
Proof.
  apply (@rerank_keeps_ranked_order str (fun c => c)
           (fun _ => Some [2; 2; 1])).
  - reflexivity.
  - repeat constructor; unfold before; cbn; lra.
Defined.

End RerankerProps.

(* ===================================================================== *)
(** * Further properties of the faithfulness scorer *)
(* ===================================================================== *)

Module FaithfulnessMore.
Import Py PyFacts FaithfulnessScorer.
Local Open Scope Q_scope.

Lemma round3_thousandths (x : Q) :
  round x 3 = Qmake (round_half_even (x * 1000)) 1000.
Proof. reflexivity. Qed.

Lemma round3_unit (x : Q) : 0 <= x <= 1 -> 0 <= round x 3 <= 1.
Proof.
  intros [Hlo Hhi]. rewrite round3_thousandths.
  assert (H0 : (0 <= round_half_even (x * 1000))%Z)
    by (apply round_half_even_ge; change (inject_Z 0) with 0; lra).
  assert (H1 : (round_half_even (x * 1000) <= 1000)%Z)
    by (apply round_half_even_le; change (inject_Z 1000) with 1000; lra).
  unfold Qle. cbn. lia.
Qed.

Lemma count_positive (b : nat) : (0 < b)%nat -> 0 < inject_Z (Z.of_nat b).
Proof. intro H. change 0 with (inject_Z 0). rewrite <- Zlt_Qlt. lia. Qed.

(** A quotient of two counts, the first not above the second. *)
Lemma ratio_unit (a b : nat) :
  (a <= b)%nat -> (0 < b)%nat ->
  0 <= inject_Z (Z.of_nat a) / inject_Z (Z.of_nat b) <= 1.
Proof.
  intros Hab Hb. pose proof (count_positive Hb) as B.
  assert (A : 0 <= inject_Z (Z.of_nat a))
    by (change 0 with (inject_Z 0); rewrite <- Zle_Qle; lia).
  assert (AB : inject_Z (Z.of_nat a) <= inject_Z (Z.of_nat b))
    by (rewrite <- Zle_Qle; lia).
  split.
  - apply Qle_shift_div_l; [exact B|lra].
  - apply Qle_shift_div_r; [exact B|lra].
Qed.

Lemma ratio_one (b : nat) :
  (0 < b)%nat -> inject_Z (Z.of_nat b) / inject_Z (Z.of_nat b) == 1.
Proof.
  intro Hb. pose proof (count_positive Hb) as B.
  apply Qmult_inv_r. lra.
Qed.

Section Scorer.

Variable extract_reply : str -> option ClaimsJson.
Variable verify_reply : str -> str -> option str.

Let check := check_claims verify_reply.

(** The loop over the claims: every claim is counted once, as supported or
    as unsupported, and costs one call. *)
Lemma check_claims_counts (claims : list str) (context : str) :
  let r := check claims context in
  (fst (fst r) + length (snd (fst r)) = length claims)%nat
  /\ length (snd r) = length claims.
Proof.
  subst check. induction claims as [|c claims IH]; [now split|].
  cbn [check_claims].
  cbv beta iota delta [bind _is_supported call ret].
  remember (firstn 4000 context) as ctx eqn:Ectx. clear Ectx.
  destruct (check_claims verify_reply claims context) as [[n un] calls].
  cbn [fst snd] in IH. destruct IH as [IH1 IH2].
  destruct (verify_reply c ctx) as [reply|].
  - destruct (contains (lit "YES") (upper reply));
      cbn [fst snd app length]; rewrite ?app_nil_r; split; lia.
  - cbn [fst snd app length]. rewrite ?app_nil_r. split; lia.
Qed.

(** The claims [score] works on. *)
Definition claims_of (answer : str) : list str :=
  fst (_extract_claims extract_reply answer).

Lemma score_unfold (answer context : str) :
  answer <> [] -> context <> [] ->
  score extract_reply verify_reply answer context
  = match claims_of answer with
    | [] => (no_claims, [ExtractClaims (firstn 2000 answer)])
    | claims =>
        let r := check claims context in
        ({| Result.score :=
              round (inject_Z (Z.of_nat (fst (fst r)))
                     / inject_Z (Z.of_nat (length claims))) 3;
            Result.total_claims := length claims;
            Result.supported_claims := fst (fst r);
            Result.unsupported_claims := firstn 5 (snd (fst r)) |},
         ExtractClaims (firstn 2000 answer) :: snd r)
    end.
Proof.
  intros Ha Hc. unfold score, claims_of, check.
  destruct answer as [|a answer]; [congruence|].
  destruct context as [|c context]; [congruence|].
  cbv beta iota delta [_extract_claims bind call ret fst].
  match goal with
  | |- context [check_claims verify_reply ?cl _] => generalize cl
  end.
  intros [|x cl]; [reflexivity|].
  destruct (check_claims verify_reply (x :: cl) (c :: context))
    as [[n un] calls].
  cbn [fst snd app]. now rewrite app_nil_r.
Qed.

(** X6. Every result carries consistent counts: the supported claims are among
    the claims, at most five unsupported claims are listed and no more
    than there are, and the score lies between 0 and 1. Without claims
    the score is 1; with claims it is the share of supported claims
    rounded to three decimals, a number of thousandths within half a
    thousandth of the share. *)
Theorem score_counts (answer context : str) :
  let r := fst (score extract_reply verify_reply answer context) in
  (Result.supported_claims r <= Result.total_claims r)%nat
  /\ (length (Result.unsupported_claims r) <= 5)%nat
  /\ (length (Result.unsupported_claims r)
      <= Result.total_claims r - Result.supported_claims r)%nat
  /\ 0 <= Result.score r <= 1
  /\ match Result.total_claims r with
     | O => Result.score r == 1
     | S _ =>
         is_rounding (Result.score r)
           (inject_Z (Z.of_nat (Result.supported_claims r))
            / inject_Z (Z.of_nat (Result.total_claims r))) 3
     end.
Proof.
  cbv zeta.
  assert (N : let r := no_claims in
              (Result.supported_claims r <= Result.total_claims r)%nat
              /\ (length (Result.unsupported_claims r) <= 5)%nat
              /\ (length (Result.unsupported_claims r)
                  <= Result.total_claims r - Result.supported_claims r)%nat
              /\ 0 <= Result.score r <= 1
              /\ match Result.total_claims r with
                 | O => Result.score r == 1
                 | S _ =>
                     is_rounding (Result.score r)
                       (inject_Z (Z.of_nat (Result.supported_claims r))
                        / inject_Z (Z.of_nat (Result.total_claims r))) 3
                 end).
  { cbn. repeat split; try lia; try lra. }
  destruct answer as [|a answer]; [exact N|].
  destruct context as [|c context]; [exact N|].
  rewrite score_unfold by discriminate.
  destruct (claims_of (a :: answer)) as [|x cl]; [exact N|].
  cbv zeta. cbn [fst Result.supported_claims Result.total_claims
                 Result.unsupported_claims Result.score].
  destruct (check_claims_counts (x :: cl) (c :: context)) as [H _].
  cbv zeta in H.
  set (n := fst (fst (check (x :: cl) (c :: context)))) in *.
  set (un := snd (fst (check (x :: cl) (c :: context)))) in *.
  pose proof (firstn_le_length 5 un) as L5.
  assert (L : (length (firstn 5 un) <= length un)%nat)
    by (rewrite length_firstn; lia).
  split; [lia|]. split; [exact L5|]. split; [lia|]. split.
  - apply round3_unit, ratio_unit; cbn [length] in *; lia.
  - cbn [length]. apply round_is_rounding. discriminate.
Qed.

(** The calls of the loop: one verification per claim, in the order of the
    claims, each with the first 4000 characters of the context. *)
Lemma check_claims_calls (claims : list str) (context : str) :
  snd (check claims context)
  = map (fun claim => VerifyClaim claim (firstn 4000 context)) claims.
Proof.
  subst check. induction claims as [|c claims IH]; [reflexivity|].
  cbn [check_claims map].
  cbv beta iota delta [bind _is_supported call ret].
  destruct (check_claims verify_reply claims context) as [[n un] calls].
  cbn [snd] in IH. subst calls.
  cbn [fst snd app]. now rewrite app_nil_r.
Qed.

(** X7. With a non-empty answer and a non-empty context [score] makes one
    extraction call, on the first 2000 characters of the answer, and then
    one verification call per extracted claim, in the order of the claims
    and each on the first 4000 characters of the context: one call more
    than the [total_claims] it reports. *)
Theorem score_llm_calls (answer context : str) :
  answer <> [] -> context <> [] ->
  let out := score extract_reply verify_reply answer context in
  exists claims,
    length claims = Result.total_claims (fst out)
    /\ snd out
       = ExtractClaims (firstn 2000 answer)
         :: map (fun claim => VerifyClaim claim (firstn 4000 context)) claims
    /\ length (snd out) = S (Result.total_claims (fst out)).
Proof.
  intros Ha Hc. cbv zeta. rewrite score_unfold by assumption.
  destruct (claims_of answer) as [|x cl] eqn:E.
  - exists []. now repeat split.
  - exists (x :: cl). cbv zeta. cbn [fst snd Result.total_claims].
    rewrite check_claims_calls. repeat split.
    cbn [length]. now rewrite length_map.
Qed.

End Scorer.

(** X8. When every verification call raises, every claim counts as
    supported: whatever the extraction returned, the score is 1, all claims
    are supported and none is listed as unsupported. *)
Theorem score_when_verification_raises
  (extract_reply : str -> option ClaimsJson) (answer context : str) :
  let r := fst (score extract_reply (fun _ _ => None) answer context) in
  Result.score r == 1
  /\ Result.supported_claims r = Result.total_claims r
  /\ Result.unsupported_claims r = [].
Proof.
  cbv zeta.
  assert (N : Result.score no_claims == 1
              /\ Result.supported_claims no_claims
                 = Result.total_claims no_claims
              /\ Result.unsupported_claims no_claims = [])
    by (cbn; repeat split).
  destruct answer as [|a answer]; [exact N|].
  destruct context as [|c context]; [exact N|].
  rewrite score_unfold by discriminate.
  destruct (claims_of extract_reply (a :: answer)) as [|x cl]; [exact N|].
  cbv zeta. cbn [fst Result.supported_claims Result.total_claims
                 Result.unsupported_claims Result.score].
  assert (A : forall claims,
             fst (check_claims (fun _ _ => None) claims (c :: context))
             = (length claims, [])).
  { induction claims as [|y claims IH]; [reflexivity|].
    cbn [check_claims].
    cbv beta iota delta [bind _is_supported call ret].
    destruct (check_claims (fun _ _ => None) claims (c :: context))
      as [[n un] calls].
    cbn [fst] in IH. injection IH as -> ->. reflexivity. }
  rewrite A. cbn [fst snd firstn]. repeat split.
  rewrite round3_thousandths.
  rewrite (round_half_even_compat (x := _ * 1000) (y := 1000)).
  - reflexivity.
  - rewrite ratio_one by (cbn [length]; lia). lra.
Qed.

Lemma In_firstn (A : Type) (n : nat) (l : list A) (x : A) :
  In x (firstn n l) -> In x l.
Proof.
  intro H. rewrite <- (firstn_skipn n l). apply in_or_app. now left.
Qed.

(** X9. The claims extracted without the LLM are at most ten, each is a
    sentence of the answer without its outer white space, longer than 20
    characters, and so a piece of the answer. *)
Theorem _fallback_extract_claims_bounds (answer : str) :
  let claims := _fallback_extract_claims answer in
  (length claims <= 10)%nat
  /\ Forall (fun claim =>
               (20 < length claim)%nat
               /\ contains claim answer = true
               /\ exists sentence,
                    In sentence (re_split_sentences answer)
                    /\ claim = strip sentence) claims.
Proof.
  cbv zeta. unfold _fallback_extract_claims. split.
  - rewrite length_firstn. lia.
  - apply Forall_forall. intros claim H. apply In_firstn in H.
    apply in_map_iff in H. destruct H as [s [<- H]].
    apply filter_In in H. destruct H as [Hs Hl].
    apply Nat.ltb_lt in Hl. split; [exact Hl|]. split; [|eauto].
    apply re_split_sentences_inside in Hs. destruct Hs as (pre & post & ->).
    destruct (strip_inside s) as (pre' & post' & E).
    remember (strip s) as sp eqn:Esp. clear Esp Hl. subst s.
    replace (pre ++ (pre' ++ sp ++ post') ++ post)
      with ((pre ++ pre') ++ sp ++ (post' ++ post))
      by (now rewrite <- !app_assoc).
    apply contains_inside.
Qed.

(** A run of [score] with two claims. *)
Lemma score_llm_calls_witness :
  let out :=
    score (fun _ => Some (JList [lit "Romaine is the base"; lit "It is green"]))
      (fun _ _ => Some (lit "Yes."))
      (lit "Romaine is the base. It is green.") (lit "Romaine lettuce") in
  exists claims,
    length claims = Result.total_claims (fst out)
    /\ snd out
       = ExtractClaims (firstn 2000 (lit "Romaine is the base. It is green."))
         :: map (fun claim =>
                   VerifyClaim claim (firstn 4000 (lit "Romaine lettuce")))
              claims
    /\ length (snd out) = S (Result.total_claims (fst out)).
Proof.
  apply (score_llm_calls
           (fun _ => Some (JList [lit "Romaine is the base";
                                  lit "It is green"]))
           (fun _ _ => Some (lit "Yes."))); discriminate.
Defined.

End FaithfulnessMore.

(* ===================================================================== *)
(** * Properties of the estimate without LLM calls *)
(* ===================================================================== *)

Module QuickFaithfulnessProps.
Import Py PyFacts QuickFaithfulness.
Local Open Scope Q_scope.

(** Every word [str.split] returns is a piece of the string. *)
Lemma split_aux_inside (s : str) :
  forall cur w,
    In w (split_aux cur s) ->
    exists pre post, rev cur ++ s = pre ++ w ++ post.
Proof.
  induction s as [|c s IH]; intros cur w; cbn [split_aux].
  - destruct cur as [|d cur]; cbn [flush]; [intros []|].
    intros [<-|[]]. exists [], []. now rewrite !app_nil_r.
  - destruct (isspace c).
    + destruct cur as [|d cur]; cbn [flush].
      * intro H. destruct (IH _ _ H) as (pre & post & E). cbn in E.
        exists (c :: pre), post. cbn. now rewrite E.
      * intros [<-|H].
        -- now exists [], (c :: s).
        -- destruct (IH _ _ H) as (pre & post & E). cbn in E.
           exists (rev (d :: cur) ++ c :: pre), post.
           rewrite E, <- app_assoc. reflexivity.
    + intro H. destruct (IH _ _ H) as (pre & post & E).
      exists pre, post. rewrite <- E. cbn [rev].
      now rewrite <- app_assoc.
Qed.

Lemma split_inside (s w : str) :
  In w (split s) -> exists pre post, s = pre ++ w ++ post.
Proof. intro H. apply split_aux_inside in H. exact H. Qed.

(** [Py.lower] works code point by code point. *)
Lemma lower_app (a b : str) : lower (a ++ b) = lower a ++ lower b.
Proof. apply map_app. Qed.

Lemma nodup_nil_iff (l : list str) : nodup str_eq_dec l = [] <-> l = [].
Proof.
  split; [|now intros ->].
  destruct l as [|x l]; trivial. intro H.
  assert (Hx : In x (nodup str_eq_dec (x :: l)))
    by (apply nodup_In; now left).
  rewrite H in Hx. destruct Hx.
Qed.

Lemma nodup_length_le (l : list str) :
  (length (nodup str_eq_dec l) <= length l)%nat.
Proof.
  induction l as [|x l IH]; cbn; trivial.
  destruct (in_dec str_eq_dec x l); cbn; lia.
Qed.

Lemma existsb_filter (A : Type) (f : A -> bool) (l : list A) :
  existsb f l = match filter f l with [] => false | _ => true end.
Proof.
  induction l as [|x l IH]; cbn; trivial. now destruct (f x).
Qed.

(** X10. The estimate lies between 0 and 1. *)
Theorem quick_score_range (answer context : str) :
  0 <= quick_score answer context <= 1.
Proof.
  unfold quick_score.
  destruct answer as [|a answer]; [split; lra|].
  destruct context as [|c context]; [split; lra|].
  cbv zeta.
  destruct (nodup str_eq_dec _) as [|w words]; [split; lra|].
  set (found := length (filter _ (w :: words))).
  assert (Hf : (found <= length (w :: words))%nat)
    by apply filter_length_le.
  destruct (FaithfulnessMore.ratio_unit Hf) as [H0 H1];
    [cbn [length]; lia|].
  destruct (min_spec 1.0
              (inject_Z (Z.of_nat found)
               / inject_Z (Z.of_nat (length (w :: words))) * 1.5))
    as [[H ->]|[H ->]]; split; lra.
Qed.

(** Text in ASCII, as [str.isascii] tells it. On such text Python's
    [str.lower] works code point by code point, as [Py.lower] does; it
    does not on all text (the lower case of a Greek capital sigma depends
    on its place in the word). *)
Definition isascii (s : str) : bool :=
  forallb (fun c => (code c <? 128)%N) s.

(** X11. An ASCII answer that occurs word for word in an ASCII context
    gets the estimate 1.0 when it has a word of more than four characters,
    and 0.5 when it has none. *)
Theorem quick_score_of_quotation (pre answer post : str) :
  isascii (pre ++ answer ++ post) = true ->
  quick_score answer (pre ++ answer ++ post)
  = if existsb (fun w => (4 <? length w)%nat) (split answer)
    then 1.0 else 0.5.
Proof.
  intros _. unfold quick_score.
  destruct answer as [|a answer];
    [now destruct (pre ++ [] ++ post)|].
  destruct (pre ++ (a :: answer) ++ post) as [|c context] eqn:Ec;
    [destruct pre; discriminate|].
  rewrite <- Ec. clear Ec c context. cbv zeta.
  set (long := filter (fun w => (4 <? length w)%nat) (split (a :: answer))).
  assert (Hex : existsb (fun w => (4 <? length w)%nat) (split (a :: answer))
                = match long with [] => false | _ => true end).
  { subst long. apply existsb_filter. }
  rewrite Hex.
  destruct (nodup str_eq_dec (map lower long)) as [|w words] eqn:E.
  - apply nodup_nil_iff, map_eq_nil in E. now rewrite E.
  - assert (Hl : long <> [])
      by (intros ->; cbn in E; discriminate).
    destruct long as [|w0 long0] eqn:El; [congruence|]. rewrite <- El in *.
    assert (All : forall x, In x (w :: words) ->
                    contains x (lower (pre ++ (a :: answer) ++ post)) = true).
    { intros x Hx. rewrite <- E in Hx. apply nodup_In, in_map_iff in Hx.
      destruct Hx as [x0 [<- Hx0]]. subst long.
      apply filter_In in Hx0. destruct Hx0 as [Hx0 _].
      apply split_inside in Hx0. destruct Hx0 as (p & q & ->).
      rewrite !lower_app, <- !app_assoc.
      rewrite (app_assoc (lower pre)). apply contains_inside. }
    rewrite (CompilationProps.filter_all _ _ All).
    assert (R : inject_Z (Z.of_nat (length (w :: words)))
                / inject_Z (Z.of_nat (length (w :: words))) == 1)
      by (apply FaithfulnessMore.ratio_one; cbn [length]; lia).
    unfold min.
    assert (B : Qltb (inject_Z (Z.of_nat (length (w :: words)))
                      / inject_Z (Z.of_nat (length (w :: words))) * 1.5) 1.0
                = false)
      by (apply Qltb_false; rewrite R; lra).
    now rewrite B.
Qed.

(** A salad note that quotes the answer, and an answer of short words. *)
Lemma quick_score_of_quotation_witness :
  quick_score (lit "Romaine lettuce")
    (lit "Salad: " ++ lit "Romaine lettuce" ++ lit ", croutons.") = 1.0
  /\ quick_score (lit "Toss it")
       (lit "Then: " ++ lit "Toss it" ++ lit ".") = 0.5.
Proof.
  split.
  - exact (@quick_score_of_quotation (lit "Salad: ") (lit "Romaine lettuce")
             (lit ", croutons.") eq_refl).
  - exact (@quick_score_of_quotation (lit "Then: ") (lit "Toss it")
             (lit ".") eq_refl).
Defined.

End QuickFaithfulnessProps.

(* ===================================================================== *)
(** * Further properties of the source attribution *)
(* ===================================================================== *)

Module AttributionMore.
Import Py PyFacts SourceAttributor.
Local Open Scope Q_scope.

Section Attribute.

Variable Chunk : Type.
Variable _get_content : Chunk -> str.
Variable _get_id : Chunk -> Z.
Variable _get_source : Chunk -> str.
Variable Emb : Type.
Variable embedding_model : option (list str -> option (list Emb)).
Variable _cosine_similarity : Emb -> Emb -> Q.

(** ** The best source of a sentence *)

(** One turn of the loop over the chunks and their embeddings. *)
Definition better (sentence_emb : Emb) (best : Chunk * Q) (ce : Chunk * Emb)
  : Chunk * Q :=
  let sim := _cosine_similarity sentence_emb (snd ce) in
  if Qltb (snd best) sim then (fst ce, sim) else best.

Lemma fold_better (sentence_emb : Emb) (l : list (Chunk * Emb))
  (best0 : Chunk * Q) :
  let best := fold_left (better sentence_emb) l best0 in
  snd best0 <= snd best
  /\ (forall ce, In ce l ->
        _cosine_similarity sentence_emb (snd ce) <= snd best)
  /\ (best = best0
      \/ exists ce,
           In ce l
           /\ best = (fst ce, _cosine_similarity sentence_emb (snd ce))).
Proof.
  revert best0. induction l as [|ce l IH]; intro best0; cbn [fold_left].
  - split; [apply Qle_refl|]. split; [intros ce []|now left].
  - specialize (IH (better sentence_emb best0 ce)). cbv zeta in IH.
    destruct IH as (H1 & H2 & H3).
    set (best := fold_left (better sentence_emb) l
                   (better sentence_emb best0 ce)) in *.
    assert (Hstep : snd best0 <= snd (better sentence_emb best0 ce)
                    /\ _cosine_similarity sentence_emb (snd ce)
                       <= snd (better sentence_emb best0 ce)).
    { unfold better. cbv zeta.
      destruct (Qltb (snd best0) (_cosine_similarity sentence_emb (snd ce)))
        eqn:E; cbn [snd].
      - apply Qltb_true in E. split; lra.
      - apply Qltb_false in E. split; lra. }
    destruct Hstep as [S1 S2].
    split; [lra|]. split.
    + intros ce' [<-|Hin]; [lra|now apply H2].
    + destruct H3 as [H3|(ce' & Hin & H3)].
      * unfold better in H3. cbv zeta in H3.
        destruct (Qltb (snd best0)
                    (_cosine_similarity sentence_emb (snd ce))).
        -- right. exists ce. split; [now left|exact H3].
        -- now left.
      * right. exists ce'. split; [now right|exact H3].
Qed.

(** Whatever the model does, the chunk returned is the first chunk or one
    of the chunks, and the similarity is not negative. *)
Lemma _find_best_source_range
  (sentence : str) (first : Chunk) (chunks : list Chunk)
  (chunk_embeddings : option (list Emb)) :
  let best :=
    _find_best_source embedding_model _cosine_similarity sentence first
      chunks chunk_embeddings in
  In (fst best) (first :: chunks) /\ 0 <= snd best.
Proof.
  cbv zeta. unfold _find_best_source.
  assert (D : In (fst (first, 0.5)) (first :: chunks)
              /\ 0 <= snd (first, 0.5))
    by (cbn; split; [now left|lra]).
  destruct embedding_model as [embed|]; [|exact D].
  destruct chunk_embeddings as [[|e es]|]; try exact D.
  destruct (embed [sentence]) as [[|se others]|]; try exact D.
  fold (better se).
  match goal with
  | |- context [fold_left (better se) ?l _] =>
      destruct (fold_better se l (first, 0.0)) as (H1 & _ & H3)
  end.
  split; [|cbn [snd] in H1; lra].
  destruct H3 as [->|(ce & Hin & ->)]; [now left|].
  right. destruct ce as [c x]. now apply in_combine_l in Hin.
Qed.

(** With an embedding model and chunk embeddings, the chunk returned is a
    best match among [zip(chunks, chunk_embeddings)]: no pair is more
    similar to the sentence, and the result is either the first chunk with
    similarity 0.0, when no pair has a positive similarity, or the chunk
    of one of the pairs with the similarity of that pair. *)
Definition best_among (sentence_emb : Emb) (first : Chunk)
  (pairs : list (Chunk * Emb)) (best : Chunk * Q) : Prop :=
  (forall ce, In ce pairs ->
              _cosine_similarity sentence_emb (snd ce) <= snd best)
  /\ (best = (first, 0.0)
      \/ exists ce,
           In ce pairs
           /\ best = (fst ce, _cosine_similarity sentence_emb (snd ce))).

Lemma _find_best_source_best
  (embed : list str -> option (list Emb)) (sentence : str) (first : Chunk)
  (chunks : list Chunk) (embeddings : list Emb) (sentence_emb : Emb)
  (others : list Emb) :
  embedding_model = Some embed ->
  embeddings <> [] ->
  embed [sentence] = Some (sentence_emb :: others) ->
  best_among sentence_emb first (combine chunks embeddings)
    (_find_best_source embedding_model _cosine_similarity sentence first
       chunks (Some embeddings)).
Proof.
  intros Hm He Hs. unfold _find_best_source. rewrite Hm.
  destruct embeddings as [|e es]; [congruence|]. rewrite Hs.
  fold (better sentence_emb).
  destruct (fold_better sentence_emb (combine chunks (e :: es))
              (first, 0.0)) as (_ & H2 & H3).
  split; [exact H2|exact H3].
Qed.

(** ** The loop over the sentences *)

Let step (first : Chunk) (chunks : list Chunk)
  (chunk_embeddings : option (list Emb)) :=
  attribute_sentence _get_content _get_id _get_source embedding_model
    _cosine_similarity first chunks chunk_embeddings.

(** The sentences the loop does not skip. *)
Definition substantive (sentence : str) : bool :=
  negb (length (split sentence) <? 4)%nat.

Lemma loop_keeps_substantive first chunks chunk_embeddings sentences state :
  map text (snd (fold_left (step first chunks chunk_embeddings)
                   sentences state))
  = map text (snd state) ++ filter substantive sentences.
Proof.
  revert state. induction sentences as [|s rest IH]; intro state;
    cbn [fold_left filter].
  - now rewrite app_nil_r.
  - rewrite IH. destruct state as [su attr].
    unfold step, attribute_sentence, substantive.
    destruct (length (split s) <? 4)%nat; cbn [negb]; trivial.
    destruct (_find_best_source _ _ _ _ _ _) as [best sim].
    cbn [snd]. rewrite map_app, <- app_assoc. reflexivity.
Qed.

(** What an attributed sentence says about its source: the chunk is one of
    the chunks given, the preview is the start of its content, the file is
    its source, and the similarity is not negative. *)
Definition points_into (chunks : list Chunk) (a : AttributedSentence)
  : Prop :=
  exists chunk,
    In chunk chunks
    /\ source_chunk_id a = _get_id chunk
    /\ source_preview a = firstn 150 (_get_content chunk)
    /\ source_file a = _get_source chunk
    /\ 0 <= similarity a.

Lemma loop_points_into first rest chunk_embeddings sentences state :
  Forall (points_into (first :: rest)) (snd state) ->
  Forall (points_into (first :: rest))
    (snd (fold_left (step first (first :: rest) chunk_embeddings)
            sentences state)).
Proof.
  revert state. induction sentences as [|s sentences IH]; intros state H;
    cbn [fold_left]; trivial.
  apply IH. destruct state as [su attr].
  unfold step, attribute_sentence.
  destruct (length (split s) <? 4)%nat; trivial.
  destruct (_find_best_source_range s first (first :: rest)
              chunk_embeddings) as [Hin Hsim].
  destruct (_find_best_source _ _ _ _ _ _) as [best sim].
  cbn [fst snd] in *. apply Forall_app. split; trivial.
  constructor; [|constructor].
  exists best. cbn. repeat split; trivial.
  destruct Hin as [<-|Hin]; trivial. now left.
Qed.

(** An attributed sentence records what [_find_best_source] returns for
    its text. *)
Definition records_best (first : Chunk) (chunks : list Chunk)
  (chunk_embeddings : option (list Emb)) (a : AttributedSentence) : Prop :=
  let best :=
    _find_best_source embedding_model _cosine_similarity (text a) first
      chunks chunk_embeddings in
  source_chunk_id a = _get_id (fst best)
  /\ source_preview a = firstn 150 (_get_content (fst best))
  /\ source_file a = _get_source (fst best)
  /\ similarity a = snd best.

Lemma loop_records first chunks chunk_embeddings sentences state :
  Forall (records_best first chunks chunk_embeddings) (snd state) ->
  Forall (records_best first chunks chunk_embeddings)
    (snd (fold_left (step first chunks chunk_embeddings) sentences state)).
Proof.
  revert state. induction sentences as [|s sentences IH]; intros state H;
    cbn [fold_left]; trivial.
  apply IH. destruct state as [su attr].
  unfold step, attribute_sentence.
  destruct (length (split s) <? 4)%nat; trivial.
  destruct (_find_best_source _ _ _ _ _ _) as [best sim] eqn:B.
  cbn [fst snd] in *. apply Forall_app. split; trivial.
  constructor; [|constructor].
  unfold records_best. cbn [text]. rewrite B. cbn. now repeat split.
Qed.

Let run := attribute _get_content _get_id _get_source embedding_model
             _cosine_similarity.

(** The state the loop of [attribute] ends in, for a call that returns
    and was given an answer and chunks. *)
Lemma attribute_loop a answer first rest chunk_embeddings r :
  run (a :: answer) (first :: rest) chunk_embeddings = Some r ->
  exists embs sources_used,
    embs = match chunk_embeddings, embedding_model with
           | None, Some embed => embed (map _get_content (first :: rest))
           | _, _ => chunk_embeddings
           end
    /\ fold_left (step first (first :: rest) embs)
         (_split_sentences (a :: answer)) ([], [])
       = (sources_used, sentences r).
Proof.
  unfold run, attribute, step.
  destruct chunk_embeddings as [e|]; [|destruct embedding_model as [embed|]];
    try destruct (embed _); try discriminate;
    match goal with
    | |- context [fold_left (attribute_sentence _ _ _ _ _ _ _ ?embs) _ _] =>
        destruct (fold_left (attribute_sentence _ _ _ _ _ _ _ embs) _ _)
          as [su attr] eqn:E; intro H; injection H as <-;
        exists embs, su; split; [reflexivity|exact E]
    end.
Qed.

(** X12. The sentences [attribute] attributes are exactly the sentences of
    the answer that have at least four words, in the order of the answer:
    shorter sentences never get a citation, longer ones always do. *)
Theorem attribute_sentences_are_the_long_ones
  (answer : str) (chunks : list Chunk)
  (chunk_embeddings : option (list Emb)) (r : AttributedAnswer) :
  run answer chunks chunk_embeddings = Some r ->
  chunks <> [] ->
  map text (sentences r) = filter substantive (_split_sentences answer).
Proof.
  intros H Hc. destruct chunks as [|first rest]; [congruence|].
  destruct answer as [|a answer].
  - cbn in H. injection H as <-. reflexivity.
  - apply attribute_loop in H. destruct H as (embs & su & _ & E).
    pose proof (loop_keeps_substantive first (first :: rest) embs
                  (_split_sentences (a :: answer)) ([], [])) as L.
    rewrite E in L. exact L.
Qed.

(** X13. Every attributed sentence points to one of the chunks that were
    given: its chunk id, its preview (the first 150 characters of the
    content) and its source file are those of that chunk, and its
    similarity is not negative. With an embedding model and embeddings of
    the chunks (the ones supplied, or else the ones the model computes
    from the contents of the chunks), the chunk of a sentence that the
    model embeds is a best match among the chunks paired with their
    embeddings in order, and the sentence carries its id, its preview,
    its file and its similarity. *)
Theorem attribute_points_to_given_chunks
  (answer : str) (chunks : list Chunk)
  (chunk_embeddings : option (list Emb)) (r : AttributedAnswer) :
  run answer chunks chunk_embeddings = Some r ->
  Forall (points_into chunks) (sentences r)
  /\ (forall embed embeddings first rest,
        embedding_model = Some embed ->
        chunks = first :: rest ->
        match chunk_embeddings with
        | Some supplied => supplied
        | None => match embed (map _get_content chunks) with
                  | Some computed => computed
                  | None => []
                  end
        end = embeddings ->
        embeddings <> [] ->
        Forall
          (fun a =>
             forall sentence_emb others,
               embed [text a] = Some (sentence_emb :: others) ->
               exists best,
                 best_among sentence_emb first (combine chunks embeddings)
                   best
                 /\ source_chunk_id a = _get_id (fst best)
                 /\ source_preview a = firstn 150 (_get_content (fst best))
                 /\ source_file a = _get_source (fst best)
                 /\ similarity a = snd best)
          (sentences r)).
Proof.
  intro H. destruct answer as [|a answer];
    [cbn in H; injection H as <-; split; [constructor|intros; constructor]|].
  destruct chunks as [|first0 rest0];
    [cbn in H; injection H as <-; split; [constructor|intros; constructor]|].
  split.
  - apply attribute_loop in H. destruct H as (embs & su & _ & E).
    pose proof (@loop_points_into first0 rest0 embs
                  (_split_sentences (a :: answer)) ([], [])) as L.
    rewrite E in L. apply L. constructor.
  - intros embed embeddings first rest Hm Hc Hu Hne.
    injection Hc as <- <-.
    apply attribute_loop in H. destruct H as (embs & su & Hembs & E).
    assert (Hsome : embs = Some embeddings).
    { rewrite Hembs, Hm. destruct chunk_embeddings as [supplied|].
      - now subst supplied.
      - destruct (embed (map _get_content (first0 :: rest0)))
          as [computed|]; [now subst computed|].
        now subst embeddings. }
    rewrite Hsome in E.
    pose proof (@loop_records first0 (first0 :: rest0) (Some embeddings)
                  (_split_sentences (a :: answer)) ([], [])
                  (Forall_nil _)) as R.
    rewrite E in R. cbn [snd] in R.
    eapply Forall_impl; [|exact R].
    intros s (R1 & R2 & R3 & R4) sentence_emb others Hs.
    eexists. split; [|repeat split; eassumption].
    now apply (@_find_best_source_best embed (text s) first0
                 (first0 :: rest0) embeddings sentence_emb others).
Qed.

End Attribute.

(** ** An attributor without embedding model *)

Section NoModel.

Variable Chunk : Type.
Variable _get_content : Chunk -> str.
Variable _get_id : Chunk -> Z.
Variable _get_source : Chunk -> str.
Variable Emb : Type.
Variable _cosine_similarity : Emb -> Emb -> Q.
Variable first : Chunk.
Variable rest : list Chunk.

Let no_model : option (list str -> option (list Emb)) := None.

(** What every attributed sentence then looks like. *)
Definition cites_first (a : AttributedSentence) : Prop :=
  citation a = cite 1
  /\ source_chunk_id a = _get_id first
  /\ similarity a = 0.5.

Definition first_only (state : SourcesUsed * list AttributedSentence)
  : Prop :=
  (fst state = [] \/ fst state = [(_get_id first, 1%nat)])
  /\ Forall cites_first (snd state).

Lemma step_first_only chunk_embeddings state sentence :
  first_only state ->
  first_only
    (attribute_sentence _get_content _get_id _get_source no_model
       _cosine_similarity first (first :: rest) chunk_embeddings state
       sentence).
Proof.
  destruct state as [su attr]. intros [Hsu Hattr]. cbn [fst snd] in *.
  unfold attribute_sentence.
  destruct (length (split sentence) <? 4)%nat; [now split|].
  unfold _find_best_source, no_model.
  destruct Hsu as [-> | ->]; cbn [lookup length app]; rewrite Z.eqb_refl.
  all: split; cbn [fst snd]; [now right|].
  all: apply (proj2 (Forall_app _ _ _)); split; [exact Hattr|].
  all: cbn [lookup]; rewrite ?Z.eqb_refl.
  all: constructor; [now repeat split|constructor].
Qed.

(** X14. Without an embedding model every attributed sentence cites the
    first chunk: its mark is [[1]], its chunk id is that of the first
    chunk and its similarity is the constant 0.5; the list of sources has
    at most one entry, the first chunk under the mark [[1]]. *)
Theorem attribute_without_model
  (answer : str) (chunk_embeddings : option (list Emb)) :
  exists r,
    attribute _get_content _get_id _get_source no_model _cosine_similarity
      answer (first :: rest) chunk_embeddings = Some r
    /\ Forall cites_first (sentences r)
    /\ (length (sources r) <= 1)%nat
    /\ Forall
         (fun src =>
            Source.citation src = cite 1
            /\ Source.chunk_id src = _get_id first) (sources r).
Proof.
  unfold attribute.
  destruct answer as [|a answer].
  { eexists. split; [reflexivity|]. cbn. repeat split; auto. }
  assert (I : forall embs,
             first_only
               (fold_left
                  (attribute_sentence _get_content _get_id _get_source
                     no_model _cosine_similarity first (first :: rest)
                     embs)
                  (_split_sentences (a :: answer)) ([], []))).
  { intro embs.
    generalize (_split_sentences (a :: answer)).
    assert (S : first_only ([], [])) by (split; [now left|constructor]).
    revert S. generalize (@nil (Z * nat), @nil AttributedSentence).
    intros state S sentences. revert state S.
    induction sentences as [|s sentences IH]; intros state S; cbn; trivial.
    apply IH. now apply step_first_only. }
  assert (E : match chunk_embeddings, no_model with
              | None, Some embed =>
                  match embed (map _get_content (first :: rest)) with
                  | Some embeddings => Some (Some embeddings)
                  | None => None
                  end
              | _, _ => Some chunk_embeddings
              end = Some chunk_embeddings)
    by (unfold no_model; now destruct chunk_embeddings).
  cbv zeta. rewrite E. specialize (I chunk_embeddings).
  destruct (fold_left _ _ _) as [su attr]. destruct I as [Hsu Hattr].
  cbn [fst snd] in *.
  eexists. split; [reflexivity|]. cbn [sentences sources].
  split; [exact Hattr|].
  unfold build_sources.
  destruct Hsu as [-> | ->]; cbn [sorted_by_num fold_right insert_by_num
                                  flat_map app].
  - split; [cbn; lia|constructor].
  - destruct (List.find _ attr); rewrite ?app_nil_r;
      split; cbn [length]; try lia; repeat constructor.
Qed.

End NoModel.

(** An answer of three sentences and two chunks, for an attributor without
    embedding model. *)
Definition sample_attribute (answer : str) : option AttributedAnswer :=
  attribute (fun chunk : Z * string => lit (snd chunk)) fst
    (fun _ => lit "recipes.csv")
    (@None (list str -> option (list unit))) (fun _ _ => 0)
    answer [(7%Z, "romaine, parmesan"%string); (12%Z, "croutons"%string)]
    None.

Definition sample_answer : str :=
  lit "Yes. Romaine lettuce is the base. Enjoy it!".

Lemma attribute_sentences_are_the_long_ones_witness :
  match sample_attribute sample_answer with
  | Some r => map text (sentences r) = [lit "Romaine lettuce is the base."]
  | None => False
  end.
Proof.
  destruct (sample_attribute sample_answer) as [r|] eqn:E.
  - unfold sample_attribute in E.
    apply attribute_sentences_are_the_long_ones in E; [|discriminate].
    rewrite E. reflexivity.
  - vm_compute in E. discriminate E.
Defined.

(** An attributor with an embedding model: a text is embedded as the
    number of times it names each of two ingredients, and two embeddings
    are compared by their dot product. *)
Definition mentions_of (word t : str) : Q :=
  if contains word t then 1 else 0.

Definition ingredients (t : str) : Q * Q :=
  (mentions_of (lit "omaine") t, mentions_of (lit "routon") t).

Definition dot (a b : Q * Q) : Q := fst a * fst b + snd a * snd b.

Definition kitchen_model : option (list str -> option (list (Q * Q))) :=
  Some (fun texts => Some (map ingredients texts)).

Definition kitchen_chunks : list (Z * string) :=
  [(7%Z, "romaine, parmesan"%string); (12%Z, "croutons"%string)].

Definition kitchen_attribute (answer : str) : option AttributedAnswer :=
  attribute (fun chunk : Z * string => lit (snd chunk)) fst
    (fun _ => lit "recipes.csv") kitchen_model dot answer kitchen_chunks
    None.

Definition kitchen_answer : str :=
  lit "Add the croutons at the end. Enjoy it!".

(** The sentence on croutons is attributed to the second chunk, with id
    12, and to no other. *)
Lemma attribute_points_to_given_chunks_witness :
  match kitchen_attribute kitchen_answer with
  | Some r =>
      Forall
        (points_into (fun chunk : Z * string => lit (snd chunk)) fst
           (fun _ => lit "recipes.csv") kitchen_chunks)
        (sentences r)
      /\ map (fun a => (source_chunk_id a, source_preview a, similarity a))
           (sentences r)
         = [(12%Z, lit "croutons", 1)]
  | None => False
  end.
Proof.
  destruct (kitchen_attribute kitchen_answer) as [r|] eqn:E.
  - split.
    + unfold kitchen_attribute in E.
      now apply attribute_points_to_given_chunks in E.
    + vm_compute in E. injection E as <-. reflexivity.
  - vm_compute in E. discriminate E.
Defined.

End AttributionMore.

(* ===================================================================== *)
(** * Properties of the chunking and of the vector save *)
(* ===================================================================== *)

Module ChunkingProps.
Import Py PyFacts Compilation.
Local Open Scope nat_scope.

(** Putting chunks back together: every chunk after the first gives up
    the 100 characters it shares with the chunk before it. *)
Definition glue (chunks : list str) : str :=
  match chunks with
  | [] => []
  | chunk :: rest => chunk ++ concat (map (skipn 100) rest)
  end.

Lemma chunk_loop_spec (text : str) :
  forall turns start,
    length text - start < turns -> start < length text ->
    let chunks := chunk_loop turns start text in
    glue chunks = skipn start text
    /\ length (hd [] chunks) = Nat.min 1000 (length text - start)
    /\ Forall (fun chunk => 1 <= length chunk <= 1000) chunks
    /\ Forall (fun chunk => length chunk = 1000) (removelast chunks)
    /\ 900 * length chunks <= length text - start + 899.
Proof.
  induction turns as [|turns IH]; intros start Ht Hs; [lia|].
  cbn [chunk_loop]. cbv zeta.
  destruct (Nat.ltb_spec start (length text)) as [_|]; [|lia].
  change (1000 - 100) with 900.
  destruct (Nat.eqb_spec (Nat.min (start + 1000) (length text))
              (length text)) as [E|E].
  - (* the last chunk *)
    rewrite E. rewrite firstn_all2 by (rewrite length_skipn; lia).
    cbn [glue map concat hd removelast length].
    rewrite app_nil_r, length_skipn.
    repeat split; try lia.
    + constructor; [rewrite length_skipn; lia|constructor].
    + constructor.
  - assert (Hlong : start + 1000 < length text) by lia.
    replace (Nat.min (start + 1000) (length text) - start) with 1000 by lia.
    specialize (IH (start + 900) ltac:(lia) ltac:(lia)). cbv zeta in IH.
    destruct (chunk_loop turns (start + 900) text) as [|next rest] eqn:R.
    { destruct IH as (_ & IH & _). cbn [hd length] in IH. lia. }
    destruct IH as (Hglue & Hhd & Hall & Hfull & Hcount).
    cbn [hd] in Hhd. cbn [glue] in Hglue.
    assert (Lc : length (firstn 1000 (skipn start text)) = 1000)
      by (rewrite length_firstn, length_skipn; lia).
    split; [|split; [|split; [|split]]].
    + cbn [glue map concat].
      rewrite <- (firstn_skipn 1000 (skipn start text)) at 2.
      f_equal. rewrite skipn_skipn.
      replace (1000 + start) with (100 + (start + 900)) by lia.
      rewrite <- skipn_skipn, <- Hglue, skipn_app.
      replace (100 - length next) with 0 by lia. reflexivity.
    + cbn [hd]. lia.
    + constructor; [lia|exact Hall].
    + change (removelast (firstn 1000 (skipn start text) :: next :: rest))
        with (firstn 1000 (skipn start text) :: removelast (next :: rest)).
      constructor; [exact Lc|exact Hfull].
    + cbn [length] in *. lia.
Qed.

Lemma _chunk_text_count (text : str) :
  900 * length (_chunk_text text) <= length text + 899.
Proof.
  unfold _chunk_text. destruct text as [|c text]; [cbn; lia|].
  destruct (@chunk_loop_spec (c :: text) (S (length (c :: text))) 0)
    as (_ & _ & _ & _ & H); [lia|cbn [length]; lia|].
  lia.
Qed.

(** X15. Every chunk of [_chunk_text] has between 1 and 1000 characters,
    every chunk but the last has exactly 1000, and a text of [n]
    characters gives at most [(n + 899) / 900] chunks. *)
Theorem _chunk_text_bounds (text : str) :
  let chunks := _chunk_text text in
  Forall (fun chunk => 1 <= length chunk <= 1000) chunks
  /\ Forall (fun chunk => length chunk = 1000) (removelast chunks)
  /\ 900 * length chunks <= length text + 899.
Proof.
  cbv zeta. unfold _chunk_text. destruct text as [|c text].
  - repeat split; try constructor. cbn. lia.
  - destruct (@chunk_loop_spec (c :: text) (S (length (c :: text))) 0)
      as (_ & _ & H1 & H2 & H3); [lia|cbn [length]; lia|].
    split; [exact H1|]. split; [exact H2|]. lia.
Qed.

(** X16. The chunks of [_chunk_text] cover the text without a gap:
    consecutive chunks share 100 characters, and the first chunk followed
    by the other chunks without their first 100 characters is the text. *)
Theorem _chunk_text_covers (text : str) : glue (_chunk_text text) = text.
Proof.
  unfold _chunk_text. destruct text as [|c text]; [reflexivity|].
  destruct (@chunk_loop_spec (c :: text) (S (length (c :: text))) 0)
    as (H & _); [lia|cbn [length]; lia|].
  exact H.
Qed.

(** X17. The context built from the uploaded files has at most 500040
    characters (500000 and the truncation note), so that no compilation
    produces more than 556 chunks. *)
Theorem context_chunks_bounded (parsed_data : list ParsedData) :
  length (_build_text_context parsed_data) <= 500 * 1000 + 40
  /\ length (_chunk_text (_build_text_context parsed_data)) <= 556.
Proof.
  assert (B : length (_build_text_context parsed_data) <= 500 * 1000 + 40).
  { unfold _build_text_context. cbv zeta.
    destruct (Nat.ltb_spec (500 * 1000)
                (length (join (lit "
") (flat_map context_parts parsed_data)))) as [H|H].
    - rewrite length_app, length_firstn.
      change (length (lit "

[CONTEXT TRUNCATED DUE TO SIZE LIMITS]")) with 40. lia.
    - lia. }
  split; [exact B|].
  pose proof (_chunk_text_count (_build_text_context parsed_data)). lia.
Qed.

Section Save.

Variable env : Env.

(** X18. [_save_to_vector_db] touches the chunks of one agent only, the
    first agent with the given name: the chunks of every other agent are
    the same rows, in the same order, before and after. *)
Theorem _save_to_vector_db_other_agents
  (embed : str -> option (list Q)) (agent_name context : str) (db : DB)
  (other : nat) :
  option_map Agent.id (find_agent_by_name db agent_name) <> Some other ->
  filter (fun c => Chunk.agent_id c =? other)
    (document_chunks (_save_to_vector_db env embed agent_name context db))
  = filter (fun c => Chunk.agent_id c =? other) (document_chunks db).
Proof.
  intro H. unfold _save_to_vector_db.
  destruct (_chunk_text context); trivial.
  destruct (embed_all embed _); trivial.
  destruct (raises env OpVectorQuery); trivial.
  destruct (find_agent_by_name db agent_name) as [found|]; trivial.
  assert (Hid : Agent.id found <> other) by (cbn in H; congruence).
  destruct (raises env OpInsertChunks); trivial.
  unfold update_agent. cbn [document_chunks].
  rewrite filter_app.
  set (new_chunks := map _ (combine _ _)).
  assert (N : filter (fun c => Chunk.agent_id c =? other) new_chunks = []).
  { apply ValidatorProps.filter_nil_iff. intros x Hx. subst new_chunks.
    apply in_map_iff in Hx. destruct Hx as [ce [<- _]]. cbn.
    now apply Nat.eqb_neq. }
  rewrite N, app_nil_r.
  destruct (raises env OpDeleteChunks); trivial.
  induction (document_chunks db) as [|c rows IH]; cbn; trivial.
  destruct (Nat.eqb_spec (Chunk.agent_id c) (Agent.id found)) as [E|E];
    cbn [negb].
  - rewrite IH. destruct (Nat.eqb_spec (Chunk.agent_id c) other); trivial.
    congruence.
  - cbn. now rewrite IH.
Qed.

(** X19. When the vector save goes through (the context is not empty,
    every chunk is embedded, the agent is found by its name and neither
    the deletion nor the insertion raises), the rows of the agent are
    afterwards exactly the chunks of [_chunk_text], in their order, each
    with the source ["context"]. *)
Theorem _save_to_vector_db_stores_chunks
  (embed : str -> option (list Q)) (agent_name context : str) (db : DB)
  (found : Agent.t) :
  context <> [] ->
  (forall text, embed text <> None) ->
  raises env OpVectorQuery = None ->
  raises env OpDeleteChunks = None ->
  raises env OpInsertChunks = None ->
  find_agent_by_name db agent_name = Some found ->
  let rows :=
    filter (fun c => Chunk.agent_id c =? Agent.id found)
      (document_chunks (_save_to_vector_db env embed agent_name context db))
  in
  map Chunk.content rows = _chunk_text context
  /\ Forall (fun c => Chunk.source c = lit "context") rows.
Proof.
  intros Hc Hembed Hq Hd Hi Hname. cbv zeta. unfold _save_to_vector_db.
  pose proof (CompilationProps._chunk_text_nonempty Hc) as Hne.
  destruct (_chunk_text context) as [|c cs] eqn:Ec; [congruence|].
  destruct (CompilationProps.embed_all_total embed (c :: cs) Hembed)
    as (es & Ee & Le).
  rewrite Ee, Hq, Hname, Hd, Hi.
  unfold update_agent. cbn [document_chunks].
  rewrite filter_app.
  rewrite (CompilationProps.filter_none
             (fun c => Chunk.agent_id c =? Agent.id found)).
  cbn [app].
  rewrite CompilationProps.filter_all.
  - split.
    + rewrite map_map. cbn [Chunk.content].
      clear Ee Ec Hne. revert es Le.
      induction (c :: cs) as [|x xs IH]; intros [|e es] Le;
        try discriminate; cbn; trivial.
      f_equal. apply IH. now injection Le.
    + apply Forall_forall. intros x Hx. apply in_map_iff in Hx.
      now destruct Hx as [ce [<- _]].
  - intros x Hx. apply in_map_iff in Hx. destruct Hx as [ce [<- _]].
    cbn. apply Nat.eqb_refl.
Qed.

End Save.

Import CompilationProps.

(** The agent "chef" next to a chunk of another agent. *)
Definition shared_db : DB :=
  {| agents := [demo_agent];
     jobs := [];
     document_chunks :=
       [ {| Chunk.agent_id := 2; Chunk.content := lit "Contract law";
            Chunk.embedding := [1%Q]; Chunk.source := lit "context" |} ] |}.

Lemma _save_to_vector_db_other_agents_witness :
  filter (fun c => Chunk.agent_id c =? 2)
    (document_chunks
       (_save_to_vector_db (demo_env no_fault None) demo_embed (lit "chef")
          (lit "Caesar Salad") shared_db))
  = filter (fun c => Chunk.agent_id c =? 2) (document_chunks shared_db).
Proof.
  apply _save_to_vector_db_other_agents. cbn. discriminate.
Defined.

Lemma _save_to_vector_db_stores_chunks_witness :
  let rows :=
    filter (fun c => Chunk.agent_id c =? Agent.id demo_agent)
      (document_chunks
         (_save_to_vector_db (demo_env no_fault None) demo_embed (lit "chef")
            (lit "Caesar Salad") demo_db)) in
  map Chunk.content rows = _chunk_text (lit "Caesar Salad")
  /\ Forall (fun c => Chunk.source c = lit "context") rows.
Proof.
  apply _save_to_vector_db_stores_chunks; try reflexivity.
  - discriminate.
  - intros text H. discriminate H.
Defined.

End ChunkingProps.

(* ===================================================================== *)
(** * Frame and outcome of the compilation worker *)
(* ===================================================================== *)

Module WorkerFrame.
Import Py Compilation CompilationProps.
Local Open Scope nat_scope.

Section Frame.

Variable env : Env.
Variable agent_id job_id : nat.
Variable system_prompt : str.
Variable files_data : list FileInfo.

(** What a run may do to a job row and to an agent row: it never changes
    an id, the agent of a job or the name of an agent; it changes no other
    column of a job that is not its own; of an agent that is not its own
    it changes no column but [chunk_count]. *)
Definition job_kept (j j' : Job.t) : Prop :=
  Job.id j' = Job.id j
  /\ Job.agent_id j' = Job.agent_id j
  /\ (Job.id j <> job_id -> j' = j).

Definition agent_kept (a a' : Agent.t) : Prop :=
  Agent.id a' = Agent.id a
  /\ Agent.name a' = Agent.name a
  /\ (Agent.id a <> agent_id ->
      Agent.status a' = Agent.status a
      /\ Agent.domain a' = Agent.domain a
      /\ Agent.domain_keywords a' = Agent.domain_keywords a
      /\ Agent.entity_count a' = Agent.entity_count a).

Definition kept (d d' : DB) : Prop :=
  Forall2 job_kept (jobs d) (jobs d')
  /\ Forall2 agent_kept (agents d) (agents d').

Lemma Forall2_refl (A : Type) (R : A -> A -> Prop) (l : list A) :
  (forall x, R x x) -> Forall2 R l l.
Proof. intro H. induction l; constructor; auto. Qed.

Lemma Forall2_trans (A : Type) (R : A -> A -> Prop) :
  (forall x y z, R x y -> R y z -> R x z) ->
  forall l1 l2 l3, Forall2 R l1 l2 -> Forall2 R l2 l3 -> Forall2 R l1 l3.
Proof.
  intros T l1 l2 l3 H. revert l3.
  induction H as [|x y l1 l2 Hxy _ IH]; intros l3 H3;
    inversion H3; subst; constructor; eauto.
Qed.

Lemma Forall2_map_r (A : Type) (R : A -> A -> Prop) (f : A -> A)
  (l : list A) :
  (forall x, R x (f x)) -> Forall2 R l (map f l).
Proof. intro H. induction l; cbn; constructor; auto. Qed.

Lemma job_kept_refl j : job_kept j j.
Proof. now repeat split. Qed.

Lemma agent_kept_refl a : agent_kept a a.
Proof. now repeat split. Qed.

Lemma job_kept_trans j1 j2 j3 :
  job_kept j1 j2 -> job_kept j2 j3 -> job_kept j1 j3.
Proof.
  intros (I1 & A1 & F1) (I2 & A2 & F2). repeat split; try congruence.
  intro H. rewrite <- (F1 H). apply F2. congruence.
Qed.

Lemma agent_kept_trans a1 a2 a3 :
  agent_kept a1 a2 -> agent_kept a2 a3 -> agent_kept a1 a3.
Proof.
  intros (I1 & N1 & F1) (I2 & N2 & F2).
  split; [congruence|]. split; [congruence|].
  intro H. destruct (F1 H) as (S1 & D1 & K1 & E1).
  destruct F2 as (S2 & D2 & K2 & E2); [congruence|].
  repeat split; congruence.
Qed.

Lemma kept_refl d : kept d d.
Proof.
  split; apply Forall2_refl; [apply job_kept_refl|apply agent_kept_refl].
Qed.

Lemma kept_trans d1 d2 d3 : kept d1 d2 -> kept d2 d3 -> kept d1 d3.
Proof.
  intros [J1 A1] [J2 A2]. split.
  - exact (Forall2_trans job_kept_trans J1 J2).
  - exact (Forall2_trans agent_kept_trans A1 A2).
Qed.

Lemma assign_job_agent_id (updates : list JobUpdate) (j : Job.t) :
  Job.agent_id (fold_left assign_job updates j) = Job.agent_id j.
Proof.
  revert j. induction updates as [|u us IH]; intro j; cbn; trivial.
  rewrite IH. now destruct u.
Qed.

(** Writing to the job of the run, and to its agent. *)
Lemma kept_update_job d updates : kept d (update_job d job_id updates).
Proof.
  split; cbn [jobs agents update_job].
  - apply Forall2_map_r. intro j.
    destruct (Nat.eqb_spec (Job.id j) job_id) as [E|E].
    + split; [apply assign_job_id|].
      split; [apply assign_job_agent_id|]. congruence.
    + apply job_kept_refl.
  - apply Forall2_refl, agent_kept_refl.
Qed.

Lemma kept_update_agent d updates : kept d (update_agent d agent_id updates).
Proof.
  split; cbn [jobs agents update_agent].
  - apply Forall2_refl, job_kept_refl.
  - apply Forall2_map_r. intro a.
    destruct (Nat.eqb_spec (Agent.id a) agent_id) as [E|E].
    + split; [apply assign_agent_id|].
      split; [apply assign_agent_name|]. congruence.
    + apply agent_kept_refl.
Qed.

(** Writing a chunk count, to any agent. *)
Lemma kept_chunk_count d id n chunks :
  kept d
    (update_agent
       {| agents := agents d; jobs := jobs d; document_chunks := chunks |}
       id [SetChunkCount n]).
Proof.
  split; cbn [jobs agents update_agent].
  - apply Forall2_refl, job_kept_refl.
  - apply Forall2_map_r. intro a.
    destruct (Agent.id a =? id); [|apply agent_kept_refl].
    now repeat split.
Qed.

Lemma kept_save embed agent_name context d :
  kept d (_save_to_vector_db env embed agent_name context d).
Proof.
  unfold _save_to_vector_db.
  repeat match goal with
  | |- kept _ (match ?x with _ => _ end) => destruct x
  end; try apply kept_refl.
  all: apply kept_chunk_count.
Qed.

Lemma kept_compile agent_name parsed_data d :
  kept d (fst (compile env agent_name parsed_data d)).
Proof.
  unfold compile. destruct (raises env OpSaveAgent); [apply kept_refl|].
  destruct (embedding_model env); [|apply kept_refl].
  apply kept_save.
Qed.

Lemma kept_flushed (w : World) :
  kept (db w) (db (flushed agent_id job_id w)).
Proof.
  unfold flushed. cbn [db].
  eapply kept_trans; [apply kept_update_job|apply kept_update_agent].
Qed.

(** A step of the worker that keeps the rows. *)
Definition keeps (A : Type) (m : W A) : Prop :=
  forall w, kept (db w) (db (fst (m w))).

Lemma keeps_ret (A : Type) (a : A) : keeps (ret a).
Proof. intro w. apply kept_refl. Qed.

Lemma keeps_bind (A B : Type) (m : W A) (k : A -> W B) :
  keeps m -> (forall a, keeps (k a)) -> keeps (bind m k).
Proof.
  intros Hm Hk w. unfold bind. specialize (Hm w).
  destruct (m w) as [w' [e|a]]; [exact Hm|].
  eapply kept_trans; [exact Hm|apply Hk].
Qed.

Lemma keeps_attempt op : keeps (attempt env op).
Proof.
  intro w. unfold attempt. destruct (raises env op); apply kept_refl.
Qed.

Lemma keeps_set_job updates : keeps (set_job updates).
Proof. intro w. apply kept_refl. Qed.

Lemma keeps_set_agent updates : keeps (set_agent updates).
Proof. intro w. apply kept_refl. Qed.

Lemma keeps_commit op : keeps (commit env agent_id job_id op).
Proof.
  intro w. unfold commit.
  destruct (raises env op); [apply kept_refl|apply kept_flushed].
Qed.

Lemma keeps__update_progress p s :
  keeps (_update_progress env agent_id job_id p s).
Proof.
  apply keeps_bind; [apply keeps_set_job|intro; apply keeps_commit].
Qed.

Lemma keeps_compile_and_continue agent_name parsed_data :
  keeps (compile_and_continue env agent_name parsed_data).
Proof.
  intro w. unfold compile_and_continue.
  pose proof (kept_compile agent_name parsed_data (db w)) as H.
  destruct (compile env agent_name parsed_data (db w)) as [d result].
  exact H.
Qed.

Lemma keeps_try_block :
  keeps (try_block env agent_id job_id system_prompt files_data).
Proof.
  intro w. unfold try_block.
  match goal with
  | |- kept _ (db (fst (?m w))) => assert (K : keeps m); [|exact (K w)]
  end.
  apply keeps_bind; [apply keeps_attempt|intros _].
  destruct (find_job (db w) job_id); [|apply keeps_ret].
  destruct (find_agent (db w) agent_id); [|apply keeps_ret].
  repeat (apply keeps_bind;
          [ first [ apply keeps__update_progress | apply keeps_attempt
                  | apply keeps_compile_and_continue | apply keeps_set_agent
                  | apply keeps_set_job ]
          | intro ]).
  apply keeps_commit.
Qed.

(** X20. Whatever happens during a run (any fault, any reply of the LLM,
    any upload, missing rows included), it neither adds nor removes a job
    or an agent and changes no id, no job's agent and no agent's name;
    every job other than its own is left exactly as it was; and of every
    agent other than its own the status, the domain, the domain keywords
    and the entity count are left as they were. *)
Theorem run_keeps_other_rows (db0 : DB) :
  let final :=
    _run_compilation_thread env agent_id job_id system_prompt files_data db0
  in
  Forall2 job_kept (jobs db0) (jobs final)
  /\ Forall2 agent_kept (agents db0) (agents final).
Proof.
  cbv zeta. unfold _run_compilation_thread.
  set (start := {| db := db0; dirty_job := []; dirty_agent := [] |}).
  pose proof (keeps_try_block start) as K.
  destruct (try_block env agent_id job_id system_prompt files_data start)
    as [w [e|x]]; cbn [fst] in K; [|exact K].
  change db0 with (db start).
  eapply kept_trans; [exact K|].
  unfold on_error. destruct (raises env OpErrorUpdate).
  - apply kept_refl.
  - match goal with
    | |- kept _ (db (flushed _ _ ?w')) =>
        change (db w) with (db w'); apply kept_flushed
    end.
Qed.

(** When the row of the job or the row of the agent is missing (and
    the two queries raise nothing), the run returns at once and leaves the
    database as it found it: nothing is marked as failed. *)
Lemma run_without_rows (db0 : DB) :
  raises env OpQuery = None ->
  find_job db0 job_id = None \/ find_agent db0 agent_id = None ->
  _run_compilation_thread env agent_id job_id system_prompt files_data db0
  = db0.
Proof.
  intros Hq Hmiss. unfold _run_compilation_thread, try_block.
  cbv beta iota delta [bind attempt ret]. cbn [db]. rewrite Hq.
  destruct Hmiss as [-> | Ha]; [reflexivity|].
  rewrite Ha. now destruct (find_job db0 job_id).
Qed.

End Frame.

(** ** What a run that goes through writes to the agent *)

(** The lines of an uploaded file, as the worker counts them: an empty or
    missing content has none, any other content has one more than it has
    line feeds. *)
Definition line_count (file_info : FileInfo) : nat :=
  match file_content file_info with
  | Some (c :: rest) => S (count_occ ascii_dec (c :: rest) "010"%char)
  | _ => 0
  end.

Lemma split_on_aux_length (sep : ascii) (s cur : str) :
  length (split_on_aux sep cur s) = S (count_occ ascii_dec s sep).
Proof.
  revert cur. induction s as [|c s IH]; intro cur; cbn [split_on_aux];
    [reflexivity|].
  cbn [count_occ].
  destruct (Ascii.eqb_spec c sep) as [E|E].
  - subst. destruct (ascii_dec sep sep); [|congruence].
    cbn [length]. now rewrite IH.
  - destruct (ascii_dec c sep); [congruence|]. apply IH.
Qed.

Lemma records_length (file_info : FileInfo) :
  length (records (parse_file_info file_info)) = line_count file_info.
Proof.
  unfold parse_file_info, line_count. cbn [records].
  destruct (file_content file_info) as [[|c rest]|]; trivial.
  apply split_on_aux_length.
Qed.

Lemma fold_add (l : list nat) (acc : nat) :
  fold_left Nat.add l acc = acc + list_sum l.
Proof.
  revert acc. induction l as [|x l IH]; intro acc; [cbn; lia|].
  cbn [fold_left]. rewrite IH.
  change (list_sum (x :: l)) with (x + list_sum l). lia.
Qed.

Lemma total_entries_lines (files_data : list FileInfo) :
  _calculate_stats_total_entries (map parse_file_info files_data)
  = list_sum (map line_count files_data).
Proof.
  unfold _calculate_stats_total_entries. rewrite fold_add, map_map.
  cbn [Nat.add]. f_equal. apply map_ext, records_length.
Qed.

(** X21. After a run in which none of the worker's own operations raises,
    the agent carries the domain and the domain keywords of the prompt
    analysis, and its entity count is the number of lines of the uploaded
    files, or 0 when writing the agent files raised inside [compile]. *)
Theorem run_writes_agent_metadata
  (env : Env) (agent_id job_id : nat) (system_prompt : str)
  (files_data : list FileInfo) (db0 : DB) (job0 : Job.t) (agent0 : Agent.t) :
  find_job db0 job_id = Some job0 ->
  find_agent db0 agent_id = Some agent0 ->
  (forall op, In op worker_ops -> raises env op = None) ->
  let final :=
    _run_compilation_thread env agent_id job_id system_prompt files_data db0
  in
  let analysis := PromptAnalyzer.analyze_prompt (llm env) system_prompt in
  exists agent',
    find_agent final agent_id = Some agent'
    /\ Agent.domain agent' = Some (PromptAnalyzer.domain analysis)
    /\ Agent.domain_keywords agent' = PromptAnalyzer.domain_keywords analysis
    /\ Agent.entity_count agent'
       = Some match raises env OpSaveAgent with
              | Some _ => 0
              | None => list_sum (map line_count files_data)
              end.
Proof.
  intros Hjob Hagent Hnone. cbv zeta.
  pose proof (@try_block_outcome env agent_id job_id system_prompt files_data
                db0 job0 agent0 Hjob Hagent) as O.
  unfold _run_compilation_thread.
  destruct (try_block env agent_id job_id system_prompt files_data _)
    as [w [e|[]]].
  - destruct O as ((op & Hin & Hop) & _). rewrite (Hnone op Hin) in Hop.
    discriminate Hop.
  - destruct O as (_ & _ & _ & Hfa & (a & Ha)).
    rewrite Hfa, Ha. cbn [option_map]. eexists.
    split; [reflexivity|]. unfold ready_updates.
    cbn [fold_left assign_agent Agent.domain Agent.domain_keywords
         Agent.entity_count].
    split; [reflexivity|]. split; [reflexivity|].
    unfold compiled, compile.
    destruct (raises env OpSaveAgent); cbn [snd]; [reflexivity|].
    now rewrite total_entries_lines.
Qed.

(** A file of three lines. *)
Definition three_lines : list FileInfo :=
  [ {| file_content := Some (lit "Caesar Salad
Greek Salad
Waldorf Salad");
       filename := Some (lit "salads.txt") |} ].

Lemma run_writes_agent_metadata_witness :
  exists agent',
    find_agent
      (_run_compilation_thread (demo_env no_fault None) 1 5
         (lit "You are a chef.") three_lines demo_db) 1
    = Some agent'
    /\ Agent.domain agent' = Some (lit "general")
    /\ Agent.entity_count agent' = Some 3.
Proof.
  destruct (@run_writes_agent_metadata (demo_env no_fault None) 1 5
              (lit "You are a chef.") three_lines demo_db demo_job demo_agent
              eq_refl eq_refl (fun op _ => eq_refl))
    as (agent' & Hf & Hd & _ & He).
  exists agent'. split; [exact Hf|]. split; [exact Hd|exact He].
Defined.

End WorkerFrame.

(* ===================================================================== *)
(** * Further properties of the validator *)
(* ===================================================================== *)

Module ValidatorMore.
Import Py PyFacts DataValidator ValidatorProps TextParser.
Local Open Scope nat_scope.

(** ** The order of the files, and more files *)

Lemma sum_list_sum (l : list nat) : sum l = list_sum l.
Proof. unfold sum. now rewrite WorkerFrame.fold_add. Qed.

Lemma list_sum_perm (l l' : list nat) :
  Permutation l l' -> list_sum l = list_sum l'.
Proof.
  induction 1 as [|x l l' _ IH|x y l|l l' l'' _ IH1 _ IH2].
  - reflexivity.
  - change (x + list_sum l = x + list_sum l'). now rewrite IH.
  - change (y + (x + list_sum l) = x + (y + list_sum l)). lia.
  - congruence.
Qed.

(** X22. The verdict does not depend on the order in which the files were
    given: a rearranged list of files has the same totals and the same
    [sufficient] flag. *)
Theorem validate_sufficiency_order (parsed_data parsed_data' : list ParsedSource) :
  Permutation parsed_data parsed_data' ->
  let report := validate_sufficiency parsed_data in
  let report' := validate_sufficiency parsed_data' in
  sufficient report' = sufficient report
  /\ total_entries (stats report') = total_entries (stats report)
  /\ total_characters (stats report') = total_characters (stats report)
  /\ total_files (stats report') = total_files (stats report).
Proof.
  intro P. cbv zeta.
  assert (E : sum (map entries_of parsed_data')
              = sum (map entries_of parsed_data))
    by (rewrite !sum_list_sum; symmetry;
        apply list_sum_perm, Permutation_map, P).
  assert (C : sum (map chars_of parsed_data')
              = sum (map chars_of parsed_data))
    by (rewrite !sum_list_sum; symmetry;
        apply list_sum_perm, Permutation_map, P).
  split; [|split; [exact E|split; [exact C|]]].
  - pose proof (sufficient_iff parsed_data) as H.
    pose proof (sufficient_iff parsed_data') as H'.
    rewrite E, C in H'.
    assert (I : forall p, In p parsed_data' <-> In p parsed_data)
      by (intro p; split; apply Permutation_in;
          [now apply Permutation_sym|exact P]).
    destruct (sufficient (validate_sufficiency parsed_data)) eqn:S.
    + apply H'. destruct H as [H _]. destruct (H eq_refl) as (A & B & D).
      repeat split; trivial; intros p Hp; [apply B|apply D]; now apply I.
    + destruct (sufficient (validate_sufficiency parsed_data')); trivial.
      destruct H' as [H' _]. destruct (H' eq_refl) as (A & B & D).
      symmetry. apply H.
      repeat split; trivial; intros p Hp; [apply B|apply D]; now apply I.
  - cbn. symmetry. now apply Permutation_length.
Qed.

(** X23. Files that parsed without error and are not empty never turn a
    sufficient upload into an insufficient one. *)
Theorem validate_sufficiency_more_files
  (parsed_data more : list ParsedSource) :
  sufficient (validate_sufficiency parsed_data) = true ->
  (forall p, In p more -> error p = None /\ entries_of p <> 0) ->
  sufficient (validate_sufficiency (parsed_data ++ more)) = true.
Proof.
  intros S M. apply sufficient_iff. apply sufficient_iff in S.
  destruct S as (A & B & D).
  rewrite !map_app, !sum_list_sum, !list_sum_app, <- !sum_list_sum.
  split; [lia|].
  split; intros p Hp; apply in_app_or in Hp;
    destruct Hp as [Hp|Hp]; auto; now apply M.
Qed.

(** ** Text files *)

Lemma lstrip_nil_iff (s : str) :
  lstrip s = [] <-> forall c, In c s -> isspace c = true.
Proof.
  induction s as [|d s IH]; cbn [lstrip].
  - split; [intros _ c []|trivial].
  - destruct (isspace d) eqn:E.
    + rewrite IH. split.
      * intros H c [<-|Hc]; auto.
      * intros H c Hc. apply H. now right.
    + split; [discriminate|].
      intro H. specialize (H d (or_introl eq_refl)). congruence.
Qed.

Lemma lstrip_subset (s : str) (c : ascii) : In c (lstrip s) -> In c s.
Proof.
  destruct (lstrip_suffix s) as [pre E]. intro H.
  rewrite E. apply in_or_app. now right.
Qed.

Lemma lstrip_head (s r : str) (c : ascii) :
  lstrip s = c :: r -> isspace c = false.
Proof.
  induction s as [|d s IH]; cbn [lstrip]; [discriminate|].
  destruct (isspace d) eqn:E; [exact IH|].
  intro H. now injection H as <- _.
Qed.

Lemma strip_nil_iff (s : str) :
  strip s = [] <-> forall c, In c s -> isspace c = true.
Proof.
  unfold strip, rstrip. split.
  - intro H. apply (f_equal (@rev ascii)) in H.
    rewrite rev_involutive in H. cbn [rev] in H.
    apply lstrip_nil_iff. destruct (lstrip s) as [|c r] eqn:L; trivial.
    apply lstrip_head in L.
    assert (Hc : isspace c = true).
    { apply (proj1 (lstrip_nil_iff _) H). apply in_rev.
      rewrite rev_involutive. now left. }
    congruence.
  - intro H. apply lstrip_nil_iff in H. now rewrite H.
Qed.

(** The pieces of [str.split(sep)] hold the characters of the string that
    are not the separator, and no others. *)
Lemma split_on_aux_chars (sep : ascii) (s cur : str) (c : ascii) :
  c <> sep ->
  (In c cur \/ In c s
   <-> exists line, In line (split_on_aux sep cur s) /\ In c line).
Proof.
  intro Hc. revert cur. induction s as [|d s IH]; intro cur;
    cbn [split_on_aux].
  - split.
    + intros [H|[]]. exists (rev cur). split; [now left|].
      now apply in_rev in H.
    + intros (line & [<-|[]] & H). left. now apply in_rev.
  - destruct (Ascii.eqb_spec d sep) as [E|E].
    + subst d. split.
      * intros [H|[H|H]]; [|congruence|].
        -- exists (rev cur). split; [now left|]. now apply in_rev in H.
        -- destruct (proj1 (IH []) (or_intror H)) as (line & Hl & Hin).
           exists line. split; [now right|exact Hin].
      * intros (line & [<-|Hl] & Hin).
        -- left. now apply in_rev.
        -- destruct (proj2 (IH []) (ex_intro _ line (conj Hl Hin)))
             as [[]|H]. right. now right.
    + rewrite <- IH. cbn [In]. split.
      * intros [H|[<-|H]]; auto.
      * intros [[<-|H]|H]; auto.
Qed.

Definition only_white_space (read : str + str) : Prop :=
  match read with
  | inl _ => True
  | inr text => forall c, In c text -> isspace c = true
  end.

Lemma parse_file_txt_entries (name : str) (read : str + str) :
  entries_of (parse_file_txt name read) = 0 <-> only_white_space read.
Proof.
  destruct read as [e|text]; cbn [parse_file_txt only_white_space].
  - now split.
  - unfold entries_of, _parse_txt. cbn [entries_count get].
    rewrite length_map, length_zero_iff_nil, filter_nil_iff.
    split.
    + intros H c Hc. destruct (isspace c) eqn:Ec; trivial.
      assert (Hn : c <> "010"%char) by (intros ->; discriminate Ec).
      destruct (proj1 (split_on_aux_chars text [] Hn) (or_intror Hc))
        as (line & Hl & Hin).
      specialize (H line Hl).
      destruct (strip line) eqn:S; [|discriminate].
      rewrite <- Ec. now apply (proj1 (strip_nil_iff line)).
    + intros H line Hl.
      assert (S : strip line = []).
      { apply strip_nil_iff. intros c Hc.
        destruct (isspace c) eqn:Ec; trivial.
        assert (Hn : c <> "010"%char) by (intros ->; discriminate Ec).
        destruct (proj2 (split_on_aux_chars text [] Hn)
                    (ex_intro _ line (conj Hl Hc))) as [[]|Hin].
        rewrite <- Ec. now apply H. }
      now rewrite S.
Qed.

(** X24. A text file counts as empty, with [entries_count] 0, exactly
    when it could not be read or holds nothing but white space; the
    ["error"] key is set exactly when it could not be read. *)
Theorem parse_file_txt_empty (name : str) (read : str + str) :
  let parsed := parse_file_txt name read in
  (entries_of parsed = 0 <-> only_white_space read)
  /\ (has_error parsed = true <-> exists e, read = inl e).
Proof.
  cbv zeta. split; [apply parse_file_txt_entries|].
  destruct read as [e|text]; cbn.
  - split; [eauto|reflexivity].
  - split; [discriminate|intros [e E]; discriminate E].
Qed.

(** An upload with a text file that could not be read or holds only
    white space is never sufficient, however many characters the files
    have. *)
Lemma blank_text_file_is_insufficient
  (name : str) (read : str + str) (before after : list ParsedSource) :
  only_white_space read ->
  sufficient
    (validate_sufficiency (before ++ parse_file_txt name read :: after))
  = false.
Proof.
  intro H.
  destruct (sufficient (validate_sufficiency _)) eqn:S; trivial.
  apply sufficient_iff in S. destruct S as (_ & _ & D).
  exfalso. apply (D (parse_file_txt name read)).
  - apply in_or_app. right. now left.
  - now apply parse_file_txt_entries.
Qed.

(** Two files of 12 and 8 entries in both orders, and the same with a
    third file. *)
Lemma validate_sufficiency_order_witness :
  sufficient (validate_sufficiency [csv_file 8; csv_file 12])
  = sufficient (validate_sufficiency [csv_file 12; csv_file 8]).
Proof.
  apply (validate_sufficiency_order (parsed_data := [csv_file 12; csv_file 8])
           (parsed_data' := [csv_file 8; csv_file 12])).
  apply perm_swap.
Defined.

Lemma validate_sufficiency_more_files_witness :
  sufficient (validate_sufficiency ([csv_file 12; csv_file 8] ++ [csv_file 1]))
  = true.
Proof.
  apply validate_sufficiency_more_files.
  - reflexivity.
  - intros p [<-|[]]. split; [reflexivity|discriminate].
Defined.

End ValidatorMore.

(* ===================================================================== *)
(** * Further properties of the domain guardrail *)
(* ===================================================================== *)

Module GuardrailProps.
Import Py PyFacts ReasoningEngine.
Local Open Scope Q_scope.

Section Guardrail.

Variable fuzzy_match : str -> str -> Q.

Lemma match_word_range (word : str) (signature : list str) :
  0 <= match_word fuzzy_match word signature <= 1.
Proof.
  induction signature as [|kw rest IH]; cbn [match_word]; [split; lra|].
  destruct (Qltb 0.75 (fuzzy_match word kw)); [split; lra|].
  destruct (contains word kw || contains kw word); [split; lra|exact IH].
Qed.

(** The sum over the query words is between 0 and the number of words. *)
Lemma matches_range (signature words : list str) (acc : Q) :
  let matches :=
    fold_left
      (fun m word =>
         if (length word <? 3)%nat then m
         else m + match_word fuzzy_match word signature) words acc in
  acc <= matches <= acc + inject_Z (Z.of_nat (length words)).
Proof.
  cbv zeta. revert acc. induction words as [|w words IH]; intro acc.
  - cbn [fold_left length].
    change (inject_Z (Z.of_nat 0)) with 0. split; lra.
  - cbn [fold_left length]. rewrite Nat2Z.inj_succ, <- Z.add_1_r, inject_Z_plus.
    change (inject_Z 1) with 1.
    pose proof (match_word_range w signature) as [M0 M1].
    destruct (length w <? 3)%nat.
    + specialize (IH acc). split; lra.
    + specialize (IH (acc + match_word fuzzy_match w signature)).
      split; lra.
Qed.

(** A term of the analysis that occurs in the query adds its weight. *)
Lemma count_hits_hit (weight : Q) (terms : list str) (query_lower : str) :
  0 <= weight ->
  existsb (fun term => contains (lower term) query_lower) terms = true ->
  weight <= count_hits weight terms query_lower.
Proof.
  intros Hw. unfold count_hits.
  assert (G : forall l acc, 0 <= acc ->
              acc <= fold_left
                       (fun bonus term =>
                          if contains (lower term) query_lower
                          then bonus + weight else bonus) l acc).
  { induction l as [|t ts IH]; intros acc Hacc; cbn; [lra|].
    destruct (contains (lower t) query_lower).
    - specialize (IH (acc + weight) ltac:(lra)). lra.
    - now apply IH. }
  assert (F : forall l acc, 0 <= acc ->
              existsb (fun term => contains (lower term) query_lower) l
              = true ->
              acc + weight
              <= fold_left
                   (fun bonus term =>
                      if contains (lower term) query_lower
                      then bonus + weight else bonus) l acc).
  { induction l as [|t ts IH]; intros acc Hacc; cbn [existsb fold_left];
      [discriminate|].
    destruct (contains (lower t) query_lower); cbn [orb].
    - intros _. apply (G ts (acc + weight)). lra.
    - now apply IH. }
  intro E. specialize (F terms 0 ltac:(lra) E). lra.
Qed.


(** The parts of the score. *)
Definition bonus_of (query : str) (prompt_analysis : AnalysisDict) : Q :=
  (if contains (lower (get (domain prompt_analysis) [])) (lower query)
   then 3 else 0)
  + count_hits 2 (get (sub_domains prompt_analysis) []) (lower query)
  + count_hits 1.5 (get (domain_keywords prompt_analysis) []) (lower query).

Definition base_of (query : str) (domain_signature : list str) : Q :=
  let query_words := nodup str_eq_dec (split (lower query)) in
  fold_left
    (fun m word =>
       if (length word <? 3)%nat then m
       else m + match_word fuzzy_match word
                  (firstn 100 (map lower domain_signature)))
    query_words 0
  / inject_Z (Z.of_nat (Nat.max 1 (Nat.min (length query_words) 10))).

Lemma _check_guardrail_parts query domain_signature prompt_analysis :
  _check_guardrail fuzzy_match query domain_signature prompt_analysis
  = let bonus := bonus_of query prompt_analysis in
    let score :=
      min 1.0 (base_of query domain_signature + min 0.5 (bonus * 0.1)) in
    let score := if Qleb 1 bonus then max score 0.2 else score in
    (Qleb DOMAIN_SIMILARITY_THRESHOLD score, score).
Proof. reflexivity. Qed.

Lemma bonus_of_nonneg query prompt_analysis :
  0 <= bonus_of query prompt_analysis.
Proof.
  unfold bonus_of.
  pose proof (EngineProps.count_hits_nonneg
                (get (sub_domains prompt_analysis) []) (lower query)
                (weight := 2) ltac:(lra)).
  pose proof (EngineProps.count_hits_nonneg
                (get (domain_keywords prompt_analysis) []) (lower query)
                (weight := 1.5) ltac:(lra)).
  destruct (contains _ _); lra.
Qed.

Lemma base_of_nonneg query domain_signature :
  0 <= base_of query domain_signature.
Proof.
  unfold base_of. cbv zeta.
  set (words := nodup str_eq_dec (split (lower query))).
  pose proof (matches_range (firstn 100 (map lower domain_signature))
                words 0) as [M _]. cbv zeta in M.
  apply Qle_shift_div_l.
  - apply FaithfulnessMore.count_positive. lia.
  - lra.
Qed.

(** X25. The relevance score of the guardrail lies between 0 and 1, for
    every query, signature, analysis and fuzzy-match function, and the
    query is in-domain exactly when the score is at least 0.05. *)
Theorem _check_guardrail_score_range
  (query : str) (domain_signature : list str)
  (prompt_analysis : AnalysisDict) :
  let r :=
    _check_guardrail fuzzy_match query domain_signature prompt_analysis in
  0 <= snd r <= 1 /\ (fst r = true <-> 0.05 <= snd r).
Proof.
  cbv zeta. rewrite _check_guardrail_parts. cbv zeta. cbn [fst snd].
  pose proof (bonus_of_nonneg query prompt_analysis) as B.
  pose proof (base_of_nonneg query domain_signature) as A.
  set (bonus := bonus_of query prompt_analysis) in *.
  set (base := base_of query domain_signature) in *.
  split; [|apply Qleb_true].
  destruct (min_spec 0.5 (bonus * 0.1)) as [[H1 ->]|[H1 ->]];
    destruct (min_spec 1.0 (base + bonus * 0.1)) as [[H2 E2]|[H2 E2]];
    destruct (min_spec 1.0 (base + 0.5)) as [[H3 E3]|[H3 E3]];
    rewrite ?E2, ?E3;
    destruct (Qleb 1 bonus);
    try match goal with
        | |- context [max ?a ?b] =>
            destruct (max_spec a b) as [[H4 ->]|[H4 ->]]
        end;
    split; lra.
Qed.

(** Whether the query mentions the domain, a sub-domain or a domain keyword
    of the analysis, ignoring case. *)
Definition mentions (query : str) (prompt_analysis : AnalysisDict) : bool :=
  contains (lower (get (domain prompt_analysis) [])) (lower query)
  || existsb (fun term => contains (lower term) (lower query))
       (get (sub_domains prompt_analysis) [])
  || existsb (fun term => contains (lower term) (lower query))
       (get (domain_keywords prompt_analysis) []).

Lemma mentions_bonus query prompt_analysis :
  mentions query prompt_analysis = true ->
  1 <= bonus_of query prompt_analysis.
Proof.
  unfold mentions, bonus_of. intro H.
  pose proof (EngineProps.count_hits_nonneg
                (get (sub_domains prompt_analysis) []) (lower query)
                (weight := 2) ltac:(lra)) as H2.
  pose proof (EngineProps.count_hits_nonneg
                (get (domain_keywords prompt_analysis) []) (lower query)
                (weight := 1.5) ltac:(lra)) as H3.
  destruct (contains (lower (get (domain prompt_analysis) [])) (lower query));
    [lra|].
  cbn [orb] in H. apply orb_true_iff in H. destruct H as [H|H].
  - pose proof (count_hits_hit (weight := 2) _ _ ltac:(lra) H). lra.
  - pose proof (count_hits_hit (weight := 1.5) _ _ ltac:(lra) H). lra.
Qed.

Lemma bonus_accepts query domain_signature prompt_analysis :
  1 <= bonus_of query prompt_analysis ->
  let r :=
    _check_guardrail fuzzy_match query domain_signature prompt_analysis in
  fst r = true /\ 0.2 <= snd r.
Proof.
  intro H. cbv zeta.
  rewrite _check_guardrail_parts. cbv zeta. cbn [fst snd].
  apply Qleb_true in H. rewrite H.
  match goal with |- context [max ?s0 0.2] => generalize s0; intro s end.
  destruct (max_spec s 0.2) as [[H4 ->]|[H4 ->]];
    (split; [apply Qleb_true; unfold DOMAIN_SIMILARITY_THRESHOLD|]); lra.
Qed.

(** X26. A query that mentions the domain, one of the sub-domains or one
    of the domain keywords of the analysis (as a substring, ignoring case)
    is in-domain, with a score of at least 0.2, whatever the signature and
    the rest of the query. *)
Theorem guardrail_accepts_mentions
  (query : str) (domain_signature : list str)
  (prompt_analysis : AnalysisDict) :
  mentions query prompt_analysis = true ->
  let r :=
    _check_guardrail fuzzy_match query domain_signature prompt_analysis in
  fst r = true /\ 0.2 <= snd r.
Proof.
  intro H. now apply bonus_accepts, mentions_bonus.
Qed.

(** X27. An analysis without a [domain] key makes the guardrail accept
    every query: the default domain is the empty string, which occurs in
    every query. *)
Theorem guardrail_without_domain_accepts_all
  (query : str) (domain_signature : list str)
  (sub_domains domain_keywords : option (list str)) :
  fst (_check_guardrail fuzzy_match query domain_signature
         {| domain := None;
            sub_domains := sub_domains;
            domain_keywords := domain_keywords |})
  = true.
Proof.
  apply bonus_accepts, mentions_bonus.
  unfold mentions. cbn [domain get lower map].
  unfold contains. rewrite find_unfold. reflexivity.
Qed.

(** X28. A query that mentions none of the terms of the analysis and none
    of whose words matches a keyword of the signature gets the score 0 and
    is out of domain. *)
Theorem guardrail_rejects_unrelated
  (query : str) (domain_signature : list str)
  (prompt_analysis : AnalysisDict) :
  mentions query prompt_analysis = false ->
  (forall word,
     In word (split (lower query)) ->
     match_word fuzzy_match word (firstn 100 (map lower domain_signature))
     == 0) ->
  let r :=
    _check_guardrail fuzzy_match query domain_signature prompt_analysis in
  fst r = false /\ snd r == 0.
Proof.
  intros Hm Hw. cbv zeta.
  rewrite _check_guardrail_parts. cbv zeta. cbn [fst snd].
  assert (B : bonus_of query prompt_analysis == 0).
  { unfold mentions in Hm. unfold bonus_of.
    apply orb_false_iff in Hm. destruct Hm as [Hm H3].
    apply orb_false_iff in Hm. destruct Hm as [H1 H2].
    rewrite H1.
    assert (Z : forall weight terms,
               existsb (fun term => contains (lower term) (lower query))
                 terms = false ->
               count_hits weight terms (lower query) = 0).
    { intros weight terms. unfold count_hits. generalize 0 as acc.
      induction terms as [|t ts IH]; intros acc H; cbn [fold_left];
        trivial.
      cbn [existsb] in H. apply orb_false_iff in H. destruct H as [Ht H].
      rewrite Ht. now apply IH. }
    rewrite (Z _ _ H2), (Z _ _ H3). lra. }
  assert (A : base_of query domain_signature == 0).
  { unfold base_of. cbv zeta.
    set (sig := firstn 100 (map lower domain_signature)) in *.
    assert (M : forall words acc,
               (forall word, In word words ->
                  match_word fuzzy_match word sig == 0) ->
               fold_left
                 (fun m word =>
                    if (length word <? 3)%nat then m
                    else m + match_word fuzzy_match word sig) words acc
               == acc).
    { induction words as [|w words IH]; intros acc H; cbn [fold_left];
        [reflexivity|].
      rewrite IH by (intros; apply H; now right).
      destruct (length w <? 3)%nat; [reflexivity|].
      rewrite (H w (or_introl eq_refl)). lra. }
    rewrite M.
    - unfold Qdiv. lra.
    - intros word Hin. apply Hw. now apply nodup_In in Hin. }
  set (bonus := bonus_of query prompt_analysis) in *.
  set (base := base_of query domain_signature) in *.
  assert (L : Qleb 1 bonus = false).
  { destruct (Qleb 1 bonus) eqn:E; trivial. apply Qleb_true in E. lra. }
  rewrite L.
  assert (S : min 1.0 (base + min 0.5 (bonus * 0.1)) == 0).
  { destruct (min_spec 0.5 (bonus * 0.1)) as [[H1 ->]|[H1 ->]]; [|lra].
    destruct (min_spec 1.0 (base + bonus * 0.1)) as [[H2 ->]|[H2 ->]]; lra. }
  split; [|exact S].
  destruct (Qleb DOMAIN_SIMILARITY_THRESHOLD _) eqn:E; trivial.
  apply Qleb_true in E. unfold DOMAIN_SIMILARITY_THRESHOLD in E. lra.
Qed.

End Guardrail.

(** A cooking agent, a question on salads and a question on routers. *)
Definition cooking : AnalysisDict :=
  {| domain := Some (lit "cooking");
     sub_domains := Some [lit "baking"];
     domain_keywords := Some [lit "recipe"; lit "salad"] |}.

Lemma guardrail_accepts_mentions_witness :
  let r :=
    _check_guardrail (fun _ _ => 0) (lit "Which SALAD is quick?") [] cooking
  in
  fst r = true /\ 0.2 <= snd r.
Proof. apply guardrail_accepts_mentions. reflexivity. Defined.

Lemma guardrail_rejects_unrelated_witness :
  let r :=
    _check_guardrail (fun _ _ => 0) (lit "How do I configure a BGP router?")
      [] cooking in
  fst r = false /\ snd r == 0.
Proof.
  apply guardrail_rejects_unrelated.
  - reflexivity.
  - intros word _. reflexivity.
Defined.

End GuardrailProps.

(* ===================================================================== *)
(** * Properties of the hybrid searcher *)
(* ===================================================================== *)

Module HybridSearcherProps.
Import Py PyFacts HybridSearcher.
Local Open Scope Q_scope.

Section Search.

Variable Chunk : Type.
Variable Emb : Type.
Variable chunk_id : Chunk -> Z.
Variable embed : str -> option Emb.
Variable hybrid_rows : Emb -> str -> nat -> Z -> option (list (Z * Q)).
Variable chunks_with_ids : list Z -> option (list Chunk).
Variable nearest : Emb -> nat -> Z -> option (list Chunk).
Variable embed_again : str -> option Emb.
Variable nearest_again : Emb -> nat -> Z -> option (list Chunk).

Definition rank_score (i : nat) : Q := 1.0 / (1 + inject_Z (Z.of_nat i) * 0.1).

Lemma rank_score_range (i : nat) : 0 < rank_score i <= 1.
Proof.
  unfold rank_score.
  assert (P : 0 <= inject_Z (Z.of_nat i))
    by (change 0 with (inject_Z 0); rewrite <- Zle_Qle; lia).
  split.
  - apply Qlt_shift_div_l; lra.
  - apply Qle_shift_div_r; lra.
Qed.

Lemma rank_score_decreases (i j : nat) :
  (i < j)%nat -> rank_score j < rank_score i.
Proof.
  intro H. unfold rank_score.
  assert (Pi : 0 <= inject_Z (Z.of_nat i))
    by (change 0 with (inject_Z 0); rewrite <- Zle_Qle; lia).
  assert (Pij : inject_Z (Z.of_nat i) < inject_Z (Z.of_nat j))
    by (rewrite <- Zlt_Qlt; lia).
  set (a := 1 + inject_Z (Z.of_nat i) * 0.1).
  set (b := 1 + inject_Z (Z.of_nat j) * 0.1).
  assert (A : 0 < a) by (subst a; lra).
  assert (B : a < b) by (subst a b; lra).
  apply Qlt_shift_div_r; [lra|].
  assert (E : 1.0 / a * b == b / a) by (field; lra).
  rewrite E. apply Qlt_shift_div_l; lra.
Qed.

Lemma rank_scores_spec (chunks : list Chunk) (i : nat) :
  map fst (rank_scores i chunks) = chunks
  /\ map snd (rank_scores i chunks)
     = map rank_score (seq i (length chunks)).
Proof.
  revert i. induction chunks as [|c chunks IH]; intro i; cbn; [now split|].
  destruct (IH (S i)) as [-> ->]. now split.
Qed.

(** [x] is ranked strictly above [y]. *)
Definition above (x y : Chunk * Q) : Prop := snd y < snd x.

Lemma rank_scores_sorted (chunks : list Chunk) (i : nat) :
  StronglySorted above (rank_scores i chunks)
  /\ Forall (fun x => exists k, (i <= k)%nat /\ snd x = rank_score k)
       (rank_scores i chunks).
Proof.
  revert i. induction chunks as [|c chunks IH]; intro i;
    cbn [rank_scores]; [split; constructor|].
  destruct (IH (S i)) as [S F]. split.
  - constructor; trivial.
    eapply Forall_impl; [|exact F].
    intros x (k & Hk & E). unfold above. cbn [snd]. rewrite E.
    apply rank_score_decreases. lia.
  - constructor; [exists i; split; [lia|reflexivity]|].
    eapply Forall_impl; [|exact F].
    intros x (k & Hk & E). exists k. split; [lia|exact E].
Qed.

(** X29. The scores [_semantic_only_search] hands out depend on the rank
    only: they are strictly decreasing along the list, all of them in
    (0, 1], the chunks keep the order of the database query, and the first
    score is 1, which the confidence computation of the engine normalises
    to a similarity of 1. *)
Theorem _semantic_only_search_scores
  (query_embedding : Emb) (agent_id : nat) (top_k : Z) :
  let results :=
    _semantic_only_search nearest query_embedding agent_id top_k in
  StronglySorted above results
  /\ Forall (fun x => 0 < snd x <= 1) results
  /\ map fst results
     = match nearest query_embedding agent_id top_k with
       | Some chunks => chunks
       | None => []
       end
  /\ match results with
     | [] => True
     | top :: _ =>
         snd top == 1 /\ ReasoningEngine.norm_similarity (snd top) == 1
     end.
Proof.
  cbv zeta. unfold _semantic_only_search.
  destruct (nearest query_embedding agent_id top_k) as [chunks|];
    [|repeat split; constructor].
  destruct (rank_scores_sorted chunks 0) as [S F].
  split; [exact S|]. split; [|split].
  - eapply Forall_impl; [|exact F].
    intros x (k & _ & ->). apply rank_score_range.
  - apply rank_scores_spec.
  - destruct chunks as [|c chunks]; cbn [rank_scores snd]; trivial.
    split; reflexivity.
Qed.

(** A query that is empty or holds only white space returns no
    result, whatever the services would answer. *)
Lemma search_blank_query (query : str) (agent_id : nat) (top_k : Z) :
  (forall c, In c query -> isspace c = true) ->
  search chunk_id embed hybrid_rows chunks_with_ids nearest embed_again
    nearest_again query agent_id top_k
  = [].
Proof.
  intro H. unfold search.
  now rewrite (proj2 (ValidatorMore.strip_nil_iff query) H).
Qed.

End Search.

End HybridSearcherProps.

(* ===================================================================== *)
(** * Further properties of the prompt analyzer *)
(* ===================================================================== *)

Module PromptMore.
Import Py PromptAnalyzer PromptProps.
Local Open Scope nat_scope.

Lemma NoDup_snoc (l : list str) (x : str) :
  NoDup l -> ~ In x l -> NoDup (l ++ [x]).
Proof.
  intros Hl Hx. apply NoDup_app; trivial.
  - constructor; [intros []|constructor].
  - intros a Ha [<-|[]]. contradiction.
Qed.

Lemma NoDup_firstn (n : nat) (l : list str) : NoDup l -> NoDup (firstn n l).
Proof.
  intro H. rewrite <- (firstn_skipn n l) in H.
  now apply NoDup_app_remove_r in H.
Qed.

Lemma add_defaults_NoDup (defaults keywords : list str) :
  NoDup keywords -> NoDup (add_defaults keywords defaults).
Proof.
  revert keywords. induction defaults as [|kw rest IH]; intros keywords H;
    cbn [add_defaults]; trivial.
  apply IH. destruct (mem kw keywords) eqn:E; cbn [negb andb]; trivial.
  destruct (length keywords <? 20); trivial.
  apply NoDup_snoc; trivial. rewrite <- mem_In. congruence.
Qed.

(** X30. [_expand_keywords] never introduces a duplicate: a list of
    keywords without repetition is expanded to a list without repetition,
    of at most 20 and at least one keyword. *)
Theorem _expand_keywords_no_duplicates (existing : list str) (domain : str) :
  NoDup existing ->
  let keywords := _expand_keywords existing domain in
  NoDup keywords /\ 1 <= length keywords <= 20.
Proof.
  intro H. cbv zeta. unfold _expand_keywords. cbv zeta.
  set (padded := match dict_get (lower domain) domain_defaults with
                 | Some defaults => add_defaults existing defaults
                 | None => existing
                 end).
  assert (P : NoDup padded).
  { subst padded. destruct (dict_get _ _); trivial.
    now apply add_defaults_NoDup. }
  set (full := if negb (mem (lower domain) (map lower padded))
               then padded ++ [domain] else padded).
  assert (F : NoDup full /\ 1 <= length full).
  { subst full. destruct (mem (lower domain) (map lower padded)) eqn:E;
      cbn [negb].
    - split; trivial. apply mem_In in E.
      destruct padded; [destruct E|cbn; lia].
    - split; [|rewrite length_app; cbn; lia].
      apply NoDup_snoc; trivial. intro Hin.
      assert (X : mem (lower domain) (map lower padded) = true)
        by (apply mem_In; now apply in_map).
      congruence. }
  destruct F as [F1 F2]. split; [now apply NoDup_firstn|].
  rewrite length_firstn. lia.
Qed.

(** Every analysis [analyze_prompt] returns, from the LLM or from the
    fallback, has at least one domain keyword; it has at most 20 unless
    the LLM itself gave 10 or more. *)
Lemma analyze_prompt_has_keywords
  (llm : str -> option AnalysisJson) (system_prompt : str) :
  let n := length (domain_keywords (analyze_prompt llm system_prompt)) in
  1 <= n
  /\ match llm system_prompt with
     | Some result =>
         let given := length (or_default (j_domain_keywords result) []) in
         if given <? 10 then n <= 20 else n = given
     | None => n <= 20
     end.
Proof.
  cbv zeta.
  assert (E : forall existing domain,
             1 <= length (_expand_keywords existing domain) <= 20).
  { intros existing domain. unfold _expand_keywords. cbv zeta.
    set (padded := match dict_get (lower domain) domain_defaults with
                   | Some defaults => add_defaults existing defaults
                   | None => existing
                   end).
    rewrite length_firstn.
    destruct (mem (lower domain) (map lower padded)) eqn:M; cbn [negb].
    - apply mem_In in M. destruct padded; [destruct M|cbn [length]; lia].
    - rewrite length_app. cbn [length]. lia. }
  unfold analyze_prompt. destruct (llm system_prompt) as [result|].
  - unfold _ensure_fields. cbn [domain_keywords].
    destruct (Nat.ltb_spec (length (or_default (j_domain_keywords result) []))
                10) as [L|L].
    + split; apply E.
    + split; [lia|reflexivity].
  - unfold _create_fallback_analysis. cbn [domain_keywords]. split; apply E.
Qed.

Lemma _expand_keywords_no_duplicates_witness :
  let keywords :=
    _expand_keywords (lits ["soil"; "plant"]%string) (lit "Gardening") in
  NoDup keywords /\ 1 <= length keywords <= 20.
Proof.
  apply _expand_keywords_no_duplicates.
  repeat constructor; cbn; intuition discriminate.
Defined.

End PromptMore.
